(** * m-ld clone engine: journal keys, operation encoding, journal
      maintenance, clone initialisation and the SU-Set dataset.

    A shallow embedding of the TypeScript sources
    ([src/engine/journal/index.ts], [src/engine/MeldEncoding.ts],
    [src/dataset/DatasetClone.ts]) together with the properties that the
    engine specification states about them, followed by the other functions
    of these files and of their neighbours ([src/engine/journal/JournalEntry.ts],
    [src/engine/quads.ts], [src/ns/m-ld.ts], [src/util.ts], [src/subjects.ts],
    the operation message) with properties read off the code. *)

From Stdlib Require Import ZArith NArith Lia List Ascii String Bool DecimalString.
From stdpp Require Import base gmap strings list fin_maps sorting.

#[local] Arguments String.append !_ _ / : simpl nomatch.
Set Warnings "-register-all,-abstract-large-number".

(* ===================================================================== *)
(** ** Journal tick keys ([src/engine/journal/index.ts], lines 18-31)     *)
(* ===================================================================== *)

Module TickKey.

Definition TICK_KEY_LEN : nat := 8.
Definition TICK_KEY_RADIX : N := 36.

(** ['0'.repeat(n)] *)
Fixpoint repeat0 (n : nat) : string :=
  match n with
  | O => EmptyString
  | S n' => String "0"%char (repeat0 n')
  end.

Definition TICK_KEY_PAD : string := repeat0 TICK_KEY_LEN.

(** The digit characters of [Number.prototype.toString(radix)]:
    ['0'..'9'] then ['a'..'z']. *)
Definition digitChar (d : N) : ascii :=
  if (d <? 10)%N then ascii_of_N (48 + d) else ascii_of_N (87 + d).

(** [n.toString(36)] for a non-negative integer [n]: the most significant
    digit first, no leading zero, ["0"] for zero.  The recursion consumes
    one digit per unit of fuel. *)
Fixpoint toStringFrom (fuel : nat) (n : N) (acc : string) : string :=
  match fuel with
  | O => acc
  | S fuel' =>
      let acc' := String (digitChar (n mod TICK_KEY_RADIX)) acc in
      if (n / TICK_KEY_RADIX =? 0)%N then acc'
      else toStringFrom fuel' (n / TICK_KEY_RADIX) acc'
  end.

(** A number has no more base-36 digits than binary digits. *)
Definition toString36 (n : N) : string :=
  toStringFrom (S (N.to_nat (N.log2 n))) n EmptyString.

(** [s.slice(-k)]: the last [k] characters of [s], the whole of [s] when it
    is shorter. *)
Definition sliceLast (k : nat) (s : string) : string :=
  substring (String.length s - k) k s.

(** [TICK_KEY_PAD.concat(tick.toString(36)).slice(-TICK_KEY_LEN)] *)
Definition paddedTick (tick : N) : string :=
  sliceLast TICK_KEY_LEN (TICK_KEY_PAD +:+ toString36 tick).

Definition tickKey (tick : N) : string :=
  "_qs:tick:" +:+ paddedTick tick.

(** Strict lexicographic order on strings, by character code (the order of
    JavaScript's [<] on strings of ASCII characters). *)
Definition str_lt (s t : string) : Prop := String.compare s t = Lt.

(** The [k] least significant base-36 digits of [n], most significant
    first. *)
Fixpoint fixedDigits (k : nat) (n : N) : string :=
  match k with
  | O => EmptyString
  | S k' => fixedDigits k' (n / TICK_KEY_RADIX)
              +:+ String (digitChar (n mod TICK_KEY_RADIX)) EmptyString
  end.

End TickKey.

(* ===================================================================== *)
(** ** JavaScript values and exceptions                                   *)
(* ===================================================================== *)

Module Js.

(** The exceptions the embedded code can raise. *)
Inductive Exn : Type :=
| TypeError (msg : string)
| SyntaxError (msg : string)
| Error (msg : string)
| MeldError (status : string) (msg : string).

(** A computation that returns or throws. *)
Inductive Result (A : Type) : Type :=
| Ok (a : A)
| Throw (e : Exn).
Arguments Ok {A} a.
Arguments Throw {A} e.

#[global] Instance result_ret : MRet Result := @Ok.
#[global] Instance result_bind : MBind Result := λ A B f r,
  match r with
  | Ok a => f a
  | Throw e => Throw e
  end.
#[global] Instance result_fmap : FMap Result := λ A B f r,
  match r with
  | Ok a => Ok (f a)
  | Throw e => Throw e
  end.

Definition Buffer : Type := list Byte.byte.

#[global] Instance byte_eq_dec : EqDecision Byte.byte := Byte.byte_eq_dec.

(** JSON data as it travels through the encoder.  Numbers are the integers
    the engine produces (ticks, versions). *)
Inductive Json : Type :=
| JNull
| JBool (b : bool)
| JNumber (n : Z)
| JString (s : string)
| JArray (items : list Json)
| JObject (members : list (string * Json)).

(** An untyped ([any]) variable holding a [Buffer] or decoded JSON. *)
Inductive Value : Type :=
| VBuffer (b : Buffer)
| VJson (j : Json).

Definition decimal (n : Z) : string :=
  NilZero.string_of_int (Z.to_int n).

Definition joinComma (parts : list string) : string :=
  String.concat "," parts.

(** [Array.prototype.join] renders [null] as the empty string and
    recursively stringifies the other elements. *)
Fixpoint jsonToString (j : Json) : Result string :=
  match j with
  | JNull => Throw (TypeError "Cannot read properties of null")
  | JBool true => Ok "true"
  | JBool false => Ok "false"
  | JNumber n => Ok (decimal n)
  | JString s => Ok s
  | JArray items =>
      Ok (joinComma
            (map (λ item, match item with
                          | JNull => EmptyString
                          | _ => match jsonToString item with
                                 | Ok s => s
                                 | Throw _ => EmptyString
                                 end
                          end) items))
  | JObject _ => Ok "[object Object]"
  end.

(** [value.toString()]: a [Buffer] decodes its bytes as UTF-8 text. *)
Definition toString (v : Value) : Result string :=
  match v with
  | VBuffer b => Ok (String.string_of_list_byte b)
  | VJson j => jsonToString j
  end.

End Js.

(* ===================================================================== *)
(** ** Operation encoding ([src/engine/MeldEncoding.ts])                  *)
(* ===================================================================== *)

Module MeldEncoding.
Import Js.

Definition COMPRESS_THRESHOLD_BYTES : nat := 1024.

(** The members of the [BufferEncoding] enumeration; a vector received from
    a peer can hold any other string. *)
Inductive BufferEncoding : Type :=
| MSGPACK
| JSON
| GZIP
| Unrecognised (name : string).

#[global] Instance BufferEncoding_eq_dec : EqDecision BufferEncoding.
Proof. solve_decision. Defined.

Definition encodingName (e : BufferEncoding) : string :=
  match e with
  | MSGPACK => "application/msgpack"
  | JSON => "application/json"
  | GZIP => "gzip"
  | Unrecognised name => name
  end.

(** The library functions the encoder calls: the message-pack codec
    ([./msgPack]), [zlib]'s [gzipSync] and [gunzipSync], and [JSON.parse].
    Decoders receive the untyped intermediate result and may throw. *)
Class Codec : Type := {
  MsgPack_encode : Json → Buffer;
  MsgPack_decode : Value → Result Json;
  gzipSync : Buffer → Buffer;
  gunzipSync : Value → Result Buffer;
  JSON_parse : string → Result Json
}.

Section Encoder.
Context `{Codec}.

(** [MeldEncoder.bufferFromJson] *)
Definition bufferFromJson (json : Json) : Buffer * list BufferEncoding :=
  let packed := MsgPack_encode json in
  if (COMPRESS_THRESHOLD_BYTES <? length packed)%nat
  then (gzipSync packed, [MSGPACK; GZIP])
  else (packed, [MSGPACK]).

(** One pass of the [switch] in [jsonFromBuffer]. *)
Definition decodeStep (e : BufferEncoding) (result : Value) : Result Value :=
  match e with
  | JSON => s ← toString result; VJson <$> JSON_parse s
  | MSGPACK => VJson <$> MsgPack_decode result
  | GZIP => VBuffer <$> gunzipSync result
  | Unrecognised name =>
      Throw (MeldError "Bad update" ("Unrecognised encoding " +:+ name))
  end.

(** The loop [for (let i = encoding.length - 1; i >= 0; i--)], running
    over the encoding vector from its last element to its first. *)
Fixpoint decodeFromLast (reversed : list BufferEncoding) (result : Value)
  : Result Value :=
  match reversed with
  | [] => Ok result
  | e :: rest => r ← decodeStep e result; decodeFromLast rest r
  end.

(** [MeldEncoder.jsonFromBuffer] *)
Definition jsonFromBuffer (encoded : Buffer) (encoding : list BufferEncoding)
  : Result Value :=
  decodeFromLast (rev encoding) (VBuffer encoded).

End Encoder.

End MeldEncoding.

(* ===================================================================== *)
(** ** A reference codec                                                  *)
(* ===================================================================== *)

(** An executable instance of [MeldEncoding.Codec], on which the encoder can
    be evaluated: the message-pack format for the JSON values above, the gzip
    container with stored deflate blocks, and a reader of JSON text without
    string escapes. *)
Module RefCodec.
Import Js MeldEncoding.

Definition byteOf (n : N) : Byte.byte :=
  default Byte.x00 (Byte.of_N (n mod 256)).

(** [k] bytes of [n], most significant first. *)
Fixpoint bigEndian (k : nat) (n : N) : Buffer :=
  match k with
  | O => []
  | S k' => bigEndian k' (n / 256) ++ [byteOf n]
  end.

Definition littleEndian (k : nat) (n : N) : Buffer := rev (bigEndian k n).

Definition fromBigEndian (b : Buffer) : N :=
  fold_left (λ acc x, acc * 256 + Byte.to_N x)%N b 0%N.

Definition takeBytes (n : nat) (b : Buffer) : option (Buffer * Buffer) :=
  if (length b <? n)%nat then None else Some (take n b, drop n b).

(** *** Message-pack *)

Definition packHeader (fixBase tag : N) (n : nat) : Buffer :=
  let n := N.of_nat n in
  if (n <? 16)%N then [byteOf (fixBase + n)]
  else if (n <? 2 ^ 16)%N then byteOf tag :: bigEndian 2 n
  else byteOf (tag + 1) :: bigEndian 4 n.

Definition packStr (s : string) : Buffer :=
  let bytes := String.list_byte_of_string s in
  let n := N.of_nat (length bytes) in
  (if (n <? 32)%N then [byteOf (160 + n)]
   else if (n <? 2 ^ 8)%N then byteOf 217 :: bigEndian 1 n
   else if (n <? 2 ^ 16)%N then byteOf 218 :: bigEndian 2 n
   else byteOf 219 :: bigEndian 4 n) ++ bytes.

Definition packInt (n : Z) : Buffer :=
  if (0 <=? n)%Z then
    let m := Z.to_N n in
    if (m <? 128)%N then [byteOf m]
    else if (m <? 2 ^ 8)%N then byteOf 204 :: bigEndian 1 m
    else if (m <? 2 ^ 16)%N then byteOf 205 :: bigEndian 2 m
    else if (m <? 2 ^ 32)%N then byteOf 206 :: bigEndian 4 m
    else byteOf 207 :: bigEndian 8 m
  else
    if (-32 <=? n)%Z then [byteOf (Z.to_N (256 + n))]
    else if (- 2 ^ 7 <=? n)%Z then byteOf 208 :: bigEndian 1 (Z.to_N (2 ^ 8 + n))
    else if (- 2 ^ 15 <=? n)%Z then byteOf 209 :: bigEndian 2 (Z.to_N (2 ^ 16 + n))
    else if (- 2 ^ 31 <=? n)%Z then byteOf 210 :: bigEndian 4 (Z.to_N (2 ^ 32 + n))
    else byteOf 211 :: bigEndian 8 (Z.to_N (2 ^ 64 + n)).

Fixpoint pack (j : Json) : Buffer :=
  match j with
  | JNull => [byteOf 192]
  | JBool false => [byteOf 194]
  | JBool true => [byteOf 195]
  | JNumber n => packInt n
  | JString s => packStr s
  | JArray items =>
      packHeader 144 220 (length items) ++ flat_map pack items
  | JObject members =>
      packHeader 128 222 (length members)
        ++ flat_map (λ member, packStr (fst member) ++ pack (snd member)) members
  end.

(** Reads [n] consecutive items with the reader [one]. *)
Fixpoint readMany {A} (one : Buffer → option (A * Buffer)) (n : nat) (b : Buffer)
  : option (list A * Buffer) :=
  match n with
  | O => Some ([], b)
  | S n' =>
      '(x, b') ← one b;
      '(xs, b'') ← readMany one n' b';
      Some (x :: xs, b'')
  end.

Definition readUInt (k : nat) (b : Buffer) : option (N * Buffer) :=
  '(digits, rest) ← takeBytes k b; Some (fromBigEndian digits, rest).

Definition readText (n : N) (b : Buffer) : option (string * Buffer) :=
  '(bytes, rest) ← takeBytes (N.to_nat n) b;
  Some (String.string_of_list_byte bytes, rest).

Definition readSizedText (k : nat) (b : Buffer) : option (string * Buffer) :=
  '(n, rest) ← readUInt k b; readText n rest.

Definition readKey (b : Buffer) : option (string * Buffer) :=
  match b with
  | [] => None
  | t :: rest =>
      let t := Byte.to_N t in
      if ((160 <=? t) && (t <? 192))%N then readText (t - 160) rest
      else if (t =? 217)%N then readSizedText 1 rest
      else if (t =? 218)%N then readSizedText 2 rest
      else if (t =? 219)%N then readSizedText 4 rest
      else None
  end.

Definition signed (k : nat) (m : N) : Z :=
  let bound := (2 ^ (8 * Z.of_nat k))%Z in
  if (Z.of_N m <? bound / 2)%Z then Z.of_N m else (Z.of_N m - bound)%Z.

Fixpoint unpack (fuel : nat) (b : Buffer) : option (Json * Buffer) :=
  match fuel, b with
  | O, _ | _, [] => None
  | S fuel', t :: rest =>
      let t := Byte.to_N t in
      let items (n : N) (from : Buffer) :=
        '(xs, r) ← readMany (unpack fuel') (N.to_nat n) from;
        Some (JArray xs, r) in
      let members (n : N) (from : Buffer) :=
        '(xs, r) ← readMany (λ b0, '(k, b1) ← readKey b0;
                                   '(v, b2) ← unpack fuel' b1;
                                   Some ((k, v), b2)) (N.to_nat n) from;
        Some (JObject xs, r) in
      let unsigned k := '(m, r) ← readUInt k rest; Some (JNumber (Z.of_N m), r) in
      let negative k := '(m, r) ← readUInt k rest; Some (JNumber (signed k m), r) in
      if (t <? 128)%N then Some (JNumber (Z.of_N t), rest)
      else if (t <? 144)%N then members (t - 128)%N rest
      else if (t <? 160)%N then items (t - 144)%N rest
      else if (t <? 192)%N then
        '(s, r) ← readText (t - 160) rest; Some (JString s, r)
      else if (t =? 192)%N then Some (JNull, rest)
      else if (t =? 194)%N then Some (JBool false, rest)
      else if (t =? 195)%N then Some (JBool true, rest)
      else if (t =? 204)%N then unsigned 1%nat
      else if (t =? 205)%N then unsigned 2%nat
      else if (t =? 206)%N then unsigned 4%nat
      else if (t =? 207)%N then unsigned 8%nat
      else if (t =? 208)%N then negative 1%nat
      else if (t =? 209)%N then negative 2%nat
      else if (t =? 210)%N then negative 4%nat
      else if (t =? 211)%N then negative 8%nat
      else if ((217 <=? t) && (t <=? 219))%N then
        '(s, r) ← readKey b; Some (JString s, r)
      else if (t =? 220)%N then '(n, r) ← readUInt 2 rest; items n r
      else if (t =? 221)%N then '(n, r) ← readUInt 4 rest; items n r
      else if (t =? 222)%N then '(n, r) ← readUInt 2 rest; members n r
      else if (t =? 223)%N then '(n, r) ← readUInt 4 rest; members n r
      else if (224 <=? t)%N then Some (JNumber (Z.of_N t - 256), rest)
      else None
  end.

Definition packed_decode (v : Value) : Result Json :=
  match v with
  | VBuffer b =>
      match unpack (S (length b)) b with
      | Some (j, []) => Ok j
      | _ => Throw (Error "Invalid message-pack data")
      end
  | VJson _ => Throw (TypeError "Expected a buffer")
  end.

(** *** gzip with stored blocks *)

Definition crcByte (crc : N) (x : Byte.byte) : N :=
  Nat.iter 8
    (λ c, if N.odd c then N.lxor (N.shiftr c 1) 3988292384 else N.shiftr c 1)
    (N.lxor crc (Byte.to_N x)).

Definition crc32 (b : Buffer) : N :=
  N.lxor (fold_left crcByte b 4294967295%N) 4294967295.

Definition BLOCK_MAX : nat := 65535.

Fixpoint storedBlocks (fuel : nat) (b : Buffer) : Buffer :=
  let chunk := take BLOCK_MAX b in
  let rest := drop BLOCK_MAX b in
  let n := N.of_nat (length chunk) in
  let block final :=
    byteOf final :: littleEndian 2 n ++ littleEndian 2 (65535 - n) ++ chunk in
  match fuel, rest with
  | S fuel', _ :: _ => block 0%N ++ storedBlocks fuel' rest
  | _, _ => block 1%N
  end.

Definition gzipHeader : Buffer :=
  map byteOf [31; 139; 8; 0; 0; 0; 0; 0; 0; 255]%N.

Definition gzip (b : Buffer) : Buffer :=
  gzipHeader ++ storedBlocks (length b) b
    ++ littleEndian 4 (crc32 b) ++ littleEndian 4 (N.of_nat (length b) mod 2 ^ 32).

Definition readLittle (k : nat) (b : Buffer) : option (N * Buffer) :=
  '(digits, rest) ← takeBytes k b; Some (fromBigEndian (rev digits), rest).

Fixpoint inflateStored (fuel : nat) (b : Buffer) : option (Buffer * Buffer) :=
  match fuel, b with
  | O, _ | _, [] => None
  | S fuel', h :: rest =>
      let h := Byte.to_N h in
      if (1 <? h)%N then None
      else
        '(n, r1) ← readLittle 2 rest;
        '(m, r2) ← readLittle 2 r1;
        if negb (n + m =? 65535)%N then None
        else
          '(chunk, r3) ← takeBytes (N.to_nat n) r2;
          if (h =? 1)%N then Some (chunk, r3)
          else '(more, r4) ← inflateStored fuel' r3; Some (chunk ++ more, r4)
  end.

Definition gunzip (v : Value) : Result Buffer :=
  match v with
  | VJson _ => Throw (TypeError "Expected a buffer")
  | VBuffer b =>
      let parsed :=
        '(header, r0) ← takeBytes 10 b;
        if negb (bool_decide (take 4 header = take 4 gzipHeader)) then None
        else
          '(data, r1) ← inflateStored (length b) r0;
          '(crc, r2) ← readLittle 4 r1;
          '(size, r3) ← readLittle 4 r2;
          if ((crc =? crc32 data) && (size =? N.of_nat (length data) mod 2 ^ 32))%N
             && bool_decide (r3 = [])
          then Some data else None in
      match parsed with
      | Some data => Ok data
      | None => Throw (Error "incorrect header check")
      end
  end.

(** *** JSON text *)

Definition quoteChar : ascii := ascii_of_N 34.
Definition backslashChar : ascii := ascii_of_N 92.

Definition isSpace (c : ascii) : bool :=
  bool_decide (c ∈ [" "; "009"; "010"; "013"]%char).

Fixpoint skipSpace (s : string) : string :=
  match s with
  | String c r => if isSpace c then skipSpace r else s
  | EmptyString => s
  end.

Definition digitValue (c : ascii) : option Z :=
  let n := N_of_ascii c in
  if ((48 <=? n) && (n <=? 57))%N then Some (Z.of_N n - 48)%Z else None.

Fixpoint readDigits (s : string) (acc : Z) : Z * string :=
  match s with
  | String c r =>
      match digitValue c with
      | Some d => readDigits r (acc * 10 + d)%Z
      | None => (acc, s)
      end
  | EmptyString => (acc, s)
  end.

Definition readNumber (s : string) : option (Z * string) :=
  match s with
  | String c r =>
      match digitValue c with
      | Some d => Some (readDigits r d)
      | None => None
      end
  | EmptyString => None
  end.

(** The characters up to the closing quote; escapes are not read. *)
Fixpoint readQuoted (s : string) : option (string * string) :=
  match s with
  | EmptyString => None
  | String c r =>
      if Ascii.eqb c quoteChar then Some (EmptyString, r)
      else if Ascii.eqb c "\"%char then None
      else '(t, r') ← readQuoted r; Some (String c t, r')
  end.

Definition expect (word : string) (j : Json) (s : string)
  : option (Json * string) :=
  if String.prefix word s
  then Some (j, substring (String.length word) (String.length s) s)
  else None.

Fixpoint parseValue (fuel : nat) (s : string) : option (Json * string) :=
  match fuel with
  | O => None
  | S fuel' =>
      match skipSpace s with
      | EmptyString => None
      | String c r as s' =>
          if Ascii.eqb c "n"%char then expect "null" JNull s'
          else if Ascii.eqb c "t"%char then expect "true" (JBool true) s'
          else if Ascii.eqb c "f"%char then expect "false" (JBool false) s'
          else if Ascii.eqb c quoteChar then
            '(t, r') ← readQuoted r; Some (JString t, r')
          else if Ascii.eqb c "-"%char then
            '(n, r') ← readNumber r; Some (JNumber (- n), r')
          else if Ascii.eqb c "["%char then
            match skipSpace r with
            | String "]"%char r' => Some (JArray [], r')
            | r' => '(xs, r'') ← parseItems fuel' r' []; Some (JArray xs, r'')
            end
          else if Ascii.eqb c "{"%char then
            match skipSpace r with
            | String "}"%char r' => Some (JObject [], r')
            | r' => '(xs, r'') ← parseMembers fuel' r' []; Some (JObject xs, r'')
            end
          else '(n, r') ← readNumber s'; Some (JNumber n, r')
      end
  end
with parseItems (fuel : nat) (s : string) (acc : list Json)
  : option (list Json * string) :=
  match fuel with
  | O => None
  | S fuel' =>
      '(v, r) ← parseValue fuel' s;
      match skipSpace r with
      | String ","%char r' => parseItems fuel' r' (v :: acc)
      | String "]"%char r' => Some (rev (v :: acc), r')
      | _ => None
      end
  end
with parseMembers (fuel : nat) (s : string) (acc : list (string * Json))
  : option (list (string * Json) * string) :=
  match fuel with
  | O => None
  | S fuel' =>
      match skipSpace s with
      | String c r =>
          if negb (Ascii.eqb c quoteChar) then None
          else
            '(k, r1) ← readQuoted r;
            match skipSpace r1 with
            | String ":"%char r2 =>
                '(v, r3) ← parseValue fuel' r2;
                match skipSpace r3 with
                | String ","%char r' => parseMembers fuel' r' ((k, v) :: acc)
                | String "}"%char r' => Some (rev ((k, v) :: acc), r')
                | _ => None
                end
            | _ => None
            end
      | _ => None
      end
  end.

Definition parse (s : string) : Result Json :=
  match parseValue (2 * String.length s + 2) s with
  | Some (j, r) =>
      match skipSpace r with
      | EmptyString => Ok j
      | _ => Throw (SyntaxError "Unexpected non-whitespace character after JSON")
      end
  | None => Throw (SyntaxError "Unexpected token")
  end.

#[global] Instance codec : Codec := {|
  MsgPack_encode := pack;
  MsgPack_decode := packed_decode;
  gzipSync := gzip;
  gunzipSync := gunzip;
  JSON_parse := parse
|}.

(** An object small enough to stay uncompressed, and an array whose packed
    form is longer than the compression threshold. *)
Definition fredJson : Json :=
  JObject [("@id", JString "fred"); ("name", JString "Fred")].

Definition largeJson : Json :=
  JArray (replicate 400 (JArray [JNumber 300; JString "Fred"; JNull])).

End RefCodec.

(* ===================================================================== *)
(** ** The journal ([src/engine/journal/index.ts])                        *)
(* ===================================================================== *)

Module Journal.
Import Js.

(** [TickTid]: the previous public tick and TID of an entry's clock. *)
Definition TickTid : Type := Z * string.

(** [JournalEntryJson]: [[prev, tid]]. *)
Definition JournalEntryJson : Type := TickTid * string.

(** [JournalEntry.prev] *)
Definition JournalEntry_prev (json : JournalEntryJson) : TickTid := json.1.

(** The modules the journal imports and that it treats as given: the tree
    clock ([../clocks]), operations and their decoding ([../MeldEncoding],
    [./JournalOperation]), the journal state ([./JournalState]), and the
    message-pack reading of stored values at their declared types. *)
Class Engine : Type := {
  TreeClock : Type;
  ticks : TreeClock → Z;
  ticked : TreeClock → Z → TreeClock;
  isZeroId : TreeClock → bool;
  GlobalClock : Type;
  tids : GlobalClock → list string;
  JournalState : Type;
  gwc : JournalState → GlobalClock;
  EncodedOperation : Type;
  MeldOperation : Type;
  from : MeldOperation → Z;
  time : MeldOperation → TreeClock;
  MeldOperation_fromEncoded : EncodedOperation → MeldOperation;
  CausalOperation : Type;
  MeldOperation_fromOperation : CausalOperation → MeldOperation;
  unpackEntry : Buffer → JournalEntryJson;
  unpackOperation : Buffer → EncodedOperation;
  unpackState : Buffer → JournalState
}.

(** A causal reduction operator, as [createOperator] makes it from the
    first operation: [next] absorbs one more operation and [commit] yields
    the reduced operation. *)
Record CausalOperator `{Engine} : Type := {
  Operator : Type;
  createOperator : MeldOperation → Operator;
  next : Operator → MeldOperation → Operator;
  commit : Operator → CausalOperation
}.

Definition JOURNAL_KEY : string := "_qs:journal".
Definition tidEntryKey (tid : string) : string := "_qs:tid:" +:+ tid.
Definition tidOpKey (tid : string) : string := "_qs:op:" +:+ tid.

(** The writes of a batch on the key-value store, [batch.put] and
    [batch.del]. *)
Inductive BatchOp : Type :=
| Put (key : string) (value : Buffer)
| Del (key : string).

Definition Kvps : Type := list BatchOp.

(** Modelled from the spec: the store of [../dataset], which is not part of
    the sources at hand; "underlying key/value transactions provide atomic
    batch commit": the writes of the batch take effect together, in their
    order. *)
Definition commitBatch (store : gmap string Buffer) (batch : Kvps)
  : gmap string Buffer :=
  fold_left (λ s op, match op with
                     | Put k v => <[k := v]> s
                     | Del k => delete k s
                     end) batch store.

(** [KvpResult<T>]: an optional batch and a return value. *)
Record KvpResult (T : Type) : Type := {
  kvps : Kvps;
  returns : T
}.
Arguments kvps {T} _.
Arguments returns {T} _.

Section Journal.
Context `{Engine}.

(** The journal object: its store and its state cache [_state]. *)
Record Journal : Type := {
  store : gmap string Buffer;
  _state : option JournalState
}.

(** A stored operation, [JournalOperation.fromJson(journal, json, tid)]. *)
Record JournalOperation : Type := {
  tid : string;
  json : EncodedOperation
}.

(** Modelled from the spec: [asMeldOperation] of [./JournalOperation], which
    is not part of the sources at hand: the stored operation decoded, as
    [Journal.decode] and [Journal.meldOperation] decode it. *)
Definition asMeldOperation (op : JournalOperation) : MeldOperation :=
  MeldOperation_fromEncoded (json op).

(** Modelled from the spec: [tick] of [./JournalOperation]; entries are
    "indexed by end-tick", "[key = tickKey(time.ticks)]". *)
Definition tick (op : JournalOperation) : Z := ticks (time (asMeldOperation op)).

(** [Journal.state]: reads and caches the journal state. *)
Definition state (j : Journal) : Result (JournalState * Journal) :=
  match _state j with
  | Some s => Ok (s, j)
  | None =>
      match store j !! JOURNAL_KEY with
      | None => Throw (Error "Missing journal")
      | Some value =>
          let s := unpackState value in
          Ok (s, {| store := store j; _state := Some s |})
      end
  end.

(** [Journal.entryPrev] *)
Definition entryPrev (j : Journal) (tid : string) : option TickTid :=
  match store j !! tidEntryKey tid with
  | Some value => Some (JournalEntry_prev (unpackEntry value))
  | None => None
  end.

(** [Journal.operation(tid)] *)
Definition operation (j : Journal) (tid : string) : option JournalOperation :=
  match store j !! tidOpKey tid with
  | Some value => Some {| tid := tid; json := unpackOperation value |}
  | None => None
  end.

(** [Journal.operation(tid, 'require')] *)
Definition operation_require (j : Journal) (tid : string)
  : Result JournalOperation :=
  match operation j tid with
  | Some op => Ok op
  | None =>
      Throw (Error ("Journal corrupted: operation " +:+ tid +:+ " is missing"))
  end.

(** [Journal.toMeldOperation] *)
Definition toMeldOperation (op : CausalOperation) : MeldOperation :=
  MeldOperation_fromOperation op.

(** [Journal.meldOperation] *)
Definition meldOperation (j : Journal) (tid : string) : Result MeldOperation :=
  op ← operation_require j tid; Ok (MeldOperation_fromEncoded (json op)).

(** [Journal.withLockedHistory]: the prepared batch is committed to the
    store and the prepared value returned. *)
Definition withLockedHistory {T} (j : Journal)
    (prepare : Journal → Result (KvpResult T * Journal)) : Result (T * Journal) :=
  '(result, j') ← prepare j;
  Ok (returns result,
      {| store := commitBatch (store j') (kvps result); _state := _state j' |}).

(** [Journal.disposeOperationIfUnreferenced] *)
Definition disposeOperationIfUnreferenced (j : Journal) (tid : string)
  : Result (bool * Journal) :=
  withLockedHistory j (λ j,
    if bool_decide (is_Some (store j !! tidEntryKey tid))
    then Ok ({| kvps := []; returns := false |}, j)
    else
      '(s, j') ← state j;
      if existsb (String.eqb tid) (tids (gwc s))
      then Ok ({| kvps := []; returns := false |}, j')
      else Ok ({| kvps := [Del (tidOpKey tid)]; returns := true |}, j')).

(** The test of [seekToFrom] on the previous tick and TID. *)
Definition contiguousPrev (minFrom : Z) (currentOp : MeldOperation)
    (prevTick : Z) : bool :=
  (minFrom <=? prevTick)%Z
  && (prevTick =? from currentOp - 1)%Z
  && negb (isZeroId (ticked (time currentOp) prevTick)).

(** [seekToFrom] inside [causalReduce]: the history grows at its front.
    Each recursive call takes one unit of fuel; [None] is a walk that has
    not ended within the fuel. *)
Fixpoint seekToFrom (fuel : nat) (j : Journal) (minFrom : Z)
    (history : list MeldOperation) (tick : Z) (tid : string)
  : option (Result (list MeldOperation)) :=
  match fuel with
  | O => None
  | S fuel' =>
      match history with
      | [] => Some (Throw (TypeError "Cannot read properties of undefined"))
      | currentOp :: _ =>
          match entryPrev j tid with
          | Some (prevTick, prevTid) =>
              if contiguousPrev minFrom currentOp prevTick then
                match meldOperation j prevTid with
                | Ok prevOp =>
                    seekToFrom fuel' j minFrom (prevOp :: history) prevTick prevTid
                | Throw e => Some (Throw e)
                end
              else Some (Ok history)
          | None => Some (Ok history)
          end
      end
  end.

(** [Journal.causalReduce] *)
Definition causalReduce (fuel : nat) (j : Journal) (op : JournalOperation)
    (operator : CausalOperator) (minFrom : Z)
  : option (Result MeldOperation) :=
  match seekToFrom fuel j minFrom [asMeldOperation op] (tick op) (tid op) with
  | None => None
  | Some (Throw e) => Some (Throw e)
  | Some (Ok []) => Some (Throw (TypeError "Cannot read properties of undefined"))
  | Some (Ok (first :: rest)) =>
      let started := createOperator operator first in
      let finished := fold_left (next operator) rest started in
      Some (Ok (toMeldOperation (commit operator finished)))
  end.

(** *** The walk as the specification describes it

    From the operation at hand, step to the previous operation while a
    previous tick and TID are recorded for the current one, that tick is
    not below [minFrom], it is the tick just before the current
    operation's range, and the clock ticked back to it does not have a
    zero id. *)
Definition steppable (minFrom : Z) (current : MeldOperation) (prevTick : Z)
  : Prop :=
  (minFrom ≤ prevTick)%Z
  ∧ prevTick = (from current - 1)%Z
  ∧ isZeroId (ticked (time current) prevTick) = false.

Inductive walksBack (j : Journal) (minFrom : Z)
  : list MeldOperation → string → list MeldOperation → Prop :=
| walks_stop current history tid :
    (∀ prevTick prevTid,
        entryPrev j tid = Some (prevTick, prevTid) →
        ¬ steppable minFrom current prevTick) →
    walksBack j minFrom (current :: history) tid (current :: history)
| walks_step current history tid prevTick prevTid prevOp final :
    entryPrev j tid = Some (prevTick, prevTid) →
    steppable minFrom current prevTick →
    meldOperation j prevTid = Ok prevOp →
    walksBack j minFrom (prevOp :: current :: history) prevTid final →
    walksBack j minFrom (current :: history) tid final.

(** The forward fold over a collected history. *)
Definition reduceForward (operator : CausalOperator)
    (history : list MeldOperation) : option MeldOperation :=
  match history with
  | [] => None
  | first :: rest =>
      Some (toMeldOperation
              (commit operator
                 (fold_left (next operator) rest (createOperator operator first))))
  end.

(** A reduction whose result carries the time of the last operation it
    was given, as fusion does. *)
Definition endsAtLast (operator : CausalOperator) : Prop :=
  ∀ history reduced,
    reduceForward operator history = Some reduced →
    Some (time reduced) = time <$> last history.

(** Journal invariant: a previous tick of 1 or more names a stored
    operation whose range starts no later than that tick. *)
Definition prevStored (j : Journal) (prev : TickTid) : Prop :=
  (1 ≤ prev.1)%Z →
  ∃ op, operation j prev.2 = Some op ∧ (from (asMeldOperation op) ≤ prev.1)%Z.

Definition wellFormed (j : Journal) : Prop :=
  ∀ tid prev, entryPrev j tid = Some prev → prevStored j prev.

Definition prevStoredb (j : Journal) (prev : TickTid) : bool :=
  (prev.1 <? 1)%Z
  || match operation j prev.2 with
     | Some op => (from (asMeldOperation op) <=? prev.1)%Z
     | None => false
     end.

(** The invariant checked on every entry indexed by TID. *)
Definition wellFormedb (j : Journal) : bool :=
  forallb (λ kv, negb (String.prefix "_qs:tid:" kv.1)
                 || prevStoredb j (JournalEntry_prev (unpackEntry kv.2)))
          (map_to_list (store j)).

End Journal.

End Journal.

(* ===================================================================== *)
(** ** Tree clocks                                                        *)
(* ===================================================================== *)

Module TreeClockModel.

(** Modelled from the spec: the tree clock of [src/engine/clocks.ts], which
    is not part of the sources at hand.  "A rooted binary tree of integer
    tick counters ... Exactly one leaf carries the id of the current
    process." *)
Inductive TreeClock : Type :=
| Leaf (isId : bool) (count : Z)
| Fork (count : Z) (left right : TreeClock).

#[global] Instance TreeClock_eq_dec : EqDecision TreeClock.
Proof. solve_decision. Defined.

(** Modelled from the spec: "[GENESIS] is the single-node clock [(0,
    id=root)]". *)
Definition GENESIS : TreeClock := Leaf true 0.

(** Modelled from the spec: the counter of the id-leaf, and the sum of the
    counters above it. *)
Fixpoint idLeaf (c : TreeClock) : option (Z * Z) :=
  match c with
  | Leaf true n => Some (n, 0%Z)
  | Leaf false _ => None
  | Fork n l r =>
      match idLeaf l with
      | Some (leaf, above) => Some (leaf, (n + above)%Z)
      | None =>
          match idLeaf r with
          | Some (leaf, above) => Some (leaf, (n + above)%Z)
          | None => None
          end
      end
  end.

(** Modelled from the spec: "[ticks]: sum of counters along the path from
    root to id-leaf." *)
Definition ticks (c : TreeClock) : Z :=
  match idLeaf c with
  | Some (leaf, above) => (leaf + above)%Z
  | None => 0%Z
  end.

(** Modelled from the spec: "[isZeroId]: true if the id-leaf counter is 0
    (forked, never ticked)." *)
Definition isZeroId (c : TreeClock) : bool :=
  match idLeaf c with
  | Some (leaf, _) => (leaf =? 0)%Z
  | None => false
  end.

(** Modelled from the spec: the clock with [d] added to the counter of the
    id-leaf. *)
Fixpoint tickedBy (d : Z) (c : TreeClock) : TreeClock :=
  match c with
  | Leaf true n => Leaf true (n + d)
  | Leaf false n => Leaf false n
  | Fork n l r =>
      match idLeaf l with
      | Some _ => Fork n (tickedBy d l) r
      | None => Fork n l (tickedBy d r)
      end
  end.

(** Modelled from the spec: "[ticked()]: new clock with the id-leaf
    incremented by 1"; with an argument, the clock whose [ticks] are the
    given ones. *)
Definition tickedOnce (c : TreeClock) : TreeClock := tickedBy 1 c.
Definition ticked (c : TreeClock) (n : Z) : TreeClock := tickedBy (n - ticks c) c.

(** Modelled from the spec: "[forked() -> (left, right)]: splits the id-leaf
    into two sub-leaves." *)
Fixpoint forkedWith (mine : bool) (c : TreeClock) : TreeClock :=
  match c with
  | Leaf true n => Fork n (Leaf mine 0) (Leaf (negb mine) 0)
  | Leaf false n => Leaf false n
  | Fork n l r => Fork n (forkedWith mine l) (forkedWith mine r)
  end.

Definition forked (c : TreeClock) : TreeClock * TreeClock :=
  (forkedWith true c, forkedWith false c).

(** Modelled from the spec: [isId], the clock is a single id-leaf, "never
    been forked". *)
Definition isId (c : TreeClock) : bool :=
  match c with
  | Leaf true _ => true
  | _ => false
  end.

(** Modelled from the spec: the clock without its id. *)
Fixpoint scrubId (c : TreeClock) : TreeClock :=
  match c with
  | Leaf _ n => Leaf false n
  | Fork n l r => Fork n (scrubId l) (scrubId r)
  end.

(** Modelled from the spec: "[update(other)]: takes component-wise maximum
    against another clock at each shared node; id remains the caller's." *)
Fixpoint update (c other : TreeClock) : TreeClock :=
  match c, other with
  | Leaf isId n, Leaf _ m => Leaf isId (Z.max n m)
  | Leaf true n, Fork m _ _ => Leaf true (Z.max n m)
  | Leaf false n, Fork m l r => Fork (Z.max n m) (scrubId l) (scrubId r)
  | Fork n l r, Leaf _ m => Fork (Z.max n m) l r
  | Fork n l r, Fork m l' r' => Fork (Z.max n m) (update l l') (update r r')
  end.

(** Modelled from the spec: the ticks that [c] has seen of the process that
    owns [other]. *)
Fixpoint getTicks (c other : TreeClock) : Z :=
  match c, other with
  | Leaf _ n, _ => n
  | Fork n _ _, Leaf _ _ => n
  | Fork n l r, Fork _ l' r' =>
      match idLeaf l' with
      | Some _ => (n + getTicks l l')%Z
      | None => (n + getTicks r r')%Z
      end
  end.

(** Modelled from the spec: the time of a message that is "the causal
    successor of the current clock w.r.t. the sender's identity", the next
    one from its sender. *)
Definition isNext (c msgTime : TreeClock) : bool :=
  (ticks msgTime =? getTicks c msgTime + 1)%Z.

(** Modelled from the spec: the canonical text of a clock, standing for its
    content hash: "hash is a function of value only". *)
Fixpoint render (c : TreeClock) : string :=
  match c with
  | Leaf true n => "*" +:+ Js.decimal n
  | Leaf false n => Js.decimal n
  | Fork n l r => "[" +:+ Js.decimal n +:+ "," +:+ render l +:+ "," +:+ render r +:+ "]"
  end.

Definition hash (c : TreeClock) : string := render c.

End TreeClockModel.

(* ===================================================================== *)
(** ** A reference engine for the journal                                 *)
(* ===================================================================== *)

(** An executable instance of [Journal.Engine]: tree clocks as above,
    operations as the JSON tuple [[2, from, time, deletes, inserts]] packed
    with the reference codec, and fusion as the reduction operator. *)
Module RefEngine.
Import Js Journal.

Record Operation : Type := {
  op_from : Z;
  op_time : TreeClockModel.TreeClock;
  op_deletes : list Json;
  op_inserts : list Json
}.

Record State : Type := {
  tailTick : Z;
  localTime : TreeClockModel.TreeClock;
  gwcTids : list string
}.

Fixpoint clockJson (c : TreeClockModel.TreeClock) : Json :=
  match c with
  | TreeClockModel.Leaf isId n => JArray [JBool isId; JNumber n]
  | TreeClockModel.Fork n l r => JArray [JNumber n; clockJson l; clockJson r]
  end.

Fixpoint jsonClock (j : Json) : TreeClockModel.TreeClock :=
  match j with
  | JArray [JBool isId; JNumber n] => TreeClockModel.Leaf isId n
  | JArray [JNumber n; l; r] => TreeClockModel.Fork n (jsonClock l) (jsonClock r)
  | _ => TreeClockModel.GENESIS
  end.

Definition operationJson (op : Operation) : Json :=
  JArray [JNumber 2; JNumber (op_from op); clockJson (op_time op);
          JArray (op_deletes op); JArray (op_inserts op)].

Definition jsonOperation (j : Json) : Operation :=
  match j with
  | JArray [JNumber _; JNumber f; t; JArray dels; JArray ins] =>
      {| op_from := f; op_time := jsonClock t; op_deletes := dels; op_inserts := ins |}
  | _ => {| op_from := 0; op_time := TreeClockModel.GENESIS;
            op_deletes := []; op_inserts := [] |}
  end.

Definition entryJson (e : JournalEntryJson) : Json :=
  JArray [JArray [JNumber e.1.1; JString e.1.2]; JString e.2].

Definition jsonEntry (j : Json) : JournalEntryJson :=
  match j with
  | JArray [JArray [JNumber t; JString p]; JString tid] => ((t, p), tid)
  | _ => ((0%Z, EmptyString), EmptyString)
  end.

Definition stateJson (s : State) : Json :=
  JObject [("tailTick", JNumber (tailTick s)); ("time", clockJson (localTime s));
           ("gwc", JArray (map JString (gwcTids s)))].

Definition jsonState (j : Json) : State :=
  match j with
  | JObject [(_, JNumber t); (_, c); (_, JArray ts)] =>
      {| tailTick := t; localTime := jsonClock c;
         gwcTids := omap (λ x, match x with JString s => Some s | _ => None end) ts |}
  | _ => {| tailTick := 0; localTime := TreeClockModel.GENESIS; gwcTids := [] |}
  end.

Definition unpacked (b : Buffer) : Json :=
  match RefCodec.packed_decode (VBuffer b) with
  | Ok j => j
  | Throw _ => JNull
  end.

#[global] Instance engine : Engine := {|
  TreeClock := TreeClockModel.TreeClock;
  ticks := TreeClockModel.ticks;
  ticked := TreeClockModel.ticked;
  isZeroId := TreeClockModel.isZeroId;
  GlobalClock := list string;
  tids := id;
  JournalState := State;
  gwc := gwcTids;
  EncodedOperation := Json;
  MeldOperation := Operation;
  from := op_from;
  time := op_time;
  MeldOperation_fromEncoded := jsonOperation;
  CausalOperation := Operation;
  MeldOperation_fromOperation := id;
  unpackEntry := λ b, jsonEntry (unpacked b);
  unpackOperation := unpacked;
  unpackState := λ b, jsonState (unpacked b)
|}.

(** Modelled from the spec: fusion "replaces the two operations with one
    covering the combined tick range [prev.from .. new.time.ticks], with
    combined deletes/inserts". *)
Definition fuse (acc op : Operation) : Operation :=
  {| op_from := op_from acc; op_time := op_time op;
     op_deletes := op_deletes acc ++ op_deletes op;
     op_inserts := op_inserts acc ++ op_inserts op |}.

Definition fusion : CausalOperator := {|
  Operator := Operation;
  createOperator := id;
  next := fuse;
  commit := id
|}.

(** The batch of [Journal.commitEntry]: the entry under its tick key and
    under its TID, and the operation under its TID. *)
Definition entryBatch (endTick : N) (prev : TickTid) (op : Operation) : Kvps :=
  let tid := TreeClockModel.hash (op_time op) in
  let encoded := RefCodec.pack (entryJson (prev, tid)) in
  [Put (TickKey.tickKey endTick) encoded;
   Put (tidEntryKey tid) encoded;
   Put (tidOpKey tid) (RefCodec.pack (operationJson op))].

(** A journal holding three consecutive operations of the clone with the
    left half of the genesis clock. *)
Definition clockAt (n : Z) : TreeClockModel.TreeClock :=
  TreeClockModel.ticked (TreeClockModel.forked TreeClockModel.GENESIS).1 n.

Definition insertAt (n : Z) (name : string) : Operation :=
  {| op_from := n; op_time := clockAt n; op_deletes := [];
     op_inserts := [JObject [("@id", JString name)]] |}.

Definition sampleState : State :=
  {| tailTick := 3; localTime := clockAt 3;
     gwcTids := [TreeClockModel.hash (clockAt 3)] |}.

Definition sampleJournal : Journal := {|
  store := commitBatch ∅
    (entryBatch 1 (0%Z, TreeClockModel.hash (clockAt 0)) (insertAt 1 "fred")
     ++ entryBatch 2 (1%Z, TreeClockModel.hash (clockAt 1)) (insertAt 2 "wilma")
     ++ entryBatch 3 (2%Z, TreeClockModel.hash (clockAt 2)) (insertAt 3 "barney")
     ++ [Put (tidOpKey "stale") (RefCodec.pack (operationJson (insertAt 1 "old")));
         Put JOURNAL_KEY (RefCodec.pack (stateJson sampleState))]);
  _state := None
|}.

(** A corrupted journal: the entry of an operation names that operation
    itself as its predecessor. *)
Definition loopOperation : Operation :=
  {| op_from := 2; op_time := clockAt 2; op_deletes := []; op_inserts := [] |}.

Definition loopJournal : Journal := {|
  store := commitBatch ∅ (entryBatch 2 (1%Z, TreeClockModel.hash (clockAt 2))
                            loopOperation);
  _state := None
|}.

Definition lastOperation : JournalOperation :=
  {| tid := TreeClockModel.hash (clockAt 3);
     json := operationJson (insertAt 3 "barney") |}.

End RefEngine.

(* ===================================================================== *)
(** ** Plain JavaScript objects used as maps                              *)
(* ===================================================================== *)

Module JsObject.

(** The own properties of an object literal, in the order in which
    [Object.values] visits them: array-index keys in ascending numeric
    order first, then the other string keys in order of creation. *)
Definition t (V : Type) : Type := list (string * V).

(** The properties every object literal inherits from [Object.prototype]. *)
Definition prototypeKeys : list string :=
  ["constructor"; "__defineGetter__"; "__defineSetter__"; "hasOwnProperty";
   "__lookupGetter__"; "__lookupSetter__"; "isPrototypeOf";
   "propertyIsEnumerable"; "toString"; "valueOf"; "__proto__";
   "toLocaleString"].

Definition digitOf (c : ascii) : option N :=
  let n := N_of_ascii c in
  if ((48 <=? n) && (n <=? 57))%N then Some (n - 48)%N else None.

Fixpoint digitsValue (s : string) (acc : N) : option N :=
  match s with
  | EmptyString => Some acc
  | String c r =>
      match digitOf c with
      | Some d => digitsValue r (acc * 10 + d)
      | None => None
      end
  end.

(** An array index is the canonical decimal text of an integer below
    [2^32 - 1]. *)
Definition arrayIndex (key : string) : option N :=
  match key with
  | EmptyString => None
  | String c r =>
      if Ascii.eqb c "0"%char && negb (String.eqb r EmptyString) then None
      else
        match digitsValue key 0 with
        | Some n => if (n <? 2 ^ 32 - 1)%N then Some n else None
        | None => None
        end
  end.

Definition own {V} (o : t V) (key : string) : option V :=
  snd <$> List.find (λ kv, String.eqb kv.1 key) o.

(** The outcome of reading [o[key]]. *)
Inductive Lookup (V : Type) : Type :=
| Own (v : V)
| Inherited
| Absent.
Arguments Own {V} v.
Arguments Inherited {V}.
Arguments Absent {V}.

Definition get {V} (o : t V) (key : string) : Lookup V :=
  match own o key with
  | Some v => Own v
  | None => if bool_decide (key ∈ prototypeKeys) then Inherited else Absent
  end.

(** Whether a new key comes before an existing one. *)
Definition precedes (key other : string) : bool :=
  match arrayIndex key, arrayIndex other with
  | Some n, Some m => (n <? m)%N
  | Some _, None => true
  | None, _ => false
  end.

Fixpoint create {V} (o : t V) (key : string) (v : V) : t V :=
  match o with
  | [] => [(key, v)]
  | (k, w) :: rest =>
      if precedes key k then (key, v) :: (k, w) :: rest
      else (k, w) :: create rest key v
  end.

Definition replace {V} (o : t V) (key : string) (v : V) : t V :=
  map (λ kv, if String.eqb kv.1 key then (kv.1, v) else kv) o.

(** [o[key] = v], for a key that [Object.prototype] does not define as an
    accessor (an assignment to [__proto__] would change the prototype). *)
Definition set {V} (o : t V) (key : string) (v : V) : t V :=
  match own o key with
  | Some _ => replace o key v
  | None => create o key v
  end.

(** [Object.values(o)] *)
Definition values {V} (o : t V) : list V := map snd o.

End JsObject.

(* ===================================================================== *)
(** ** Reification of triples ([src/engine/MeldEncoding.ts], lines 74-120) *)
(* ===================================================================== *)

Module Reification.
Import Js.

(** RDF/JS terms. *)
Inductive Term : Type :=
| NamedNode (value : string)
| BlankNode (value : string)
| Literal (value : string) (language : string) (datatype : string)
| VariableTerm (value : string).

#[global] Instance Term_eq_dec : EqDecision Term.
Proof. solve_decision. Defined.

Definition termValue (term : Term) : string :=
  match term with
  | NamedNode v | BlankNode v | Literal v _ _ | VariableTerm v => v
  end.

Definition isNamedNode (term : Term) : bool :=
  match term with
  | NamedNode _ => true
  | _ => false
  end.

(** [Triple = Omit<Quad, 'graph'>] *)
Record Triple : Type := {
  subject : Term;
  predicate : Term;
  object : Term
}.

(** [RefTriple = Triple & Reference] *)
Record RefTriple : Type := {
  ref_id : string;
  ref_subject : Term;
  ref_predicate : Term;
  ref_object : Term
}.

Definition UUID : Type := string.
Definition RefTriplesTids : Type := list (RefTriple * list UUID).

(** The object that [unreifyTriplesTids] fills in property by property,
    starting from [{ '@id': ... }]. *)
Record PartialRefTriple : Type := {
  part_id : string;
  part_subject : option Term;
  part_predicate : option Term;
  part_object : option Term
}.

Definition complete (triple : RefTriple) : PartialRefTriple :=
  {| part_id := ref_id triple;
     part_subject := Some (ref_subject triple);
     part_predicate := Some (ref_predicate triple);
     part_object := Some (ref_object triple) |}.

Definition RDF_subject : string := "http://www.w3.org/1999/02/22-rdf-syntax-ns#subject".
Definition RDF_predicate : string := "http://www.w3.org/1999/02/22-rdf-syntax-ns#predicate".
Definition RDF_object : string := "http://www.w3.org/1999/02/22-rdf-syntax-ns#object".
Definition XS_string : string := "http://www.w3.org/2001/XMLSchema#string".
Definition M_LD_base : string := "http://m-ld.org/".
Definition M_LD_tid : string := M_LD_base +:+ "#tid".

(** The data factory [this.rdf]. *)
Definition quad (s p o : Term) : Triple :=
  {| subject := s; predicate := p; object := o |}.
Definition blankNode (label : string) : Term := BlankNode label.
Definition name (iri : string) : Term := NamedNode iri.
Definition literal (value : string) : Term := Literal value EmptyString XS_string.

(** [s.slice(n)] *)
Definition sliceFrom (n : nat) (s : string) : string :=
  substring n (String.length s - n) s.

Fixpoint mapResult {A B} (f : A → Result B) (l : list A) : Result (list B) :=
  match l with
  | [] => Ok []
  | a :: rest => b ← f a; bs ← mapResult f rest; Ok (b :: bs)
  end.

Fixpoint foldResult {A B} (f : B → A → Result B) (l : list A) (acc : B) : Result B :=
  match l with
  | [] => Ok acc
  | a :: rest => acc' ← f acc a; foldResult f rest acc'
  end.

(** The body of the [map] callback in [reifyTriplesTids]. *)
Definition reifyTripleTids (entry : RefTriple * list UUID) : Result (list Triple) :=
  let '(triple, tids) := entry in
  if negb (String.prefix "_:" (ref_id triple)) then
    Throw (TypeError ("Triple " +:+ ref_id triple +:+ " is not a blank node"))
  else
    let rid := blankNode (sliceFrom 2 (ref_id triple)) in
    Ok ([quad rid (name RDF_subject) (ref_subject triple);
         quad rid (name RDF_predicate) (ref_predicate triple);
         quad rid (name RDF_object) (ref_object triple)]
        ++ map (λ tid, quad rid (name M_LD_tid) (literal tid)) tids).

(** [flatten] of [./util]: the concatenation of an array of arrays. *)
Definition flatten {A} (arrays : list (list A)) : list A := List.concat arrays.

(** [MeldEncoder.reifyTriplesTids] *)
Definition reifyTriplesTids (triplesTids : RefTriplesTids) : Result (list Triple) :=
  flatten <$> mapResult reifyTripleTids triplesTids.

(** The body of the [reduce] callback in [unreifyTriplesTids]. *)
Definition unreifyStep (rids : JsObject.t (PartialRefTriple * list UUID))
    (reification : Triple)
  : Result (JsObject.t (PartialRefTriple * list UUID)) :=
  let rid := termValue (subject reification) in
  found ← match JsObject.get rids rid with
          | JsObject.Own entry => Ok entry
          | JsObject.Inherited => Throw (TypeError "rids[rid] is not iterable")
          | JsObject.Absent =>
              Ok ({| part_id := "_:" +:+ rid; part_subject := None;
                     part_predicate := None; part_object := None |}, [])
          end;
  let '(triple, tids) := found in
  let p := termValue (predicate reification) in
  let o := object reification in
  let updated :=
    if String.eqb p RDF_subject then
      (if isNamedNode o
       then {| part_id := part_id triple; part_subject := Some o;
               part_predicate := part_predicate triple;
               part_object := part_object triple |}
       else triple, tids)
    else if String.eqb p RDF_predicate then
      (if isNamedNode o
       then {| part_id := part_id triple; part_subject := part_subject triple;
               part_predicate := Some o; part_object := part_object triple |}
       else triple, tids)
    else if String.eqb p RDF_object then
      ({| part_id := part_id triple; part_subject := part_subject triple;
          part_predicate := part_predicate triple; part_object := Some o |}, tids)
    else if String.eqb p M_LD_tid then (triple, tids ++ [termValue o])
    else (triple, tids) in
  Ok (JsObject.set rids rid updated).

(** [MeldEncoder.unreifyTriplesTids] *)
Definition unreifyTriplesTids (reifications : list Triple)
  : Result (list (PartialRefTriple * list UUID)) :=
  JsObject.values <$> foldResult unreifyStep reifications [].

Definition label (triple : RefTriple) : string := sliceFrom 2 (ref_id triple).

Definition isBlank (triple : RefTriple) : bool := String.prefix "_:" (ref_id triple).

(** The reification of one identified triple with its TIDs. *)
Definition block (entry : RefTriple * list UUID) : list Triple :=
  let rid := blankNode (label entry.1) in
  [quad rid (name RDF_subject) (ref_subject entry.1);
   quad rid (name RDF_predicate) (ref_predicate entry.1);
   quad rid (name RDF_object) (ref_object entry.1)]
  ++ map (λ tid, quad rid (name M_LD_tid) (literal tid)) entry.2.

Definition unreified (entry : RefTriple * list UUID) : PartialRefTriple * list UUID :=
  (complete entry.1, entry.2).

(** What the round trip asks of one entry. *)
Definition reifiable (entry : RefTriple * list UUID) : Prop :=
  isBlank entry.1 = true
  ∧ (label entry.1 ∉ JsObject.prototypeKeys)
  ∧ isNamedNode (ref_subject entry.1) = true
  ∧ isNamedNode (ref_predicate entry.1) = true.

(** The object that reading back the blocks of [x] builds up. *)
Definition written (rids : JsObject.t (PartialRefTriple * list UUID))
    (x : RefTriplesTids) : JsObject.t (PartialRefTriple * list UUID) :=
  fold_left (λ o entry, JsObject.set o (label entry.1) (unreified entry)) x rids.

(** Example data: a triple about Fred under a given identifier. *)
Definition fredName (id : string) : RefTriple :=
  {| ref_id := id;
     ref_subject := NamedNode "http://test.m-ld.org/fred";
     ref_predicate := NamedNode "http://test.m-ld.org/#name";
     ref_object := literal "Fred" |}.

End Reification.

(* ===================================================================== *)
(** ** Clone initialisation ([src/dataset/DatasetClone.ts])               *)
(* ===================================================================== *)

Module DatasetClone.

(** What the clone is built on and treats as given: the tree clock with the
    causal test and join of the message service ([../clocks],
    [../messages]), and the payloads it passes along unread. *)
Class Collaborators : Type := {
  Time : Type;
  isId : Time → bool;
  join : Time → Time → Time;
  isNext : Time → Time → bool;
  Data : Type;
  Hash : Type;
  Entry : Type;
  SnapshotData : Type
}.

Section Clone.
Context `{Collaborators}.

(** A [DeltaMessage], or the message [{ time: snapshot.time }] that
    [requestSnapshot] makes up and later recognises by identity. *)
Inductive Message : Type :=
| SnapshotMsg (time : Time)
| Delta (time : Time) (data : Data).

Definition msgTime (msg : Message) : Time :=
  match msg with
  | SnapshotMsg time | Delta time _ => time
  end.

(** How an observable ends after its items. *)
Inductive Ending : Type :=
| Completes
| Fails (err : string)
| Never.

Record Stream : Type := {
  items : list Message;
  ending : Ending
}.

Record Snapshot : Type := {
  snap_time : Time;
  snap_data : SnapshotData;
  snap_lastHash : Hash;
  snap_updates : Stream
}.

(** The answers of the remotes and of the dataset during initialisation. *)
Record Remotes : Type := {
  newClock : Time;
  revupFrom : Hash → option Stream;
  snapshot : Snapshot
}.

Record Dataset : Type := {
  loadClock : option Time;
  lastHash : Hash;
  unsentLocalOperations : list Entry
}.

(** The calls the clone makes on its collaborators, in order. *)
Inductive Event : Type :=
| RemotesNewClock
| DatasetSaveClock (time : Time) (newClone : bool)
| UpdateSourceNext (entry : Entry)
| UpdatesSubscribed
| RemotesRevupFrom (hash : Hash)
| RemotesSnapshot
| ServiceReceive (msg : Message)
| ServiceDeliver (msg : Message)
| DatasetApply (msg : Message) (localTime : Time)
| DatasetApplySnapshot (snap : Snapshot) (localTime : Time)
| RevupLost (err : string)
| RemotesConnect.

(** The clone: the clock of its message service, its ordering buffer, and
    the calls made so far. *)
Record Clone : Type := {
  messageService : Time;
  orderingBuffer : list Message;
  events : list Event
}.

(** Procedures on the clone. *)
Definition Proc (A : Type) : Type := Clone → A * Clone.

Definition ret {A} (a : A) : Proc A := λ c, (a, c).
Definition bind {A B} (p : Proc A) (k : A → Proc B) : Proc B :=
  λ c, let '(a, c') := p c in k a c'.
Definition seq {B} (p : Proc unit) (q : Proc B) : Proc B := bind p (λ _, q).

Definition emit (e : Event) : Proc unit :=
  λ c, (tt, {| messageService := messageService c;
               orderingBuffer := orderingBuffer c;
               events := events c ++ [e] |}).

Fixpoint forEach {A} (l : list A) (f : A → Proc unit) : Proc unit :=
  match l with
  | [] => ret tt
  | a :: rest => seq (f a) (forEach rest f)
  end.

(** [get localTime]: [messageService.peek()] *)
Definition localTime (c : Clone) : Time := messageService c.

(** *** The message service *)

(** Modelled from the spec: [TreeClockMessageService] of [../messages],
    which is not part of the sources at hand.  "Join the clock with
    [msg.time]." *)
Definition joinTime (msg : Message) : Proc unit :=
  λ c, (tt, {| messageService := join (messageService c) (msgTime msg);
               orderingBuffer := orderingBuffer c;
               events := events c |}).

(** Modelled from the spec: the first of the buffered messages that is
    "now deliverable", taken out of the buffer. *)
Fixpoint pickNext (now : Time) (buffer : list Message)
  : option (Message * list Message) :=
  match buffer with
  | [] => None
  | msg :: rest =>
      if isNext now (msgTime msg) then Some (msg, rest)
      else match pickNext now rest with
           | Some (found, others) => Some (found, msg :: others)
           | None => None
           end
  end.

(** Modelled from the spec: "drain the buffer of any messages now
    deliverable", each joined and accepted in its turn. *)
Fixpoint drain (fuel : nat) (accept : Message → Proc unit) : Proc unit :=
  match fuel with
  | O => ret tt
  | S fuel' => λ c,
      match pickNext (messageService c) (orderingBuffer c) with
      | Some (msg, others) =>
          seq (joinTime msg) (seq (accept msg) (drain fuel' accept))
            {| messageService := messageService c;
               orderingBuffer := others;
               events := events c |}
      | None => (tt, c)
      end
  end.

(** Modelled from the spec: "join the clock with [msg.time], invoke
    [accept(msg)], then drain the buffer". *)
Definition deliverNow (msg : Message) (accept : Message → Proc unit) : Proc unit :=
  seq (joinTime msg)
      (seq (accept msg) (λ c, drain (length (orderingBuffer c)) accept c)).

(** Modelled from the spec: "[deliver(msg, buffer, accept)]: forcibly
    deliver (used for snapshot), then drain buffer." *)
Definition service_deliver (msg : Message) (accept : Message → Proc unit)
  : Proc unit :=
  seq (emit (ServiceDeliver msg)) (deliverNow msg accept).

(** Modelled from the spec: "[receive(msg, buffer, accept)]: tests whether
    [msg.time] is the causal successor of the current clock w.r.t. the
    sender's identity: if yes, join the clock with [msg.time], invoke
    [accept(msg)], then drain the buffer of any messages now deliverable; if
    not, push [msg] into [buffer]." *)
Definition service_receive (msg : Message) (accept : Message → Proc unit)
  : Proc unit :=
  seq (emit (ServiceReceive msg))
      (λ c, if isNext (messageService c) (msgTime msg)
            then deliverNow msg accept c
            else (tt, {| messageService := messageService c;
                         orderingBuffer := orderingBuffer c ++ [msg];
                         events := events c |})).

(** *** The clone *)

(** [this.dataset.apply(acceptedMsg.data, this.localTime)] *)
Definition dataset_apply (acceptedMsg : Message) : Proc unit :=
  λ c, emit (DatasetApply acceptedMsg (localTime c)) c.

(** [updateReceiver.next] *)
Definition updateReceiver_next (delta : Message) : Proc unit :=
  service_receive delta dataset_apply.

(** [revupLost]: the error of a rev-up stream is logged and swallowed. *)
Definition revupLost (err : string) : Proc unit := emit (RevupLost err).

(** [stream.subscribe(remoteRevups)]: the items reach [updateReceiver]
    through the merged subscription; an error ends in [revupLost]. *)
Definition subscribeRevups (stream : Stream) : Proc unit :=
  seq (forEach (items stream) updateReceiver_next)
      match ending stream with
      | Fails err => revupLost err
      | Completes | Never => ret tt
      end.

(** [DatasetClone.requestSnapshot] *)
Definition requestSnapshot (remotes : Remotes) : Proc unit :=
  seq (emit RemotesSnapshot)
      (let snap := snapshot remotes in
       let snapshotMsg := SnapshotMsg (snap_time snap) in
       seq (service_deliver snapshotMsg
              (λ acceptedMsg,
                 match acceptedMsg with
                 | SnapshotMsg _ =>
                     λ c, emit (DatasetApplySnapshot snap (localTime c)) c
                 | Delta _ _ => dataset_apply acceptedMsg
                 end))
           (subscribeRevups (snap_updates snap))).

(** The part of [initialise] that follows the creation of the message
    service. *)
Definition initialised (dataset : Dataset) (remotes : Remotes)
    (time : Time) (newClone : bool) : Proc unit :=
  seq (forEach (unsentLocalOperations dataset) (λ entry, emit (UpdateSourceNext entry)))
      (seq (if isId time then emit UpdatesSubscribed
            else
              seq (emit UpdatesSubscribed)
                  (if newClone then requestSnapshot remotes
                   else
                     seq (emit (RemotesRevupFrom (lastHash dataset)))
                         match revupFrom remotes (lastHash dataset) with
                         | Some revup => subscribeRevups revup
                         | None => requestSnapshot remotes
                         end))
           (emit RemotesConnect)).

(** [DatasetClone.initialise] *)
Definition initialise (dataset : Dataset) (remotes : Remotes) : Clone :=
  match loadClock dataset with
  | Some time =>
      (initialised dataset remotes time false
         {| messageService := time; orderingBuffer := []; events := [] |}).2
  | None =>
      let time := newClock remotes in
      (initialised dataset remotes time true
         {| messageService := time; orderingBuffer := [];
            events := [RemotesNewClock; DatasetSaveClock time true] |}).2
  end.

(** Events by kind. *)
Definition isReceive (e : Event) : option Message :=
  match e with
  | ServiceReceive msg => Some msg
  | _ => None
  end.

Definition isSnapshotRequest (e : Event) : bool :=
  match e with
  | RemotesSnapshot => true
  | _ => false
  end.

(** The events of receiving: calls of the message service and of
    [dataset.apply], and a lost rev-up. *)
Definition isReceiving (e : Event) : bool :=
  match e with
  | ServiceReceive _ | DatasetApply _ _ | RevupLost _ => true
  | _ => false
  end.

(** A procedure that only adds events of receiving, none of them a call of
    [receive] itself. *)
Definition applies (p : Proc unit) : Prop :=
  ∀ c, ∃ added,
    events (p c).2 = events c ++ added
    ∧ omap isReceive added = []
    ∧ forallb isReceiving added = true.

End Clone.

End DatasetClone.

(* ===================================================================== *)
(** ** Reference collaborators for the clone                              *)
(* ===================================================================== *)

(** An executable instance of [DatasetClone.Collaborators]: tree clocks, JSON
    payloads and textual hashes; a clone restarted on the left half of the
    genesis clock, and a peer on the right half that has made two
    operations since. *)
Module RefClone.
Import Js DatasetClone.

#[global] Instance collaborators : Collaborators := {|
  Time := TreeClockModel.TreeClock;
  isId := TreeClockModel.isId;
  join := TreeClockModel.update;
  isNext := TreeClockModel.isNext;
  Data := Json;
  Hash := string;
  Entry := Json;
  SnapshotData := list Json
|}.

Definition cloneTime : TreeClockModel.TreeClock :=
  (TreeClockModel.forked TreeClockModel.GENESIS).1.

Definition peerTime (n : Z) : TreeClockModel.TreeClock :=
  TreeClockModel.ticked (TreeClockModel.forked TreeClockModel.GENESIS).2 n.

Definition insertOf (n : Z) (subject : string) : Message :=
  Delta (peerTime n) (JObject [("@id", JString subject)]).

Definition restarted : Dataset :=
  {| loadClock := Some cloneTime;
     lastHash := TreeClockModel.hash cloneTime;
     unsentLocalOperations := [] |}.

Definition peerSnapshot : Snapshot :=
  {| snap_time := peerTime 2;
     snap_data := [JObject [("@id", JString "fred")]];
     snap_lastHash := TreeClockModel.hash (peerTime 2);
     snap_updates := {| items := [insertOf 3 "wilma"]; ending := Completes |} |}.

(** A peer that can rev the clone up, and one that cannot. *)
Definition capablePeer : Remotes :=
  {| newClock := cloneTime;
     revupFrom := λ _, Some {| items := [insertOf 1 "fred"; insertOf 2 "barney"];
                               ending := Completes |};
     snapshot := peerSnapshot |}.

Definition incapablePeer : Remotes :=
  {| newClock := cloneTime;
     revupFrom := λ _, None;
     snapshot := peerSnapshot |}.

End RefClone.

(* ===================================================================== *)
(** ** The SU-Set dataset                                                 *)
(* ===================================================================== *)

Module SuSet.
Import Js.

(** Modelled from the spec: the TIDs of the SU-Set dataset
    ([src/engine/dataset/SuSetDataset.ts], of which only the tests are among
    the sources at hand; the definitions of this module follow sections 3
    and 4.4 of the specification, for a dataset without constraints, as in
    the basic configuration of the tests).  "TID: hash of a tree clock value
    at the moment of the transaction": a TID stands for the process and the
    tick that the hashed clock identifies. *)
Record Tid : Type := {
  tid_process : string;
  tid_tick : Z
}.

#[global] Instance Tid_eq_dec : EqDecision Tid.
Proof. solve_decision. Defined.

#[global] Instance Tid_countable : Countable Tid.
Proof.
  apply (inj_countable' (λ tid, (tid_process tid, tid_tick tid))
           (λ p, {| tid_process := p.1; tid_tick := p.2 |})).
  by intros [].
Defined.

(** Modelled from the spec: the tree clock, kept as what the tree denotes:
    the identity of its owner and the ticks seen of each process. *)
Record Time : Type := {
  owner : string;
  seen : gmap string Z
}.

(** Modelled from the spec: the ticks known of a process, zero when it is
    not known. *)
Definition ticksOf (known : gmap string Z) (process : string) : Z :=
  default 0%Z (known !! process).

(** Modelled from the spec: "[ticks]: sum of counters along the path from
    root to id-leaf." *)
Definition ticks (t : Time) : Z := ticksOf (seen t) (owner t).

(** Modelled from the spec: "[ticked()]: new clock with the id-leaf
    incremented by 1." *)
Definition ticked (t : Time) : Time :=
  {| owner := owner t; seen := <[owner t := (ticks t + 1)%Z]> (seen t) |}.

(** Modelled from the spec: "[update(other)]: takes component-wise maximum
    against another clock at each shared node; id remains the caller's." *)
Definition update (t other : Time) : Time :=
  {| owner := owner t;
     seen := union_with (λ n m, Some (Z.max n m)) (seen t) (seen other) |}.

(** Modelled from the spec: "[hash() -> TID]". *)
Definition hash (t : Time) : Tid :=
  {| tid_process := owner t; tid_tick := ticks t |}.

(** Modelled from the spec: a triple, as subject, predicate and object. *)
Definition Triple : Type := string * string * string.

(** Modelled from the spec: "Operation. A tuple [(version, from, time,
    deletes, inserts)]"; deletes and inserts are kept reified, each triple
    with a TID. *)
Record Operation : Type := {
  op_from : Z;
  op_time : Time;
  op_deletes : list (Triple * Tid);
  op_inserts : list (Triple * Tid)
}.

(** Modelled from the spec: "Journal entry": the previous tick of the
    operation's process, and the operation. *)
Record Entry : Type := {
  entry_prev : Z;
  entry_operation : Operation
}.

(** Modelled from the spec: the update that subscribers are told of. *)
Record Update : Type := {
  update_delete : list Triple;
  update_insert : list Triple;
  update_ticks : Z
}.

(** Modelled from the spec: the dataset.  "SU-Set triple storage. Each
    asserted triple is stored together with the set of TIDs that asserted
    it"; "Journal state. [(tailTick, time, gwc)]"; the updates emitted and
    the operations published so far; the configured size limit. *)
Record Dataset : Type := {
  graph : gmap Triple (gset Tid);
  journal : list Entry;
  gwc : gmap string Z;
  time : Time;
  emitted : list Update;
  published : list Operation;
  maxOperationSize : option nat
}.

(** Modelled from the spec: the set of TIDs that assert a triple. *)
Definition tidsOf (g : gmap Triple (gset Tid)) (triple : Triple) : gset Tid :=
  default ∅ (g !! triple).

(** Modelled from the spec: "A triple is present iff its TID set is
    non-empty." *)
Definition present (g : gmap Triple (gset Tid)) (triple : Triple) : bool :=
  bool_decide (tidsOf g triple ≠ ∅).

(** Modelled from the spec: "Withdraw TIDs ... from their triples; delete
    triples whose TID sets become empty." *)
Definition withdraw (g : gmap Triple (gset Tid)) (reified : Triple * Tid)
  : gmap Triple (gset Tid) :=
  let remaining := tidsOf g reified.1 ∖ {[reified.2]} in
  if decide (remaining = ∅) then delete reified.1 g
  else <[reified.1 := remaining]> g.

(** Modelled from the spec: "Add TIDs ... to their triples; insert triples
    as needed." *)
Definition assertTid (g : gmap Triple (gset Tid)) (reified : Triple * Tid)
  : gmap Triple (gset Tid) :=
  <[reified.1 := tidsOf g reified.1 ∪ {[reified.2]}]> g.

(** Modelled from the spec: the graph after the deletes, then the inserts,
    of an operation. *)
Definition patched (g : gmap Triple (gset Tid))
    (deletes inserts : list (Triple * Tid)) : gmap Triple (gset Tid) :=
  fold_left assertTid inserts (fold_left withdraw deletes g).

(** Modelled from the spec: the GWC, "a mapping from process identity to its
    last-seen tick", answering "do I already have this TID". *)
Definition reflected (gwc : gmap string Z) (tid : Tid) : bool :=
  bool_decide (tid_tick tid ≤ ticksOf gwc (tid_process tid))%Z.

(** Modelled from the spec: an "empty operation", without deletes and
    without inserts. *)
Definition isEmpty (op : Operation) : bool :=
  match op_deletes op, op_inserts op with
  | [], [] => true
  | _, _ => false
  end.

(** Modelled from the spec: the update emitted for an operation. *)
Definition updateOf (op : Operation) (localTicks : Z) : Update :=
  {| update_delete := remove_dups (op_deletes op).*1;
     update_insert := remove_dups (op_inserts op).*1;
     update_ticks := localTicks |}.

(** Modelled from the spec: the dataset after an operation has been
    committed at local time [now]: the graph patched, "new journal entry
    referencing [op]", the GWC merged with the operation's time, and the
    update emitted. *)
Definition committed (d : Dataset) (op : Operation) (now : Time) : Dataset :=
  let source := owner (op_time op) in
  {| graph := patched (graph d) (op_deletes op) (op_inserts op);
     journal := journal d ++ [{| entry_prev := ticksOf (gwc d) source;
                                 entry_operation := op |}];
     gwc := <[source := ticks (op_time op)]> (gwc d);
     time := now;
     emitted := emitted d ++ [updateOf op (ticks now)];
     published := published d;
     maxOperationSize := maxOperationSize d |}.

(** Modelled from the spec: the dataset with its clock moved to [now] and
    nothing else changed. *)
Definition withTime (d : Dataset) (now : Time) : Dataset :=
  {| graph := graph d; journal := journal d; gwc := gwc d; time := now;
     emitted := emitted d; published := published d;
     maxOperationSize := maxOperationSize d |}.

(** *** Write (local transaction) *)

(** Modelled from the spec: "a user patch [{delete: pattern, insert:
    pattern}]", its patterns given as the triples they stand for. *)
Record Patch : Type := {
  patch_delete : list Triple;
  patch_insert : list Triple
}.

(** Modelled from the spec: step 1, "Resolve delete against the current
    graph to concrete triples-with-TIDs." *)
Definition resolved (g : gmap Triple (gset Tid)) (triples : list Triple)
  : list (Triple * Tid) :=
  flat_map (λ triple, map (pair triple) (elements (tidsOf g triple))) triples.

(** Modelled from the spec: steps 2 to 6, the operation "[(version,
    from=t.ticks, time=t, deletes: reified withdrawn TIDs, inserts: new
    triples)]" of a transaction at the ticked time [now]. *)
Definition written (d : Dataset) (now : Time) (patch : Patch) : Operation :=
  {| op_from := ticks now;
     op_time := now;
     op_deletes := resolved (graph d) (patch_delete patch);
     op_inserts := map (λ triple, (triple, hash now)) (patch_insert patch) |}.

Section Transactions.
(** The size in bytes of an encoded operation. *)
Variable encodedSize : Operation → nat.

(** Modelled from the spec: "the encoded operation exceeds the configured
    byte limit"; "[maxOperationSize] (bytes, default infinity)". *)
Definition exceeds (limit : option nat) (op : Operation) : bool :=
  match limit with
  | Some bytes => (bytes <? encodedSize op)%nat
  | None => false
  end.

(** Modelled from the spec: the operation that a transaction encodes;
    "empty operation is a no-op", for which there is none. *)
Definition encoded (d : Dataset) (patch : Patch) : option Operation :=
  let op := written d (ticked (time d)) patch in
  if isEmpty op then None else Some op.

(** Modelled from the spec: "Write (local transaction)", giving the message
    to publish, if any, and the dataset afterwards.  "Enforce
    [maxOperationSize]: if the encoded operation exceeds the configured byte
    limit, abort with [OperationSizeExceeded] and leave the store
    unchanged"; otherwise "commit to journal and emit to publisher". *)
Definition transact (d : Dataset) (patch : Patch)
  : Result (option Operation) * Dataset :=
  match encoded d patch with
  | None => (Ok None, d)
  | Some op =>
      if exceeds (maxOperationSize d) op
      then (Throw (MeldError "OperationSizeExceeded" "Operation size exceeded"), d)
      else
        let d' := committed d op (op_time op) in
        (Ok (Some op),
         {| graph := graph d'; journal := journal d'; gwc := gwc d';
            time := time d'; emitted := emitted d';
            published := published d ++ [op];
            maxOperationSize := maxOperationSize d' |})
  end.

(** *** Apply (remote operation) *)

(** Modelled from the spec: "Stale-cut on fused operations ... withdraw from
    the incoming inserts any reified triples whose TID is already reflected
    in the GWC; retain the tail." *)
Definition cut (gwc : gmap string Z) (op : Operation) : Operation :=
  let seenTicks := ticksOf gwc (owner (op_time op)) in
  {| op_from := Z.max (op_from op) (seenTicks + 1);
     op_time := op_time op;
     op_deletes := op_deletes op;
     op_inserts := filter (λ reified, reflected gwc reified.2 = false) (op_inserts op) |}.

(** Modelled from the spec: step 1, "duplicate detection via GWC": the
    operation is a duplicate when the GWC reflects the last tick of its
    range, and so all of it. *)
Definition isDuplicate (gwc : gmap string Z) (op : Operation) : bool :=
  bool_decide (ticks (op_time op) ≤ ticksOf gwc (owner (op_time op)))%Z.

(** Modelled from the spec: "Apply (remote operation)", giving the message
    to publish, if any, and the dataset afterwards; without constraints no
    message results.  "Join the local clock with [t_op]; tick once per
    applied operation"; "no-op apply: ... no entry, no update emission, but
    local time is joined". *)
Definition apply (d : Dataset) (op : Operation) : option Operation * Dataset :=
  let now := ticked (update (time d) (op_time op)) in
  if isEmpty op then (None, withTime d now)
  else if isDuplicate (gwc d) op then (None, d)
  else
    let applied := cut (gwc d) op in
    if isEmpty applied then (None, withTime d now)
    else (None, committed d applied now).

End Transactions.

End SuSet.

(* ===================================================================== *)
(** ** Sample SU-Set data                                                 *)
(* ===================================================================== *)

(** The data of the dataset tests: three subjects, a local clone, a remote
    clone and a third one, and the operations of the stale-cut scenario. *)
Module SuSetSample.
Import Js SuSet.

Definition fred : Triple :=
  ("http://test.m-ld.org/fred", "http://test.m-ld.org/#name", "Fred").
Definition wilma : Triple :=
  ("http://test.m-ld.org/wilma", "http://test.m-ld.org/#name", "Wilma").
Definition barney : Triple :=
  ("http://test.m-ld.org/barney", "http://test.m-ld.org/#name", "Barney").

Definition clock (process : string) (known : list (string * Z)) : Time :=
  {| owner := process; seen := list_to_map known |}.

Definition tidText (tid : Tid) : string :=
  tid_process tid +:+ ":" +:+ decimal (tid_tick tid).

(** "Reified deletes are objects [{tid, s, p, o}]." *)
Definition reifiedJson (reified : Triple * Tid) : Json :=
  JObject [("tid", JString (tidText reified.2)); ("s", JString reified.1.1.1);
           ("p", JString reified.1.1.2); ("o", JString reified.1.2)].

Definition timeJson (t : Time) : Json :=
  JObject (("@id", JString (owner t))
           :: map (λ known, (known.1, JNumber known.2)) (map_to_list (seen t))).

(** "Encoded operation wire format. A 5-tuple [[2, from, time, deletes,
    inserts]]." *)
Definition operationJson (op : Operation) : Json :=
  JArray [JNumber 2; JNumber (op_from op); timeJson (op_time op);
          JArray (map reifiedJson (op_deletes op));
          JArray (map reifiedJson (op_inserts op))].

Definition packedSize (op : Operation) : nat :=
  length (RefCodec.pack (operationJson op)).

(** A dataset with its clock reset to the first tick of the local clone. *)
Definition started (limit : option nat) : Dataset :=
  {| graph := ∅; journal := []; gwc := ∅;
     time := clock "local" [("local", 1%Z)];
     emitted := []; published := []; maxOperationSize := limit |}.

Definition insertFred : Patch := {| patch_delete := []; patch_insert := [fred] |}.
Definition nothing : Patch := {| patch_delete := [wilma]; patch_insert := [] |}.

(** The remote inserts Wilma at its first tick. *)
Definition one : Operation :=
  {| op_from := 1; op_time := clock "remote" [("remote", 1%Z)];
     op_deletes := [];
     op_inserts := [(wilma, {| tid_process := "remote"; tid_tick := 1 |})] |}.

(** A third clone, having seen that, deletes Wilma. *)
Definition thirdDeletes : Operation :=
  {| op_from := 1; op_time := clock "third" [("third", 1%Z); ("remote", 1%Z)];
     op_deletes := [(wilma, {| tid_process := "remote"; tid_tick := 1 |})];
     op_inserts := [] |}.

(** The remote's fusion of its first two ticks: Wilma again, and Barney. *)
Definition fusion : Operation :=
  {| op_from := 1; op_time := clock "remote" [("remote", 2%Z)];
     op_deletes := [];
     op_inserts := [(wilma, {| tid_process := "remote"; tid_tick := 1 |});
                    (barney, {| tid_process := "remote"; tid_tick := 2 |})] |}.

Definition noop : Operation :=
  {| op_from := 1; op_time := clock "remote" [("remote", 1%Z)];
     op_deletes := []; op_inserts := [] |}.

Definition withFred : Dataset := (transact packedSize (started None) insertFred).2.
Definition afterOne : Dataset := (apply withFred one).2.
Definition afterThird : Dataset := (apply afterOne thirdDeletes).2.
Definition afterFusion : Dataset := (apply afterThird fusion).2.

End SuSetSample.

(* ===================================================================== *)
(** ** The m-ld vocabulary ([src/ns/m-ld.ts])                             *)
(* ===================================================================== *)

Module MLd.

(** [$base] *)
Definition base : string := "http://m-ld.org/".

Definition rdflseq : string := base +:+ "RdfLseq".

Definition rdflseqPosIdPre : string := rdflseq +:+ "/?=".

(** [matchRdflseqPosId]: [undefined] unless the predicate starts with the
    prefix of list position identifiers. *)
Definition matchRdflseqPosId (predicate : string) : option string :=
  if String.prefix rdflseqPosIdPre predicate
  then Some (Reification.sliceFrom (String.length rdflseqPosIdPre) predicate)
  else None.

Definition rdflseqPosId (lseqPosId : string) : string :=
  rdflseqPosIdPre +:+ lseqPosId.

End MLd.

(* ===================================================================== *)
(** ** Utilities ([src/util.ts])                                          *)
(* ===================================================================== *)

Module Util.

(** The argument of [array]: a missing value ([null] or [undefined]), a
    single value, or an array, whose elements can be missing in turn. *)
Inductive Arg (T : Type) : Type :=
| Missing
| Single (v : T)
| Several (vs : list (option T)).
Arguments Missing {T}.
Arguments Single {T} v.
Arguments Several {T} vs.

(** [([] as T[]).concat(value)] *)
Definition concatInto {T} (value : Arg T) : list (option T) :=
  match value with
  | Missing => [None]
  | Single v => [Some v]
  | Several vs => vs
  end.

(** [array] *)
Definition array {T} (value : Arg T) : list T :=
  match value with
  | Missing => []
  | _ => omap id (concatInto value)
  end.

(** [ToInt32], the conversion that the bit operators apply to their
    operands and results. *)
Definition toInt32 (x : Z) : Z :=
  let m := (x mod 2 ^ 32)%Z in
  if (m <? 2 ^ 31)%Z then m else (m - 2 ^ 32)%Z.

(** [char.charCodeAt(0)] for an element of [Array.from(spec)], which holds
    one code point: the code point itself in the basic plane, its high
    surrogate above. *)
Definition charCodeAt0 (codePoint : Z) : Z :=
  if (codePoint <? 65536)%Z then codePoint
  else (55296 + (codePoint - 65536) / 1024)%Z.

(** The reducer of [shortId]:
    [hash = ((hash << 5) - hash) + char.charCodeAt(0); return hash & hash]. *)
Definition hashStep (hash : Z) (char : Z) : Z :=
  let hash := (toInt32 (Z.shiftl (toInt32 hash) 5) - hash + charCodeAt0 char)%Z in
  Z.land (toInt32 hash) (toInt32 hash).

(** [n.toString(radix)] for a non-negative integer, one digit per unit of
    fuel. *)
Fixpoint toStringRadix (radix : N) (fuel : nat) (n : N) (acc : string) : string :=
  match fuel with
  | O => acc
  | S fuel' =>
      let acc' := String (TickKey.digitChar (n mod radix)) acc in
      if (n / radix =? 0)%N then acc'
      else toStringRadix radix fuel' (n / radix) acc'
  end.

Definition toString16 (n : N) : string :=
  toStringRadix 16 (S (N.to_nat (N.log2 n))) n EmptyString.

(** [shortId(spec)] for a string [spec], given by its code points. *)
Definition shortId (spec : list Z) : string :=
  let hashCode := toString16 (Z.to_N (Z.abs (fold_left hashStep spec 0%Z))) in
  match hashCode with
  | EmptyString => String (ascii_of_N 0) EmptyString
  | String c rest =>
      if (N_of_ascii c <=? 57)%N
      then String (ascii_of_N (N_of_ascii c + 49)) rest
      else hashCode
  end.

(** Characters by kind. *)
Definition isHexDigit (c : ascii) : bool :=
  let n := N_of_ascii c in
  ((48 <=? n) && (n <=? 57) || (97 <=? n) && (n <=? 102))%N.

Definition isLetterAtoJ (c : ascii) : bool :=
  let n := N_of_ascii c in ((97 <=? n) && (n <=? 106))%N.

Fixpoint allChars (P : ascii → bool) (s : string) : bool :=
  match s with
  | EmptyString => true
  | String c rest => P c && allChars P rest
  end.

End Util.

(* ===================================================================== *)
(** ** Triples and quads as index keys ([src/engine/quads.ts])            *)
(* ===================================================================== *)

Module Quads.
Import Js Reification.

(** [term.termType] *)
Definition termType (term : Term) : string :=
  match term with
  | NamedNode _ => "NamedNode"
  | BlankNode _ => "BlankNode"
  | Literal _ _ _ => "Literal"
  | VariableTerm _ => "Variable"
  end.

(** [tripleKey]: the strings that the generator yields, in order. *)
Definition tripleKey (triple : Triple) : list string :=
  match object triple with
  | Literal value language datatype =>
      [termValue (subject triple); termValue (predicate triple);
       termType (object triple); value; datatype; language]
  | o =>
      [termValue (subject triple); termValue (predicate triple);
       termType o; termValue o]
  end.

(** [parts.join('^')] *)
Definition joinCaret (parts : list string) : string := String.concat "^" parts.

(** A triple object together with the key that [tripleIndexKey] caches on
    it as [_tik]. *)
Record Indexed : Type := {
  triple : Triple;
  _tik : option string
}.

(** [tripleIndexKey]: the key, and the object with the key cached. *)
Definition tripleIndexKey (tik : Indexed) : string * Indexed :=
  match _tik tik with
  | Some key => (key, tik)
  | None =>
      let key := joinCaret (tripleKey (triple tik)) in
      (key, {| triple := triple tik; _tik := Some key |})
  end.

(** The graph of a quad: the default graph has the empty string as value. *)
Inductive Graph : Type :=
| DefaultGraph
| GraphTerm (term : Term).

Definition graphValue (g : Graph) : string :=
  match g with
  | DefaultGraph => EmptyString
  | GraphTerm term => termValue term
  end.

(** A quad object: a triple object with a graph and the cached [_qik]. *)
Record IndexedQuad : Type := {
  asTriple : Indexed;
  graph : Graph;
  _qik : option string
}.

(** [quadIndexKey] *)
Definition quadIndexKey (qik : IndexedQuad) : string * IndexedQuad :=
  match _qik qik with
  | Some key => (key, qik)
  | None =>
      let '(tik, cached) := tripleIndexKey (asTriple qik) in
      let key := graphValue (graph qik) +:+ "^" +:+ tik in
      (key, {| asTriple := cached; graph := graph qik; _qik := Some key |})
  end.

Inductive TriplePos : Type :=
| SubjectPos
| PredicatePos
| ObjectPos.

Definition posName (pos : TriplePos) : string :=
  match pos with
  | SubjectPos => "subject"
  | PredicatePos => "predicate"
  | ObjectPos => "object"
  end.

Definition isLiteral (term : Term) : bool :=
  match term with
  | Literal _ _ _ => true
  | _ => false
  end.

Definition isBlankNode (term : Term) : bool :=
  match term with
  | BlankNode _ => true
  | _ => false
  end.

(** [canPosition] *)
Definition canPosition (pos : TriplePos) (value : option Term) : bool :=
  match value with
  | None => false
  | Some value =>
      if match pos with SubjectPos | PredicatePos => true | ObjectPos => false end
         && isLiteral value
      then false
      else negb (match pos with PredicatePos => true | _ => false end
                 && isBlankNode value)
  end.

Section Positions.
(** How a term object renders in a template string; terms come from the
    data factory, which is not part of the sources. *)
Variable termToString : Term → string.

(** [inPosition] *)
Definition inPosition (pos : TriplePos) (value : option Term) : Result Term :=
  match value with
  | Some term =>
      if canPosition pos value then Ok term
      else Throw (Error (termToString term +:+ " cannot be used in "
                         +:+ posName pos +:+ " position"))
  | None =>
      Throw (Error ("undefined cannot be used in " +:+ posName pos +:+ " position"))
  end.

End Positions.

(** A string without the separator of index keys. *)
Definition caretFree (s : string) : bool :=
  Util.allChars (λ c, negb (Ascii.eqb c "^"%char)) s.

(** A triple whose key can be taken apart again: no separator in the
    values of subject and predicate, nor in the datatype and language of a
    literal object. *)
Definition keyable (t : Triple) : Prop :=
  caretFree (termValue (subject t)) = true
  ∧ caretFree (termValue (predicate t)) = true
  ∧ match object t with
    | Literal _ language datatype =>
        caretFree language = true ∧ caretFree datatype = true
    | _ => True
    end.

End Quads.

(* ===================================================================== *)
(** ** Writing and iterating the journal
       ([src/engine/journal/index.ts], [src/engine/journal/JournalEntry.ts]) *)
(* ===================================================================== *)

Module JournalWrites.
Import Js Journal.

Definition TICK_KEY_MIN : string := "_qs:tick:!".
Definition TICK_KEY_MAX : string := "_qs:tick:~".

(** The keys that a range read between [TICK_KEY_MIN] and [TICK_KEY_MAX]
    can return. *)
Definition inTickRange (key : string) : Prop :=
  TickKey.str_lt TICK_KEY_MIN key ∧ TickKey.str_lt key TICK_KEY_MAX.

(** [EntryIndex] *)
Record EntryIndex : Type := {
  index_key : string;
  index_tid : string
}.

(** The key that a write of a batch is made under. *)
Definition writeKey (w : BatchOp) : string :=
  match w with
  | Put key _ | Del key => key
  end.

(** [MsgPack.encode] of what the journal stores, at the types at which
    [Engine] reads it back; [packState] is the encoding of
    [journal.json]. *)
Class Packing `{Engine} : Type := {
  packEntry : JournalEntryJson → Buffer;
  packOperation : EncodedOperation → Buffer;
  packState : JournalState → Buffer
}.

Section Writes.
Context `{Packing}.

(** What [./JournalOperation], which is not among the sources, gives a
    stored operation besides [tid] and [json]: the encoded operation that
    [commitOperation] writes, and the writes of its [commit]. *)
Variable operationOf : JournalOperation → EncodedOperation.
Variable operation_commit : JournalOperation → Kvps.

(** The range read of the store ([../dataset], not among the sources):
    [read({ gt, lt, limit: 1 })] reduced to its first pair, if any. *)
Variable read : gmap string Buffer → string → string → option (string * Buffer).

(** [JournalEntry] *)
Record JournalEntry : Type := {
  entry_key : string;
  entry_prev : TickTid;
  entry_operation : JournalOperation
}.

(** [JournalEntry.fromJson] *)
Definition JournalEntry_fromJson (j : Journal) (key : string)
    (json : JournalEntryJson) : Result JournalEntry :=
  let '(prev, tid) := json in
  operation ← operation_require j tid;
  Ok {| entry_key := key; entry_prev := prev; entry_operation := operation |}.

(** [JournalEntry.index] *)
Definition JournalEntry_index (entry : JournalEntry) : EntryIndex :=
  {| index_key := entry_key entry; index_tid := tid (entry_operation entry) |}.

(** [JournalEntry.json] *)
Definition JournalEntry_json (entry : JournalEntry) : JournalEntryJson :=
  (entry_prev entry, tid (entry_operation entry)).

(** [Journal.initialised] *)
Definition initialised (j : Journal) : bool :=
  bool_decide (is_Some (store j !! JOURNAL_KEY)).

(** [Journal.saveState]: the writes of the returned batch function, and
    the journal object once that function has run. *)
Definition saveState (j : Journal) (journal : JournalState) : Kvps * Journal :=
  ([Put JOURNAL_KEY (packState journal)],
   {| store := store j; _state := Some journal |}).

(** The journal object once a batch has been committed to its store. *)
Definition committed (j : Journal) (batch : Kvps) : Journal :=
  {| store := commitBatch (store j) batch; _state := _state j |}.

(** [Journal.entryAfter]; [key] is a tick, a tick key, or left out. *)
Inductive TickOrKey : Type :=
| Tick (tick : N)
| Key (key : string).

Definition entryAfter (j : Journal) (key : option TickOrKey)
  : Result (option JournalEntry * Journal) :=
  withLockedHistory j (λ j,
    let gt := match key with
              | None => TICK_KEY_MIN
              | Some (Tick tick) => TickKey.tickKey tick
              | Some (Key key) => key
              end in
    match read (store j) gt TICK_KEY_MAX with
    | Some (foundKey, value) =>
        entry ← JournalEntry_fromJson j foundKey (unpackEntry value);
        Ok ({| kvps := []; returns := Some entry |}, j)
    | None => Ok ({| kvps := []; returns := None |}, j)
    end).

(** [JournalEntry.next] *)
Definition JournalEntry_next (j : Journal) (entry : JournalEntry)
  : Result (option JournalEntry * Journal) :=
  entryAfter j (Some (Key (entry_key entry))).

(** [Journal.commitEntry]: the writes of the returned batch function, and
    the entries that it passes to the subscribers of [tail]. *)
Definition commitEntry (entry : JournalEntry) (isTail : bool)
  : Kvps * list JournalEntry :=
  let encoded := packEntry (JournalEntry_json entry) in
  ([Put (entry_key entry) encoded;
    Put (tidEntryKey (tid (entry_operation entry))) encoded]
   ++ operation_commit (entry_operation entry),
   if isTail then [entry] else []).

(** The writes of the loop over [remove] in [spliceEntries]. *)
Definition removals (remove : list EntryIndex) : Kvps :=
  flat_map (λ index, [Del (index_key index);
                      Del (tidEntryKey (index_tid index));
                      Del (tidOpKey (index_tid index))]) remove.

(** [Journal.spliceEntries]: the journal afterwards, and the entries
    passed to the subscribers of [tail]. *)
Definition spliceEntries (j : Journal) (remove : list EntryIndex)
    (insert : option JournalEntry) : Result (Journal * list JournalEntry) :=
  let '(inserted, tailed) :=
    match insert with
    | Some entry => commitEntry entry false
    | None => ([], [])
    end in
  '(_, j') ← withLockedHistory j (λ j,
    Ok ({| kvps := removals remove ++ inserted; returns := tt |}, j));
  Ok (j', tailed).

(** [Journal.commitOperation] *)
Definition commitOperation (op : JournalOperation) : Kvps :=
  [Put (tidOpKey (tid op)) (packOperation (operationOf op))].

(** What the range read is taken to return: the pair with the least key
    strictly between the bounds, in the order of the keys. *)
Definition firstBetween (store : gmap string Buffer) (gt lt : string)
    (found : option (string * Buffer)) : Prop :=
  match found with
  | Some (key, value) =>
      store !! key = Some value
      ∧ TickKey.str_lt gt key ∧ TickKey.str_lt key lt
      ∧ ∀ other, is_Some (store !! other) →
                 TickKey.str_lt gt other → TickKey.str_lt other lt →
                 ¬ TickKey.str_lt other key
  | None =>
      ∀ other, is_Some (store !! other) →
               ¬ (TickKey.str_lt gt other ∧ TickKey.str_lt other lt)
  end.

(** A store whose records in the range of tick keys are all keyed by
    [tickKey] of a tick below [36^8]. *)
Definition tickIndexed (store : gmap string Buffer) : Prop :=
  ∀ key, is_Some (store !! key) → inTickRange key →
         ∃ tick, (tick < 36 ^ 8)%N ∧ key = TickKey.tickKey tick.

End Writes.

End JournalWrites.

(* ===================================================================== *)
(** ** Reference collaborators for writing the journal                    *)
(* ===================================================================== *)

(** An executable instance of [JournalWrites.Packing] over the reference
    engine, a store read that scans the records for the least key in range,
    and an operation whose [commit] is [commitOperation]. *)
Module RefJournal.
Import Js Journal JournalWrites RefEngine.

#[global] Instance packing : Packing := {|
  packEntry := λ e, RefCodec.pack (entryJson e);
  packOperation := RefCodec.pack;
  packState := λ s, RefCodec.pack (stateJson s)
|}.

Definition str_ltb (s t : string) : bool :=
  match String.compare s t with
  | Lt => true
  | _ => false
  end.

(** The better of the record at hand and the best record so far. *)
Definition pick (gt lt : string) (kv : string * Buffer)
    (best : option (string * Buffer)) : option (string * Buffer) :=
  if str_ltb gt kv.1 && str_ltb kv.1 lt then
    match best with
    | Some b => if str_ltb kv.1 b.1 then Some kv else best
    | None => Some kv
    end
  else best.

Definition readFirst (store : gmap string Buffer) (gt lt : string)
  : option (string * Buffer) :=
  foldr (pick gt lt) None (map_to_list store).

Definition operationOf (op : JournalOperation) : Json := json op.

Definition operation_commit (op : JournalOperation) : Kvps :=
  commitOperation operationOf op.

(** The entry of an operation that ends at a tick. *)
Definition entryOf (endTick : N) (prev : TickTid) (op : Operation)
  : JournalEntry :=
  {| entry_key := TickKey.tickKey endTick;
     entry_prev := prev;
     entry_operation := {| tid := TreeClockModel.hash (op_time op);
                           json := operationJson op |} |}.

Definition wilmaEntry : JournalEntry :=
  entryOf 2 (1%Z, TreeClockModel.hash (clockAt 1)) (insertAt 2 "wilma").

(** A journal in which the entry of tick 2 names a predecessor whose
    operation is not stored. *)
Definition brokenJournal : Journal := {|
  store := commitBatch ∅ (commitEntry operation_commit wilmaEntry true).1;
  _state := None
|}.

(** The sample journal with its state in the cache, before and after the
    operation that nothing refers to is disposed of. *)
Definition cachedJournal : Journal :=
  {| store := store sampleJournal; _state := Some sampleState |}.

Definition disposedJournal : Journal :=
  {| store := delete (tidOpKey "stale") (store sampleJournal);
     _state := Some sampleState |}.

(** A journal that holds nothing. *)
Definition emptyJournal : Journal := {| store := ∅; _state := None |}.

End RefJournal.

(* ===================================================================== *)
(** ** Identifying triples ([src/engine/MeldEncoding.ts], lines 74-78)    *)
(* ===================================================================== *)

Module Identify.
Import Js Reification.

Section Factory.
(** The data factory [this.rdf] is not part of the sources: the label of
    the blank node that its [n]-th call of [blankNode()] makes. *)
Variable freshLabel : nat → string.

(** [identifyTriple], with the number of blank nodes made so far. *)
Definition identifyTriple (made : nat) (triple : Triple) : RefTriple * nat :=
  ({| ref_id := "_:" +:+ termValue (blankNode (freshLabel made));
      ref_subject := subject triple;
      ref_predicate := predicate triple;
      ref_object := object triple |}, S made).

(** [identifyTriplesTids] *)
Fixpoint identifyTriplesTids (made : nat) (triplesTids : list (Triple * list UUID))
  : RefTriplesTids * nat :=
  match triplesTids with
  | [] => ([], made)
  | (triple, tids) :: rest =>
      let '(identified, made') := identifyTriple made triple in
      let '(others, made'') := identifyTriplesTids made' rest in
      ((identified, tids) :: others, made'')
  end.

End Factory.

(** The triple that an identified triple stands for. *)
Definition asTriple (triple : RefTriple) : Triple :=
  {| subject := ref_subject triple;
     predicate := ref_predicate triple;
     object := ref_object triple |}.

(** The number of quads that reify the entries: three and one per TID. *)
Definition reifiedSize (x : RefTriplesTids) : nat :=
  list_sum (map (λ entry : RefTriple * list UUID, 3 + length entry.2) x).

End Identify.

(* ===================================================================== *)
(** ** Reference datasets for starting a clone                            *)
(* ===================================================================== *)

Module RefCloneStarts.
Import Js DatasetClone.

(** The dataset of the genesis clone, restarted with one operation that
    it has not sent yet. *)
Definition genesisDataset : Dataset :=
  {| loadClock := Some TreeClockModel.GENESIS;
     lastHash := TreeClockModel.hash TreeClockModel.GENESIS;
     unsentLocalOperations := [JObject [("@id", JString "fred")]] |}.

(** The dataset of a clone that starts for the first time. *)
Definition freshDataset : Dataset :=
  {| loadClock := None;
     lastHash := EmptyString;
     unsentLocalOperations := [] |}.

End RefCloneStarts.

(* ===================================================================== *)
(** ** Operation messages ([OperationMessage], found in
       [src/engine/SubjectQuads.ts], lines 292-324)                       *)
(* ===================================================================== *)

Module OperationMessages.
Import Js MeldEncoding.

(** [json[key]] for a decoded value: reading a property of [null] throws,
    a value that is not an object has no such property, and of two members
    of an object with one key the later one counts. *)
Definition getProp (json : Json) (key : string) : Result (option Json) :=
  match json with
  | JNull => Throw (TypeError ("Cannot read properties of null (reading '"
                               +:+ key +:+ "')"))
  | JObject members =>
      Ok (snd <$> List.find (λ kv, String.eqb kv.1 key) (rev members))
  | _ => Ok None
  end.

Section Messages.
Context `{Codec}.

(** The tree clock of [./clocks], which is not part of the sources:
    [TreeClock.fromJson], applied to [data[2]], which can be missing. *)
Variable Time : Type.
Variable TreeClock_fromJson : option Json → Time.

Record OperationMessage : Type := {
  prev : Z;
  data : list Json;
  time : Time
}.

(** The constructor: the time is read from the data unless it is given. *)
Definition newOperationMessage (prev : Z) (data : list Json) (time : option Time)
  : OperationMessage :=
  {| prev := prev; data := data;
     time := default (TreeClock_fromJson (data !! 2)) time |}.

(** The object [{ prev, data }]. *)
Definition payload (msg : OperationMessage) : Json :=
  JObject [("prev", JNumber (prev msg)); ("data", JArray (data msg))].

(** [OperationMessage.encode] *)
Definition encode (msg : OperationMessage) : Buffer :=
  MsgPack_encode (payload msg).

(** [OperationMessage.decode]; the error is [new MeldError('Bad update')],
    with no detail. *)
Definition decode (enc : Buffer) : Result OperationMessage :=
  json ← MsgPack_decode (VBuffer enc);
  prev ← getProp json "prev";
  match prev with
  | Some (JNumber prev) =>
      data ← getProp json "data";
      match data with
      | Some (JArray data) => Ok (newOperationMessage prev data None)
      | _ => Throw (MeldError "Bad update" EmptyString)
      end
  | _ => Throw (MeldError "Bad update" EmptyString)
  end.

(** [OperationMessage.size] *)
Definition size (msg : OperationMessage) : nat := length (encode msg).

End Messages.

End OperationMessages.

(** A reference operation message: the encoded insertion of tick 1. *)
Module RefMessages.
Import Js OperationMessages.

Definition clockOf (json : option Json) : TreeClockModel.TreeClock :=
  RefEngine.jsonClock (default JNull json).

Definition fredMessage : OperationMessage TreeClockModel.TreeClock :=
  newOperationMessage TreeClockModel.TreeClock clockOf 0
    [JNumber 2; JNumber 1; RefEngine.clockJson (RefEngine.clockAt 1);
     JString "[]"; JString "{}"]
    (Some TreeClockModel.GENESIS).

End RefMessages.

(* ===================================================================== *)
(** ** Values of a subject property ([src/subjects.ts], lines 137-232)    *)
(* ===================================================================== *)

Module SubjectPropertySet.

Section Values.
Variable Value : Type.
(** [compareValues] of [./engine/jsonld], which is not part of the
    sources: whether two values are the same value. *)
Variable compareValues : Value → Value → bool.

(** [SubjectPropertySet.minus] *)
Definition minus (values minusValues : list Value) : list Value :=
  if (length values =? 0)%nat || (length minusValues =? 0)%nat then values
  else
    let filtered :=
      List.filter (λ value,
                     negb (existsb (λ minusValue, compareValues value minusValue)
                                   minusValues)) values in
    if (length filtered =? length values)%nat then values else filtered.

(** [SubjectPropertySet.union] *)
Definition union (values unionValues : list Value) : list Value :=
  let newValues := minus unionValues values in
  if (0 <? length newValues)%nat then values ++ newValues else values.

(** The values that [_update] arrives at from the old values, before any
    shared data update: [union(minus(oldValues, deletes), inserts)]. *)
Definition updated (oldValues deletes inserts : list Value) : list Value :=
  union (minus oldValues deletes) inserts.

(** Whether a value is the same as one of a list. *)
Definition matches (value : Value) (others : list Value) : bool :=
  existsb (compareValues value) others.

End Values.

End SubjectPropertySet.

(* ===================================================================== *)
(** * Properties                                                          *)
(* ===================================================================== *)

Module TickKeyProps.
Import TickKey.

Lemma repeat0_length n : String.length (repeat0 n) = n.
Proof. induction n; simpl; congruence. Qed.

Lemma repeat0_plus m n : repeat0 (m + n) = repeat0 m +:+ repeat0 n.
Proof. induction m; simpl; congruence. Qed.

Lemma append_assoc (s t u : string) : (s +:+ t) +:+ u = s +:+ (t +:+ u).
Proof. induction s; simpl; congruence. Qed.

Lemma append_length (s t : string) :
  String.length (s +:+ t) = String.length s + String.length t.
Proof. induction s; simpl; congruence. Qed.

Lemma fixedDigits_length k n : String.length (fixedDigits k n) = k.
Proof.
  revert n; induction k as [|k IH]; intros n; simpl; [reflexivity|].
  rewrite append_length, IH. simpl. lia.
Qed.

Lemma fixedDigits_zero k : fixedDigits k 0 = repeat0 k.
Proof.
  induction k as [|k IH]; simpl; [reflexivity|].
  change (0 / TICK_KEY_RADIX)%N with 0%N. rewrite IH.
  change (digitChar (0 mod TICK_KEY_RADIX)) with "0"%char.
  clear IH. induction k; simpl; congruence.
Qed.

(** Digits above the [k]-th of a number below [36^k] are zeros. *)
Lemma fixedDigits_pad j k n :
  (n < TICK_KEY_RADIX ^ N.of_nat k)%N →
  fixedDigits (j + k) n = repeat0 j +:+ fixedDigits k n.
Proof.
  revert n; induction k as [|k IH]; intros n Hn.
  - simpl in Hn. assert (n = 0%N) as -> by lia.
    rewrite Nat.add_0_r, fixedDigits_zero. simpl.
    clear. induction j; simpl; congruence.
  - rewrite Nat.add_succ_r. simpl. rewrite IH, append_assoc; [reflexivity|].
    rewrite Nat2N.inj_succ, N.pow_succ_r' in Hn.
    apply N.Div0.div_lt_upper_bound. exact Hn.
Qed.

(** [toString] produces the shortest digit string that holds the number. *)
Lemma toStringFrom_digits fuel n acc :
  0 < fuel → (n < TICK_KEY_RADIX ^ N.of_nat fuel)%N →
  ∃ j, 0 < j ∧ (n < TICK_KEY_RADIX ^ N.of_nat j)%N
       ∧ (∀ k, 0 < k → (n < TICK_KEY_RADIX ^ N.of_nat k)%N → j ≤ k)
       ∧ toStringFrom fuel n acc = fixedDigits j n +:+ acc.
Proof.
  revert n acc; induction fuel as [|fuel IH]; intros n acc Hf Hn; [lia|].
  simpl. destruct (N.eqb_spec (n / TICK_KEY_RADIX) 0) as [Hq|Hq].
  - exists 1. repeat split; [lia| |intros; lia].
    change (TICK_KEY_RADIX ^ N.of_nat 1)%N with TICK_KEY_RADIX.
    apply N.div_small_iff in Hq; [exact Hq|discriminate].
  - rewrite Nat2N.inj_succ, N.pow_succ_r' in Hn.
    assert (Hn' : (n / TICK_KEY_RADIX < TICK_KEY_RADIX ^ N.of_nat fuel)%N)
      by (apply N.Div0.div_lt_upper_bound; exact Hn).
    assert (Hf' : 0 < fuel).
    { destruct fuel; [|lia].
      change (TICK_KEY_RADIX ^ N.of_nat 0)%N with 1%N in Hn'.
      apply N.lt_1_r in Hn'. contradiction. }
    destruct (IH (n / TICK_KEY_RADIX)%N
                (String (digitChar (n mod TICK_KEY_RADIX)) acc) Hf' Hn')
      as (j & Hj & Hlt & Hmin & Heq).
    exists (S j). repeat split; [lia| | |].
    + rewrite Nat2N.inj_succ, N.pow_succ_r'.
      pose proof (N.Div0.div_mod n TICK_KEY_RADIX) as Hdm.
      pose proof (N.mod_lt n TICK_KEY_RADIX ltac:(discriminate)).
      unfold TICK_KEY_RADIX in *. nia.
    + intros k Hk Hnk. destruct k as [|k]; [lia|].
      rewrite Nat2N.inj_succ, N.pow_succ_r' in Hnk.
      assert ((n / TICK_KEY_RADIX < TICK_KEY_RADIX ^ N.of_nat k)%N)
        by (apply N.Div0.div_lt_upper_bound; exact Hnk).
      destruct k as [|k].
      { change (TICK_KEY_RADIX ^ N.of_nat 0)%N with 1%N in *.
        apply N.lt_1_r in H. contradiction. }
      specialize (Hmin (S k) ltac:(lia) ltac:(assumption)). lia.
    + rewrite Heq. simpl. rewrite append_assoc. reflexivity.
Qed.

Lemma substring_all (s : string) : substring 0 (String.length s) s = s.
Proof. induction s; simpl; congruence. Qed.

Lemma sliceLast_app k (s t : string) :
  String.length t = k → sliceLast k (s +:+ t) = t.
Proof.
  intros <-. unfold sliceLast. rewrite append_length.
  replace (String.length s + String.length t - String.length t)
    with (String.length s) by lia.
  induction s as [|c s IH]; simpl; [apply substring_all | exact IH].
Qed.

Lemma toString36_digits n :
  ∃ j, 0 < j ∧ (n < TICK_KEY_RADIX ^ N.of_nat j)%N
       ∧ (∀ k, 0 < k → (n < TICK_KEY_RADIX ^ N.of_nat k)%N → j ≤ k)
       ∧ toString36 n = fixedDigits j n.
Proof.
  unfold toString36.
  destruct (toStringFrom_digits (S (N.to_nat (N.log2 n))) n EmptyString)
    as (j & Hj & Hlt & Hmin & Heq); [lia| |].
  - rewrite Nat2N.inj_succ, N2Nat.id.
    destruct (N.eq_dec n 0%N) as [->|Hn0]; [reflexivity|].
    apply N.lt_le_trans with (2 ^ N.succ (N.log2 n))%N.
    + apply N.log2_spec. lia.
    + apply N.pow_le_mono_l. unfold TICK_KEY_RADIX. lia.
  - exists j. repeat split; try assumption.
    rewrite Heq. clear. induction (fixedDigits j n); simpl; congruence.
Qed.

(** Below [36^8] the padded tick is the 8-digit representation. *)
Lemma paddedTick_fixed n :
  (n < TICK_KEY_RADIX ^ N.of_nat TICK_KEY_LEN)%N →
  paddedTick n = fixedDigits TICK_KEY_LEN n.
Proof.
  intros Hn. unfold paddedTick.
  destruct (toString36_digits n) as (j & Hj & Hlt & Hmin & ->).
  assert (Hle : j ≤ TICK_KEY_LEN) by (apply Hmin; [unfold TICK_KEY_LEN; lia|exact Hn]).
  assert (Hpad : ∀ d, repeat0 (j + d) +:+ fixedDigits j n
                      = repeat0 j +:+ fixedDigits (d + j) n).
  { intros d. by rewrite repeat0_plus, append_assoc, <- fixedDigits_pad. }
  specialize (Hpad (TICK_KEY_LEN - j)).
  replace (j + (TICK_KEY_LEN - j)) with TICK_KEY_LEN in Hpad by lia.
  replace (TICK_KEY_LEN - j + j) with TICK_KEY_LEN in Hpad by lia.
  unfold TICK_KEY_PAD. rewrite Hpad.
  apply sliceLast_app, fixedDigits_length.
Qed.

Lemma digitChar_code d :
  (d < TICK_KEY_RADIX)%N →
  N_of_ascii (digitChar d) = if (d <? 10)%N then (48 + d)%N else (87 + d)%N.
Proof.
  intros Hd. unfold digitChar, TICK_KEY_RADIX in *.
  destruct (d <? 10)%N; apply N_ascii_embedding; lia.
Qed.

Lemma digitChar_lt d e :
  (d < e)%N → (e < TICK_KEY_RADIX)%N →
  Ascii.compare (digitChar d) (digitChar e) = Lt.
Proof.
  intros Hde He. unfold Ascii.compare.
  rewrite !digitChar_code by lia.
  apply N.compare_lt_iff.
  destruct (N.ltb_spec d 10), (N.ltb_spec e 10);
    unfold TICK_KEY_RADIX in *; lia.
Qed.

Lemma ascii_compare_refl c : Ascii.compare c c = Eq.
Proof. unfold Ascii.compare. apply N.compare_refl. Qed.

Lemma compare_app_same (p s t : string) :
  String.compare (p +:+ s) (p +:+ t) = String.compare s t.
Proof.
  induction p as [|c p IH]; simpl; [reflexivity|].
  rewrite ascii_compare_refl. exact IH.
Qed.

(** A strict difference in equally long prefixes decides the order. *)
Lemma compare_app_lt (s1 s2 t1 t2 : string) :
  String.length s1 = String.length s2 →
  String.compare s1 s2 = Lt →
  String.compare (s1 +:+ t1) (s2 +:+ t2) = Lt.
Proof.
  revert s2; induction s1 as [|c1 s1 IH]; intros [|c2 s2] Hlen Hcmp;
    simpl in *; try discriminate.
  destruct (Ascii.compare c1 c2); try discriminate; [|reflexivity].
  apply IH; [congruence | exact Hcmp].
Qed.

Lemma fixedDigits_lt k a b :
  (a < b)%N → (b < TICK_KEY_RADIX ^ N.of_nat k)%N →
  str_lt (fixedDigits k a) (fixedDigits k b).
Proof.
  unfold str_lt. revert a b; induction k as [|k IH]; intros a b Hab Hb.
  - change (TICK_KEY_RADIX ^ N.of_nat 0)%N with 1%N in Hb. lia.
  - simpl. rewrite Nat2N.inj_succ, N.pow_succ_r' in Hb.
    pose proof (N.Div0.div_mod a TICK_KEY_RADIX) as Ha'.
    pose proof (N.Div0.div_mod b TICK_KEY_RADIX) as Hb'.
    pose proof (N.mod_lt a TICK_KEY_RADIX ltac:(discriminate)) as Hma.
    pose proof (N.mod_lt b TICK_KEY_RADIX ltac:(discriminate)) as Hmb.
    assert (Hqb : (b / TICK_KEY_RADIX < TICK_KEY_RADIX ^ N.of_nat k)%N)
      by (apply N.Div0.div_lt_upper_bound; exact Hb).
    destruct (N.lt_trichotomy (a / TICK_KEY_RADIX) (b / TICK_KEY_RADIX))
      as [Hlt|[Heq|Hgt]].
    + apply compare_app_lt; [by rewrite !fixedDigits_length|].
      apply IH; assumption.
    + rewrite Heq, compare_app_same. simpl.
      rewrite digitChar_lt; [reflexivity| |exact Hmb].
      rewrite Heq in Ha'. clear IH Hb Hqb Hma Hmb Heq.
      revert Ha' Hb'. generalize (a mod TICK_KEY_RADIX)%N,
        (b mod TICK_KEY_RADIX)%N, (b / TICK_KEY_RADIX)%N.
      unfold TICK_KEY_RADIX. intros; lia.
    + exfalso. clear IH Hb Hqb. revert Ha' Hb' Hma Hmb Hgt.
      generalize (a mod TICK_KEY_RADIX)%N, (b mod TICK_KEY_RADIX)%N,
        (a / TICK_KEY_RADIX)%N, (b / TICK_KEY_RADIX)%N.
      unfold TICK_KEY_RADIX. intros; lia.
Qed.

End TickKeyProps.

Module TickKeyOrder.
Import TickKey TickKeyProps.

(** Past the last representable tick the key wraps around: the slice keeps
    the eight low digits only. *)
Example tickKey_wraps : tickKey (36 ^ 8) = tickKey 0.
Proof. vm_compute. reflexivity. Qed.

(** C8. [tickKey] pads the base-36 digits of the tick to exactly eight
    characters, so that for ticks [a < b < 36^8] the key of [a] is strictly
    below the key of [b] in lexicographic string order. *)
Theorem tickKey_ordered (a b : N) :
  (a < b)%N → (b < 36 ^ 8)%N →
  tickKey a = "_qs:tick:" +:+ fixedDigits 8 a
  ∧ tickKey b = "_qs:tick:" +:+ fixedDigits 8 b
  ∧ String.length (paddedTick a) = 8
  ∧ String.length (paddedTick b) = 8
  ∧ str_lt (tickKey a) (tickKey b).
Proof.
  intros Hab Hb.
  assert (Ha : (a < 36 ^ 8)%N) by lia.
  pose proof (paddedTick_fixed a Ha) as Ea.
  pose proof (paddedTick_fixed b Hb) as Eb.
  unfold tickKey. rewrite Ea, Eb.
  repeat split; try apply fixedDigits_length.
  unfold str_lt. rewrite compare_app_same.
  apply fixedDigits_lt; assumption.
Qed.

Lemma tickKey_ordered_witness :
  tickKey 35 = "_qs:tick:0000000z" ∧ tickKey 36 = "_qs:tick:00000010"
  ∧ str_lt (tickKey 35) (tickKey 36).
Proof.
  destruct (tickKey_ordered 35 36) as (Ha & Hb & _ & _ & Hlt);
    [reflexivity | reflexivity |].
  split; [exact Ha | split; [exact Hb | exact Hlt]].
Defined.

End TickKeyOrder.
Module MeldEncodingProps.
Import Js MeldEncoding.

Section Chain.
Context `{Codec}.

Lemma decodeFromLast_app (l1 l2 : list BufferEncoding) (v : Value) :
  decodeFromLast (l1 ++ l2) v = decodeFromLast l1 v ≫= decodeFromLast l2.
Proof.
  revert v; induction l1 as [|e l1 IH]; intros v; simpl; [reflexivity|].
  destruct (decodeStep e v) as [r|err]; simpl; [apply IH | reflexivity].
Qed.

(** The last encoding of the vector is undone first. *)
Lemma jsonFromBuffer_snoc (b : Buffer) (encoding : list BufferEncoding)
    (e : BufferEncoding) :
  jsonFromBuffer b (encoding ++ [e])
  = decodeStep e (VBuffer b) ≫= decodeFromLast (rev encoding).
Proof. unfold jsonFromBuffer. rewrite rev_app_distr. reflexivity. Qed.

Lemma bufferFromJson_small (j : Json) :
  length (MsgPack_encode j) ≤ COMPRESS_THRESHOLD_BYTES →
  bufferFromJson j = (MsgPack_encode j, [MSGPACK]).
Proof.
  intros Hlen. unfold bufferFromJson.
  destruct (Nat.ltb_spec COMPRESS_THRESHOLD_BYTES (length (MsgPack_encode j)));
    [lia | reflexivity].
Qed.

Lemma bufferFromJson_large (j : Json) :
  COMPRESS_THRESHOLD_BYTES < length (MsgPack_encode j) →
  bufferFromJson j = (gzipSync (MsgPack_encode j), [MSGPACK; GZIP]).
Proof.
  intros Hlen. unfold bufferFromJson.
  destruct (Nat.ltb_spec COMPRESS_THRESHOLD_BYTES (length (MsgPack_encode j)));
    [reflexivity | lia].
Qed.

End Chain.

(** C4, as the specification words it, fails on a small object: its
    message-pack form is 20 bytes long and the companion vector names
    message-pack, not JSON text. *)
Lemma bufferFromJson_small_not_json :
  length (MsgPack_encode RefCodec.fredJson) = 20
  ∧ (bufferFromJson RefCodec.fredJson).2 = [MSGPACK]
  ∧ (bufferFromJson RefCodec.fredJson).2 ≠ [JSON].
Proof. repeat split. discriminate. Qed.

(** C4 (amended). For every codec and JSON value the encoder emits the
    message-pack form itself, with encoding vector [[MSGPACK]], when that
    form has at most 1024 bytes, and its gzip compression, with encoding
    vector [[MSGPACK; GZIP]], when it has more; the vector never names JSON
    text, and decoding with the vector undoes exactly the steps taken. *)
Theorem bufferFromJson_encoding `{Codec} (j : Json) :
  let packed := MsgPack_encode j in
  let '(buffer, encoding) := bufferFromJson j in
  (JSON ∉ encoding)
  ∧ ((length packed ≤ 1024
      ∧ buffer = packed ∧ encoding = [MSGPACK]
      ∧ jsonFromBuffer buffer encoding
        = VJson <$> MsgPack_decode (VBuffer buffer))
     ∨ (1024 < length packed
        ∧ buffer = gzipSync packed ∧ encoding = [MSGPACK; GZIP]
        ∧ jsonFromBuffer buffer encoding
          = gunzipSync (VBuffer buffer)
              ≫= λ unzipped, VJson <$> MsgPack_decode (VBuffer unzipped))).
Proof.
  intros packed.
  destruct (le_lt_dec (length packed) COMPRESS_THRESHOLD_BYTES) as [Hs|Hl].
  - rewrite (bufferFromJson_small j Hs). split.
    + intros Hin. apply list_elem_of_singleton in Hin. discriminate.
    + left. repeat split; [exact Hs|].
      unfold jsonFromBuffer; simpl.
      destruct (MsgPack_decode (VBuffer (MsgPack_encode j))); reflexivity.
  - rewrite (bufferFromJson_large j Hl). split.
    + intros Hin. apply elem_of_cons in Hin as [Hin|Hin]; [discriminate|].
      apply list_elem_of_singleton in Hin. discriminate.
    + right. repeat split; [exact Hl|].
      unfold jsonFromBuffer; simpl.
      destruct (gunzipSync (VBuffer (gzipSync (MsgPack_encode j)))) as [u|];
        simpl; [|reflexivity].
      destruct (MsgPack_decode (VBuffer u)); reflexivity.
Qed.

(** C5. Whenever the message-pack codec and gzip undo their own output for
    [j], decoding the buffer of [bufferFromJson j] under the recorded
    encoding vector returns [j], and encoding the decoded value again
    reproduces the buffer and its vector. *)
Theorem buffer_roundtrip `{Codec} (j : Json) :
  MsgPack_decode (VBuffer (MsgPack_encode j)) = Ok j →
  (COMPRESS_THRESHOLD_BYTES < length (MsgPack_encode j) →
   gunzipSync (VBuffer (gzipSync (MsgPack_encode j))) = Ok (MsgPack_encode j)) →
  let '(buffer, encoding) := bufferFromJson j in
  jsonFromBuffer buffer encoding = Ok (VJson j)
  ∧ ∀ decoded, jsonFromBuffer buffer encoding = Ok (VJson decoded) →
               bufferFromJson decoded = (buffer, encoding).
Proof.
  intros Hpack Hzip.
  assert (Hdec : jsonFromBuffer (bufferFromJson j).1 (bufferFromJson j).2
                 = Ok (VJson j)).
  { destruct (le_lt_dec (length (MsgPack_encode j)) COMPRESS_THRESHOLD_BYTES)
      as [Hs|Hl].
    - rewrite (bufferFromJson_small j Hs). simpl.
      rewrite (jsonFromBuffer_snoc _ [] MSGPACK). simpl.
      rewrite Hpack. reflexivity.
    - rewrite (bufferFromJson_large j Hl). simpl.
      rewrite (jsonFromBuffer_snoc _ [MSGPACK] GZIP). simpl.
      rewrite (Hzip Hl). simpl. rewrite Hpack. reflexivity. }
  destruct (bufferFromJson j) as [buffer encoding] eqn:E. simpl in Hdec.
  split; [exact Hdec|].
  intros decoded Hd. rewrite Hdec in Hd. injection Hd as <-. exact E.
Qed.

Lemma buffer_roundtrip_witness :
  (let '(buffer, encoding) := bufferFromJson RefCodec.fredJson in
   jsonFromBuffer buffer encoding = Ok (VJson RefCodec.fredJson)
   ∧ ∀ decoded, jsonFromBuffer buffer encoding = Ok (VJson decoded) →
                bufferFromJson decoded = (buffer, encoding))
  ∧ (let '(buffer, encoding) := bufferFromJson RefCodec.largeJson in
     jsonFromBuffer buffer encoding = Ok (VJson RefCodec.largeJson)
     ∧ ∀ decoded, jsonFromBuffer buffer encoding = Ok (VJson decoded) →
                  bufferFromJson decoded = (buffer, encoding)).
Proof.
  split.
  - refine (buffer_roundtrip RefCodec.fredJson _ _).
    + vm_compute. reflexivity.
    + intros Hl. vm_compute in Hl. lia.
  - refine (buffer_roundtrip RefCodec.largeJson _ _).
    + vm_compute. reflexivity.
    + intros _. vm_compute. reflexivity.
Defined.

End MeldEncodingProps.
Module JournalProps.
Import Js Journal.

Lemma prefix_append (p s : string) : String.prefix p (p +:+ s) = true.
Proof.
  induction p as [|c p IH]; simpl; [by destruct s|].
  destruct (ascii_dec c c); [exact IH | congruence].
Qed.

Lemma append_inj_l (p s t : string) : p +:+ s = p +:+ t → s = t.
Proof. induction p as [|c p IH]; simpl; [done|]. intros [=]. auto. Qed.

(** Entry keys and operation keys live apart in the store. *)
Lemma tidOpKey_not_entryKey (t u : string) : tidOpKey t ≠ tidEntryKey u.
Proof. unfold tidOpKey, tidEntryKey. simpl. intros [=]. Qed.

Lemma tidOpKey_inj (t u : string) : tidOpKey t = tidOpKey u → t = u.
Proof. apply append_inj_l. Qed.

Lemma existsb_eqb (t : string) (l : list string) :
  existsb (String.eqb t) l = true ↔ t ∈ l.
Proof.
  rewrite existsb_exists. split.
  - intros (x & Hin & Heq). apply String.eqb_eq in Heq as <-.
    by apply list_elem_of_In.
  - intros Hin. exists t. split; [by apply list_elem_of_In | apply String.eqb_refl].
Qed.

Section Facts.
Context `{Engine}.

Lemma state_store (j j' : Journal) (s : JournalState) :
  state j = Ok (s, j') → store j' = store j.
Proof.
  unfold state. destruct (_state j); [by intros [= _ <-]|].
  destruct (store j !! JOURNAL_KEY); [|done]. by intros [= _ <-].
Qed.

(** C7. With the journal state at hand, [disposeOperationIfUnreferenced]
    answers true, and deletes the record of the operation under its TID,
    exactly when no journal entry is indexed under the TID and the TID is
    not among those of the current GWC; otherwise it answers false and
    the store is as before.  Other keys are never touched. *)
Theorem dispose_iff_unreferenced (j j' : Journal) (s : JournalState)
    (tid : string) :
  state j = Ok (s, j') →
  ∃ disposed after,
    disposeOperationIfUnreferenced j tid = Ok (disposed, after)
    ∧ (disposed = true
       ↔ store j !! tidEntryKey tid = None ∧ tid ∉ tids (gwc s))
    ∧ (disposed = true →
       store after = delete (tidOpKey tid) (store j)
       ∧ operation after tid = None)
    ∧ (disposed = false → store after = store j).
Proof.
  intros Hstate. pose proof (state_store _ _ _ Hstate) as Hstore.
  unfold disposeOperationIfUnreferenced, withLockedHistory.
  destruct (store j !! tidEntryKey tid) as [entry|] eqn:Hentry.
  - rewrite bool_decide_eq_true_2 by eauto. simpl.
    eexists false, _. split; [reflexivity|].
    repeat split; try done. by intros [? _].
  - rewrite bool_decide_eq_false_2 by (intros [? ?]; done).
    rewrite Hstate. simpl.
    destruct (existsb (String.eqb tid) (tids (gwc s))) eqn:Hgwc; simpl.
    + eexists false, _. split; [reflexivity|].
      apply existsb_eqb in Hgwc.
      repeat split; try done. by intros [_ ?].
    + eexists true, _. split; [reflexivity|].
      assert (tid ∉ tids (gwc s)).
      { intros Hin. apply existsb_eqb in Hin. congruence. }
      repeat split; try done; simpl.
      * by rewrite Hstore.
      * unfold operation. simpl. by rewrite lookup_delete_eq.
Qed.

Lemma contiguousPrev_steppable (minFrom : Z) (current : MeldOperation)
    (prevTick : Z) :
  contiguousPrev minFrom current prevTick = true
  ↔ steppable minFrom current prevTick.
Proof.
  unfold contiguousPrev, steppable.
  rewrite !andb_true_iff, negb_true_iff, Z.leb_le, Z.eqb_eq. tauto.
Qed.

Lemma wellFormedb_sound (j : Journal) : wellFormedb j = true → wellFormed j.
Proof.
  unfold wellFormedb, wellFormed, entryPrev.
  intros Hall tid prev Hprev Hge.
  destruct (store j !! tidEntryKey tid) as [value|] eqn:E; [|done].
  injection Hprev as <-.
  rewrite forallb_forall in Hall.
  assert (Hin : In (tidEntryKey tid, value) (map_to_list (store j))).
  { apply list_elem_of_In, elem_of_map_to_list. exact E. }
  specialize (Hall (tidEntryKey tid, value) Hin). cbn [fst snd] in Hall.
  assert (Hpre : String.prefix "_qs:tid:" (tidEntryKey tid) = true)
    by apply prefix_append.
  rewrite Hpre in Hall. cbn [negb orb] in Hall. unfold prevStoredb in Hall.
  apply orb_true_iff in Hall as [Hlt|Hop].
  - apply Z.ltb_lt in Hlt. lia.
  - destruct (operation j _) as [op|]; [|done].
    exists op. split; [done|]. by apply Z.leb_le.
Qed.

(** The walk ends, collecting as [walksBack] prescribes and only adding
    in front of the history it started from. *)
Lemma seekToFrom_walks (j : Journal) (minFrom : Z) :
  (1 ≤ minFrom)%Z → wellFormed j →
  ∀ fuel current history tick tid,
    Z.to_nat (from current - minFrom) < fuel →
    ∃ final earlier,
      seekToFrom fuel j minFrom (current :: history) tick tid = Some (Ok final)
      ∧ walksBack j minFrom (current :: history) tid final
      ∧ final = earlier ++ current :: history.
Proof.
  intros Hmin Hwf. induction fuel as [|fuel IH];
    intros current history tick tid Hfuel; [lia|].
  simpl. destruct (entryPrev j tid) as [[prevTick prevTid]|] eqn:Hprev.
  - destruct (contiguousPrev minFrom current prevTick) eqn:Hc.
    + apply contiguousPrev_steppable in Hc.
      pose proof Hc as (Hge & Heq & Hid).
      destruct (Hwf tid _ Hprev) as (op & Hop & Hfrom); [simpl; lia|].
      simpl in Hop, Hfrom.
      assert (Hmeld : meldOperation j prevTid = Ok (asMeldOperation op)).
      { unfold meldOperation, operation_require. by rewrite Hop. }
      rewrite Hmeld.
      destruct (IH (asMeldOperation op) (current :: history) prevTick prevTid)
        as (final & earlier & Hrun & Hwalk & Hfinal); [lia|].
      exists final, (earlier ++ [asMeldOperation op]).
      split; [exact Hrun|]. split.
      * eapply walks_step; eauto.
      * by rewrite <- app_assoc.
    + exists (current :: history), []. split; [done|]. split; [|done].
      apply walks_stop. intros pt ptid Hpt Hstep.
      rewrite Hprev in Hpt. injection Hpt as <- <-.
      apply contiguousPrev_steppable in Hstep. congruence.
  - exists (current :: history), []. split; [done|]. split; [|done].
    apply walks_stop. intros pt ptid Hpt. congruence.
Qed.

(** The conditions of the walk leave no choice: it has one outcome. *)
Lemma walksBack_functional (j : Journal) (minFrom : Z)
    (history : list MeldOperation) (tid : string)
    (final1 final2 : list MeldOperation) :
  walksBack j minFrom history tid final1 →
  walksBack j minFrom history tid final2 → final1 = final2.
Proof.
  intros Hw1. revert final2.
  induction Hw1 as [current history tid Hstop
                   |current history tid pt ptid prevOp final Hprev Hstep Hmeld _ IH];
    intros final2 Hw2; inversion Hw2; subst.
  - reflexivity.
  - exfalso. eapply Hstop; eauto.
  - exfalso. match goal with Hs : ∀ _ _, _ → ¬ _ |- _ => eapply Hs; eauto end.
  - match goal with
    | Hp : entryPrev j tid = Some _ |- _ =>
        rewrite Hprev in Hp; injection Hp as <- <-
    end.
    match goal with
    | Hm : meldOperation j ptid = Ok _ |- _ =>
        rewrite Hmeld in Hm; injection Hm as <-
    end.
    by apply IH.
Qed.

(** C6. On a well-formed journal and for [minFrom >= 1], [causalReduce]
    walks back from [op] along the recorded previous ticks and TIDs,
    collecting the previous operation exactly while one is recorded, its
    tick is at least [minFrom], it is the current operation's [from]
    minus one, and the clock ticked back to it has no zero id; it then
    folds the collected operations forward from the earliest and returns
    the reduced operation, whose time is that of [op] for a reduction
    that ends at the last operation it absorbs. *)
Theorem causalReduce_walks_back (j : Journal) (op : JournalOperation)
    (operator : CausalOperator) (minFrom : Z) (fuel : nat) :
  (1 ≤ minFrom)%Z →
  wellFormed j →
  endsAtLast operator →
  Z.to_nat (from (asMeldOperation op) - minFrom) < fuel →
  ∃ history reduced,
    walksBack j minFrom [asMeldOperation op] (tid op) history
    ∧ last history = Some (asMeldOperation op)
    ∧ reduceForward operator history = Some reduced
    ∧ causalReduce fuel j op operator minFrom = Some (Ok reduced)
    ∧ ticks (time reduced) = tick op.
Proof.
  intros Hmin Hwf Hends Hfuel.
  destruct (seekToFrom_walks j minFrom Hmin Hwf fuel (asMeldOperation op) []
              (tick op) (tid op) Hfuel)
    as (final & earlier & Hrun & Hwalk & Hfinal).
  assert (Hlast : last final = Some (asMeldOperation op))
    by (rewrite Hfinal; apply last_snoc).
  destruct final as [|first rest]; [by destruct earlier|].
  eexists (first :: rest), _. repeat split; [exact Hwalk|exact Hlast|..].
  - unfold causalReduce. rewrite Hrun. reflexivity.
  - pose proof (Hends (first :: rest) _ eq_refl) as Htime.
    rewrite Hlast in Htime. simpl in Htime. injection Htime as ->.
    reflexivity.
Qed.

End Facts.

Lemma sampleJournal_state :
  state RefEngine.sampleJournal
  = Ok (RefEngine.sampleState,
        {| store := store RefEngine.sampleJournal;
           _state := Some RefEngine.sampleState |}).
Proof.
  unfold state. change (_state RefEngine.sampleJournal) with (@None JournalState).
  destruct (store RefEngine.sampleJournal !! JOURNAL_KEY) as [value|] eqn:E;
    vm_compute in E; [|discriminate].
  injection E as <-. f_equal.
Qed.

Lemma dispose_iff_unreferenced_witness :
  ∃ disposed after,
    disposeOperationIfUnreferenced RefEngine.sampleJournal "stale"
      = Ok (disposed, after)
    ∧ (disposed = true
       ↔ store RefEngine.sampleJournal !! tidEntryKey "stale" = None
         ∧ "stale" ∉ tids (gwc RefEngine.sampleState))
    ∧ (disposed = true →
       store after = delete (tidOpKey "stale") (store RefEngine.sampleJournal)
       ∧ operation after "stale" = None)
    ∧ (disposed = false → store after = store RefEngine.sampleJournal).
Proof.
  exact (dispose_iff_unreferenced RefEngine.sampleJournal _
           RefEngine.sampleState "stale" sampleJournal_state).
Defined.

Lemma fusion_endsAtLast : endsAtLast RefEngine.fusion.
Proof.
  intros [|first rest] reduced; [done|]. simpl. intros [= <-].
  unfold toMeldOperation. simpl. unfold id. f_equal.
  revert first. induction rest as [|op rest IH]; intros first; [done|].
  simpl. rewrite IH. destruct rest; reflexivity.
Qed.

Lemma sampleJournal_wellFormed : wellFormed RefEngine.sampleJournal.
Proof. apply wellFormedb_sound. vm_compute. reflexivity. Qed.

(** The three operations of the sample journal reduce to one operation
    covering ticks 1 to 3; from tick 3 on, to the last operation alone. *)
Example causalReduce_sample :
  causalReduce 4 RefEngine.sampleJournal RefEngine.lastOperation
    RefEngine.fusion 1
  = Some (Ok {| RefEngine.op_from := 1;
                RefEngine.op_time := RefEngine.clockAt 3;
                RefEngine.op_deletes := [];
                RefEngine.op_inserts :=
                  [JObject [("@id", JString "fred")];
                   JObject [("@id", JString "wilma")];
                   JObject [("@id", JString "barney")]] |})
  ∧ causalReduce 4 RefEngine.sampleJournal RefEngine.lastOperation
      RefEngine.fusion 3
    = Some (Ok (RefEngine.insertAt 3 "barney")).
Proof. split; vm_compute; reflexivity. Qed.

(** Without the invariant the walk need not end: on the journal whose entry
    is its own predecessor no amount of fuel suffices. *)
Example seekToFrom_loops (fuel : nat) (history : list MeldOperation) (tick : Z) :
  seekToFrom fuel RefEngine.loopJournal 1 (RefEngine.loopOperation :: history)
    tick (TreeClockModel.hash (RefEngine.clockAt 2)) = None.
Proof.
  revert history tick. induction fuel as [|fuel IH]; intros history tick; [done|].
  cbn [seekToFrom].
  assert (Hprev : entryPrev RefEngine.loopJournal
                    (TreeClockModel.hash (RefEngine.clockAt 2))
                  = Some (1%Z, TreeClockModel.hash (RefEngine.clockAt 2)))
    by (vm_compute; reflexivity).
  assert (Hmeld : meldOperation RefEngine.loopJournal
                    (TreeClockModel.hash (RefEngine.clockAt 2))
                  = Ok RefEngine.loopOperation)
    by (vm_compute; reflexivity).
  assert (Hstep : contiguousPrev 1
                    (RefEngine.loopOperation : @MeldOperation RefEngine.engine) 1
                  = true) by reflexivity.
  rewrite Hprev, Hstep, Hmeld. apply IH.
Qed.

(** An operation with a journal entry, or with its TID in the GWC, is kept;
    one without either is disposed of. *)
Example dispose_sample :
  fst <$> disposeOperationIfUnreferenced RefEngine.sampleJournal
            (tid RefEngine.lastOperation) = Ok false
  ∧ fst <$> disposeOperationIfUnreferenced RefEngine.sampleJournal "stale" = Ok true
  ∧ (λ r, bool_decide (is_Some (store r.2 !! tidOpKey "stale")))
      <$> disposeOperationIfUnreferenced RefEngine.sampleJournal "stale" = Ok false
  ∧ bool_decide (is_Some (store RefEngine.sampleJournal !! tidOpKey "stale")) = true.
Proof.
  split; [vm_compute; reflexivity|].
  split; [vm_compute; reflexivity|].
  split; vm_compute; reflexivity.
Qed.

Lemma causalReduce_walks_back_witness :
  ∃ history reduced,
    walksBack RefEngine.sampleJournal 1
      [asMeldOperation RefEngine.lastOperation] (tid RefEngine.lastOperation)
      history
    ∧ last history = Some (asMeldOperation RefEngine.lastOperation)
    ∧ reduceForward RefEngine.fusion history = Some reduced
    ∧ causalReduce 4 RefEngine.sampleJournal RefEngine.lastOperation
        RefEngine.fusion 1 = Some (Ok reduced)
    ∧ ticks (time reduced) = tick RefEngine.lastOperation.
Proof.
  refine (causalReduce_walks_back RefEngine.sampleJournal
            RefEngine.lastOperation RefEngine.fusion 1 4 _
            sampleJournal_wellFormed fusion_endsAtLast _).
  - lia.
  - vm_compute. lia.
Defined.

End JournalProps.
Module JsObjectProps.
Import JsObject.

Section Props.
Context {V : Type}.
Implicit Types (o : t V) (k : string) (v : V).

Lemma own_create o k v : own o k = None → own (create o k v) k = Some v.
Proof.
  unfold own. induction o as [|[k' w] o IH]; simpl.
  - by rewrite String.eqb_refl.
  - destruct (String.eqb k' k) eqn:E; [done|]. intros Hnone.
    destruct (precedes k k'); simpl.
    + by rewrite String.eqb_refl.
    + rewrite E. by apply IH.
Qed.

Lemma own_create_ne o k k' v : k ≠ k' → own (create o k v) k' = own o k'.
Proof.
  intros Hne. unfold own. induction o as [|[k0 w] o IH]; simpl.
  - by rewrite (proj2 (String.eqb_neq k k')).
  - destruct (precedes k k0); simpl.
    + by rewrite (proj2 (String.eqb_neq k k')).
    + destruct (String.eqb k0 k'); [done | exact IH].
Qed.

Lemma own_replace o k v w : own o k = Some w → own (replace o k v) k = Some v.
Proof.
  unfold own, replace. induction o as [|[k' u] o IH]; simpl; [done|].
  destruct (String.eqb k' k) eqn:E; simpl; rewrite E; [done | exact IH].
Qed.

Lemma own_replace_ne o k k' v : k ≠ k' → own (replace o k v) k' = own o k'.
Proof.
  intros Hne. unfold own, replace. induction o as [|[k0 u] o IH]; simpl; [done|].
  destruct (String.eqb k0 k) eqn:E; simpl.
  - apply String.eqb_eq in E as ->.
    rewrite (proj2 (String.eqb_neq k k')) by done. exact IH.
  - destruct (String.eqb k0 k'); [done | exact IH].
Qed.

Lemma own_set o k v : own (set o k v) k = Some v.
Proof.
  unfold set. destruct (own o k) eqn:E;
    [by eapply own_replace | by apply own_create].
Qed.

Lemma own_set_ne o k k' v : k ≠ k' → own (set o k v) k' = own o k'.
Proof.
  intros Hne. unfold set.
  destruct (own o k); [by apply own_replace_ne | by apply own_create_ne].
Qed.

Lemma get_set o k v : get (set o k v) k = Own v.
Proof. unfold get. by rewrite own_set. Qed.

Lemma replace_replace o k v w : replace (replace o k v) k w = replace o k w.
Proof.
  unfold replace. rewrite map_map. apply map_ext. intros [k' u]; simpl.
  destruct (String.eqb k' k) eqn:E; simpl; by rewrite E.
Qed.

Lemma replace_create o k v w :
  own o k = None → replace (create o k v) k w = create o k w.
Proof.
  unfold own. induction o as [|[k' u] o IH]; simpl.
  - by rewrite String.eqb_refl.
  - destruct (String.eqb k' k) eqn:E; [done|]. intros Hnone.
    destruct (precedes k k'); simpl; rewrite ?String.eqb_refl, E.
    + f_equal. f_equal. clear IH. induction o as [|[k0 u0] o IHo]; simpl; [done|].
      simpl in Hnone. destruct (String.eqb k0 k) eqn:E0; [done|].
      f_equal. by apply IHo.
    + f_equal. by apply IH.
Qed.

(** Writing a key twice keeps the position of the first write. *)
Lemma set_set o k v w : set (set o k v) k w = set o k w.
Proof.
  unfold set at 1. rewrite own_set. unfold set.
  destruct (own o k) eqn:E; [apply replace_replace | by apply replace_create].
Qed.

Lemma values_create o k v : values (create o k v) ≡ₚ v :: values o.
Proof.
  unfold values. induction o as [|[k' u] o IH]; simpl; [done|].
  destruct (precedes k k'); simpl; [done|].
  rewrite IH. apply Permutation_swap.
Qed.

(** A key that is not an array index goes after all the others. *)
Lemma create_last o k v : arrayIndex k = None → create o k v = o ++ [(k, v)].
Proof.
  intros Hk. induction o as [|[k' u] o IH]; simpl; [done|].
  unfold precedes. rewrite Hk. by rewrite IH.
Qed.

End Props.

End JsObjectProps.

Module ReificationProps.
Import Js JsObject JsObjectProps Reification.

Lemma prefix_slice (p s : string) :
  String.prefix p s = true → p +:+ sliceFrom (String.length p) s = s.
Proof.
  unfold sliceFrom. revert s; induction p as [|a p IH]; intros s.
  - intros _. simpl. rewrite Nat.sub_0_r. apply TickKeyProps.substring_all.
  - destruct s as [|b s]; [done|]. cbn [String.prefix].
    destruct (ascii_dec a b) as [<-|]; [|done].
    intros Hp. simpl. f_equal. by apply IH.
Qed.

Lemma blank_id (triple : RefTriple) :
  isBlank triple = true → "_:" +:+ label triple = ref_id triple.
Proof. apply prefix_slice. Qed.

Lemma reify_blank (entry : RefTriple * list UUID) :
  isBlank entry.1 = true → reifyTripleTids entry = Ok (block entry).
Proof.
  destruct entry as [triple tids]. unfold reifyTripleTids, isBlank. simpl.
  by intros ->.
Qed.

Lemma reify_all_blank (x : RefTriplesTids) :
  Forall (λ entry, isBlank entry.1 = true) x →
  reifyTriplesTids x = Ok (flatten (map block x)).
Proof.
  unfold reifyTriplesTids. intros Hall.
  assert (Hmap : mapResult reifyTripleTids x = Ok (map block x)).
  { induction Hall as [|entry x Hb _ IH]; simpl; [done|].
    by rewrite reify_blank, IH. }
  by rewrite Hmap.
Qed.

(** An identifier that is not a blank node makes the whole call throw. *)
Lemma reify_not_blank (x : RefTriplesTids) :
  Exists (λ entry, isBlank entry.1 = false) x →
  ∃ id, reifyTriplesTids x = Throw (TypeError ("Triple " +:+ id +:+ " is not a blank node")).
Proof.
  unfold reifyTriplesTids. intros Hex.
  induction x as [|[triple tids] x IH]; [by apply Exists_nil in Hex|].
  simpl. unfold isBlank in *. destruct (String.prefix "_:" (ref_id triple)) eqn:E.
  - apply Exists_cons in Hex as [Hex|Hex]; [simpl in Hex; congruence|].
    destruct (IH Hex) as [id Hid]. exists id. simpl.
    destruct (mapResult reifyTripleTids x); [done|]. simpl in *. congruence.
  - by exists (ref_id triple).
Qed.

Section Unreify.
Implicit Types (rids : JsObject.t (PartialRefTriple * list UUID)).

Lemma foldResult_cons {A B} (f : B → A → Result B) (a : A) (l : list A) (acc : B) :
  foldResult f (a :: l) acc = f acc a ≫= foldResult f l.
Proof. reflexivity. Qed.

Lemma step_tid rids (k : string) (triple : PartialRefTriple)
    (acc : list UUID) (tid : UUID) :
  unreifyStep (set rids k (triple, acc))
    (quad (blankNode k) (name M_LD_tid) (literal tid))
  = Ok (set rids k (triple, acc ++ [tid])).
Proof. unfold unreifyStep. simpl. rewrite get_set. simpl. by rewrite set_set. Qed.

Lemma step_subject rids (k : string) (s : Term) :
  own rids k = None → k ∉ prototypeKeys → isNamedNode s = true →
  unreifyStep rids (quad (blankNode k) (name RDF_subject) s)
  = Ok (set rids k ({| part_id := "_:" +:+ k; part_subject := Some s;
                       part_predicate := None; part_object := None |}, [])).
Proof.
  intros Hown Hproto Hs. unfold unreifyStep, get. simpl. rewrite Hown.
  rewrite bool_decide_eq_false_2 by done. simpl. by rewrite Hs.
Qed.

Lemma step_predicate rids (k : string) (triple : PartialRefTriple)
    (tids : list UUID) (p : Term) :
  isNamedNode p = true →
  unreifyStep (set rids k (triple, tids))
    (quad (blankNode k) (name RDF_predicate) p)
  = Ok (set rids k ({| part_id := part_id triple;
                       part_subject := part_subject triple;
                       part_predicate := Some p;
                       part_object := part_object triple |}, tids)).
Proof.
  intros Hp. unfold unreifyStep. simpl. rewrite get_set. simpl.
  by rewrite Hp, set_set.
Qed.

Lemma step_object rids (k : string) (triple : PartialRefTriple)
    (tids : list UUID) (o : Term) :
  unreifyStep (set rids k (triple, tids))
    (quad (blankNode k) (name RDF_object) o)
  = Ok (set rids k ({| part_id := part_id triple;
                       part_subject := part_subject triple;
                       part_predicate := part_predicate triple;
                       part_object := Some o |}, tids)).
Proof. unfold unreifyStep. simpl. rewrite get_set. simpl. by rewrite set_set. Qed.

Lemma unreify_tids rids (k : string) (triple : PartialRefTriple)
    (acc tids : list UUID) (rest : list Triple) :
  foldResult unreifyStep
    (map (λ tid, quad (blankNode k) (name M_LD_tid) (literal tid)) tids ++ rest)
    (set rids k (triple, acc))
  = foldResult unreifyStep rest (set rids k (triple, acc ++ tids)).
Proof.
  revert acc. induction tids as [|tid tids IH]; intros acc.
  - by rewrite app_nil_r.
  - cbn [map app]. rewrite foldResult_cons, step_tid. cbn [mbind result_bind].
    rewrite IH. by rewrite <- app_assoc.
Qed.

(** Reading back one block writes the complete entry under its label. *)
Lemma unreify_block rids (entry : RefTriple * list UUID) (rest : list Triple) :
  reifiable entry → own rids (label entry.1) = None →
  foldResult unreifyStep (block entry ++ rest) rids
  = foldResult unreifyStep rest (set rids (label entry.1) (unreified entry)).
Proof.
  destruct entry as [triple tids]. intros (Hb & Hproto & Hs & Hp) Hown.
  cbn [fst snd] in *. unfold block. cbn [fst snd app].
  rewrite foldResult_cons, step_subject by done. cbn [mbind result_bind].
  rewrite foldResult_cons, step_predicate by done. cbn [mbind result_bind].
  rewrite foldResult_cons, step_object. cbn [mbind result_bind].
  rewrite unreify_tids. cbn [part_id part_subject part_predicate part_object app].
  rewrite (blank_id triple Hb). reflexivity.
Qed.

Lemma unreify_blocks (x : RefTriplesTids) rids :
  Forall reifiable x →
  NoDup (map (λ entry, label entry.1) x) →
  Forall (λ entry, own rids (label entry.1) = None) x →
  foldResult unreifyStep (flatten (map block x)) rids = Ok (written rids x).
Proof.
  revert rids. induction x as [|entry x IH]; intros rids Hre Hnd Hfresh; [done|].
  apply Forall_cons in Hre as [Hentry Hre].
  apply NoDup_cons in Hnd as [Hnotin Hnd].
  apply Forall_cons in Hfresh as [Hown Hfresh].
  change (flatten (map block (entry :: x)))
    with (block entry ++ flatten (map block x)).
  rewrite unreify_block by done.
  apply IH; [done..|].
  apply Forall_forall. intros other Hother.
  rewrite own_set_ne.
  - by apply (proj1 (Forall_forall _ _) Hfresh).
  - intros Heq. apply Hnotin. rewrite Heq.
    apply list_elem_of_fmap. by exists other.
Qed.

Lemma written_values (x : RefTriplesTids) rids :
  NoDup (map (λ entry, label entry.1) x) →
  Forall (λ entry, own rids (label entry.1) = None) x →
  values (written rids x) ≡ₚ values rids ++ map unreified x.
Proof.
  revert rids. induction x as [|entry x IH]; intros rids Hnd Hfresh; simpl.
  - by rewrite app_nil_r.
  - apply NoDup_cons in Hnd as [Hnotin Hnd].
    apply Forall_cons in Hfresh as [Hown Hfresh].
    rewrite IH; [|done|].
    + unfold set. rewrite Hown, values_create.
      apply Permutation_middle.
    + apply Forall_forall. intros other Hother. rewrite own_set_ne.
      * by apply (proj1 (Forall_forall _ _) Hfresh).
      * intros Heq. apply Hnotin. rewrite Heq.
        apply list_elem_of_fmap. by exists other.
Qed.

Lemma written_in_order (x : RefTriplesTids) rids :
  NoDup (map (λ entry, label entry.1) x) →
  Forall (λ entry, own rids (label entry.1) = None) x →
  Forall (λ entry, arrayIndex (label entry.1) = None) x →
  written rids x = rids ++ map (λ entry, (label entry.1, unreified entry)) x.
Proof.
  revert rids. induction x as [|entry x IH]; intros rids Hnd Hfresh Hidx; simpl.
  - by rewrite app_nil_r.
  - apply NoDup_cons in Hnd as [Hnotin Hnd].
    apply Forall_cons in Hfresh as [Hown Hfresh].
    apply Forall_cons in Hidx as [Hk Hidx].
    rewrite IH; [|done| |done].
    + unfold set. rewrite Hown, create_last by done. by rewrite <- app_assoc.
    + apply Forall_forall. intros other Hother. rewrite own_set_ne.
      * by apply (proj1 (Forall_forall _ _) Hfresh).
      * intros Heq. apply Hnotin. rewrite Heq.
        apply list_elem_of_fmap. by exists other.
Qed.

End Unreify.

(** X14. Round trip of reification, for blank node labels that do not name a
    member of [Object.prototype]: distinct identified triples with IRI
    subjects and predicates come back with their TIDs, as a rearrangement of
    the input in general and in the order of the input when no label is an
    array index. *)
Theorem reify_unreify_roundtrip (x : RefTriplesTids) :
  Forall reifiable x →
  NoDup (map (λ entry, label entry.1) x) →
  ∃ reified result,
    reifyTriplesTids x = Ok reified
    ∧ unreifyTriplesTids reified = Ok result
    ∧ result ≡ₚ map unreified x
    ∧ (Forall (λ entry, arrayIndex (label entry.1) = None) x →
       result = map unreified x).
Proof.
  intros Hre Hnd.
  assert (Hblank : Forall (λ entry, isBlank entry.1 = true) x).
  { eapply Forall_impl; [exact Hre|]. by intros entry (Hb & _). }
  assert (Hfresh : Forall (λ entry : RefTriple * list UUID,
                             own ([] : JsObject.t (PartialRefTriple * list UUID))
                               (label entry.1) = None) x).
  { apply Forall_forall. done. }
  exists (flatten (map block x)), (values (written [] x)).
  split; [by apply reify_all_blank|]. split.
  - unfold unreifyTriplesTids. by rewrite unreify_blocks.
  - split.
    + by rewrite written_values.
    + intros Hidx. rewrite written_in_order by done. simpl.
      unfold values. rewrite map_map. by apply map_ext.
Qed.

Lemma reify_unreify_roundtrip_witness :
  ∃ reified result,
    reifyTriplesTids [(fredName "_:b1", ["t1"; "t2"]); (fredName "_:b0", [])]
      = Ok reified
    ∧ unreifyTriplesTids reified = Ok result
    ∧ result ≡ₚ map unreified [(fredName "_:b1", ["t1"; "t2"]); (fredName "_:b0", [])]
    ∧ (Forall (λ entry, arrayIndex (label entry.1) = None)
         [(fredName "_:b1", ["t1"; "t2"]); (fredName "_:b0", [])] →
       result = map unreified [(fredName "_:b1", ["t1"; "t2"]); (fredName "_:b0", [])]).
Proof.
  apply reify_unreify_roundtrip.
  - repeat constructor; vm_compute; try reflexivity;
      intros Hin; repeat (apply elem_of_cons in Hin as [Hin|Hin]; [discriminate|]);
      by apply elem_of_nil in Hin.
  - apply NoDup_ListNoDup. repeat constructor; simpl; intros Hin;
      repeat (destruct Hin as [Hin|Hin]; [discriminate|]); done.
Defined.

(** C10. The round trip of reification does not hold for every blank node
    label: the triple about Fred identified by [_:constructor], with IRI
    subject and predicate and one TID, is reified without error, but reading
    the reification back finds the inherited [constructor] of
    [Object.prototype] under [rids[rid]] and throws a [TypeError] where the
    triple and its TID should be returned.  An identifier that is not a
    blank node makes [reifyTriplesTids] throw a [TypeError]. *)
Theorem unreify_inherited_label_throws :
  let x := [(fredName "_:constructor", ["t1"])] in
  NoDup (map (λ entry, ref_id entry.1) x)
  ∧ Forall (λ entry, isBlank entry.1 = true
                     ∧ isNamedNode (ref_subject entry.1) = true
                     ∧ isNamedNode (ref_predicate entry.1) = true) x
  ∧ reifyTriplesTids x = Ok (flatten (map block x))
  ∧ unreifyTriplesTids (flatten (map block x))
    = Throw (TypeError "rids[rid] is not iterable")
  ∧ reifyTriplesTids [(fredName "constructor", ["t1"])]
    = Throw (TypeError "Triple constructor is not a blank node").
Proof.
  repeat split.
  - apply NoDup_singleton.
  - by repeat constructor.
Qed.

End ReificationProps.

Module DatasetCloneProps.
Import DatasetClone.

Section Facts.
Context `{Collaborators}.

Lemma seq_run {B} (p : Proc unit) (q : Proc B) (c : Clone) :
  seq p q c = q (p c).2.
Proof. unfold seq, bind. by destruct (p c) as [[] c']. Qed.

Lemma emit_events (e : Event) (c : Clone) :
  events (emit e c).2 = events c ++ [e].
Proof. reflexivity. Qed.

Lemma emit_buffer (e : Event) (c : Clone) :
  orderingBuffer (emit e c).2 = orderingBuffer c
  ∧ messageService (emit e c).2 = messageService c.
Proof. done. Qed.

Lemma dataset_apply_applies (msg : Message) : applies (dataset_apply msg).
Proof. intros c. by exists [DatasetApply msg (localTime c)]. Qed.

Lemma joinTime_events (msg : Message) (c : Clone) :
  events (joinTime msg c).2 = events c.
Proof. reflexivity. Qed.

Lemma drain_applies (fuel : nat) : applies (drain fuel dataset_apply).
Proof.
  induction fuel as [|fuel IH]; intros c; simpl.
  - exists []. by rewrite app_nil_r.
  - destruct (pickNext (messageService c) (orderingBuffer c)) as [[msg others]|].
    + rewrite !seq_run.
      destruct (IH (dataset_apply msg
                      (joinTime msg {| messageService := messageService c;
                                       orderingBuffer := others;
                                       events := events c |}).2).2)
        as (added & Hev & Hrecv & Hall).
      exists (DatasetApply msg (join (messageService c) (msgTime msg)) :: added).
      rewrite Hev. simpl. rewrite <- app_assoc. by repeat split.
    + exists []. by rewrite app_nil_r.
Qed.

Lemma deliverNow_applies (msg : Message) : applies (deliverNow msg dataset_apply).
Proof.
  intros c. unfold deliverNow. rewrite !seq_run.
  set (c1 := (dataset_apply msg (joinTime msg c).2).2).
  destruct (drain_applies (length (orderingBuffer c1)) c1)
    as (added & Hev & Hrecv & Hall).
  exists (DatasetApply msg (join (messageService c) (msgTime msg)) :: added).
  rewrite Hev. subst c1. simpl. rewrite <- app_assoc. by repeat split.
Qed.

(** One update through [updateReceiver]: one call of [receive], then calls
    of [dataset.apply] only. *)
Lemma updateReceiver_next_events (delta : Message) (c : Clone) :
  ∃ added,
    events (updateReceiver_next delta c).2 = events c ++ ServiceReceive delta :: added
    ∧ omap isReceive added = []
    ∧ forallb isReceiving added = true.
Proof.
  unfold updateReceiver_next, service_receive. rewrite seq_run.
  set (c1 := (emit (ServiceReceive delta) c).2).
  destruct (isNext (messageService c1) (msgTime delta)).
  - destruct (deliverNow_applies delta c1) as (added & Hev & Hrecv & Hall).
    exists added. rewrite Hev. subst c1. simpl. rewrite <- app_assoc. by repeat split.
  - exists []. by repeat split.
Qed.

(** A subscribed stream: every item is received, in order, and nothing but
    receiving happens. *)
Lemma subscribeRevups_events (stream : Stream) (c : Clone) :
  ∃ added,
    events (subscribeRevups stream c).2 = events c ++ added
    ∧ omap isReceive added = items stream
    ∧ forallb isReceiving added = true.
Proof.
  unfold subscribeRevups. rewrite seq_run.
  assert (Hitems : ∀ msgs c0, ∃ added,
             events (forEach msgs updateReceiver_next c0).2 = events c0 ++ added
             ∧ omap isReceive added = msgs
             ∧ forallb isReceiving added = true).
  { induction msgs as [|msg msgs IH]; intros c0; simpl.
    - exists []. by rewrite app_nil_r.
    - rewrite seq_run.
      destruct (updateReceiver_next_events msg c0) as (a1 & Hev1 & Hr1 & Hall1).
      destruct (IH (updateReceiver_next msg c0).2) as (a2 & Hev2 & Hr2 & Hall2).
      exists (ServiceReceive msg :: a1 ++ a2).
      rewrite Hev2, Hev1, <- app_assoc. simpl. split; [done|].
      rewrite omap_app, Hr1, Hr2, forallb_app, Hall1, Hall2. done. }
  destruct (Hitems (items stream) c) as (added & Hev & Hrecv & Hall).
  destruct (ending stream) as [|err|].
  - by exists added.
  - exists (added ++ [RevupLost err]). simpl. rewrite Hev, <- app_assoc.
    split; [done|]. rewrite omap_app, Hrecv, forallb_app, Hall. simpl.
    by rewrite app_nil_r.
  - by exists added.
Qed.

Lemma forEach_emit {A} (l : list A) (f : A → Event) (c : Clone) :
  (forEach l (λ a, emit (f a)) c).2
  = {| messageService := messageService c;
       orderingBuffer := orderingBuffer c;
       events := events c ++ map f l |}.
Proof.
  revert c. induction l as [|a l IH]; intros c; simpl.
  - rewrite app_nil_r. by destruct c.
  - rewrite seq_run, IH. simpl. by rewrite <- app_assoc.
Qed.

(** C9. A clone that finds a clock in its store, and whose clock has been
    forked, asks the remotes for a rev-up from its last hash.  When the
    remotes return a stream, every operation of the stream is passed to the
    message service, in order, and no snapshot is requested.  When they
    return nothing, the clone requests a snapshot, delivers it through the
    message service and applies it, and then receives the updates that came
    with it. *)
Theorem initialise_revup_or_snapshot (dataset : Dataset) (remotes : Remotes)
    (time : Time) :
  loadClock dataset = Some time → isId time = false →
  let log := events (initialise dataset remotes) in
  let hash := lastHash dataset in
  let flushed := map UpdateSourceNext (unsentLocalOperations dataset) in
  match revupFrom remotes hash with
  | Some revup =>
      ∃ received,
        log = flushed ++ [UpdatesSubscribed; RemotesRevupFrom hash]
                ++ received ++ [RemotesConnect]
        ∧ omap isReceive received = items revup
        ∧ forallb isReceiving received = true
        ∧ RemotesSnapshot ∉ log
  | None =>
      let snap := snapshot remotes in
      ∃ received,
        log = flushed
                ++ [UpdatesSubscribed; RemotesRevupFrom hash; RemotesSnapshot;
                    ServiceDeliver (SnapshotMsg (snap_time snap));
                    DatasetApplySnapshot snap (join time (snap_time snap))]
                ++ received ++ [RemotesConnect]
        ∧ omap isReceive received = items (snap_updates snap)
        ∧ forallb isReceiving received = true
  end.
Proof.
  intros Hclock Hforked log hash flushed. subst log.
  unfold initialise. rewrite Hclock. unfold initialised.
  rewrite seq_run, forEach_emit. simpl events. rewrite Hforked.
  rewrite !seq_run. fold hash flushed.
  destruct (revupFrom remotes hash) as [revup|] eqn:Hrevup.
  - destruct (subscribeRevups_events revup
                (emit (RemotesRevupFrom hash)
                   (emit UpdatesSubscribed
                      {| messageService := time; orderingBuffer := [];
                         events := flushed |}).2).2)
      as (received & Hev & Hrecv & Hall).
    exists received. rewrite emit_events, Hev. simpl.
    rewrite <- !app_assoc. simpl. repeat split; try done.
    intros Hin.
    rewrite elem_of_app, !elem_of_cons, elem_of_app, list_elem_of_singleton in Hin.
    destruct Hin as [Hin|[Hin|[Hin|[Hin|Hin]]]]; try discriminate.
    + apply list_elem_of_fmap in Hin as (entry & Heq & _). discriminate.
    + rewrite forallb_forall in Hall.
      apply list_elem_of_In, Hall in Hin. discriminate.
  - unfold requestSnapshot, service_deliver, deliverNow. rewrite !seq_run.
    simpl orderingBuffer. simpl drain.
    match goal with
    | |- context [subscribeRevups ?stream ?c] =>
        destruct (subscribeRevups_events stream c) as (received & Hev & Hrecv & Hall)
    end.
    exists received. rewrite emit_events, Hev. simpl.
    rewrite <- !app_assoc. simpl. by repeat split.
Qed.

End Facts.

Lemma initialise_revup_or_snapshot_witness :
  (∃ received,
      events (initialise RefClone.restarted RefClone.capablePeer)
      = [UpdatesSubscribed; RemotesRevupFrom (lastHash RefClone.restarted)]
          ++ received ++ [RemotesConnect]
      ∧ omap isReceive received
        = [RefClone.insertOf 1 "fred"; RefClone.insertOf 2 "barney"]
      ∧ forallb isReceiving received = true
      ∧ RemotesSnapshot ∉ events (initialise RefClone.restarted RefClone.capablePeer))
  ∧ (∃ received,
        events (initialise RefClone.restarted RefClone.incapablePeer)
        = [UpdatesSubscribed; RemotesRevupFrom (lastHash RefClone.restarted);
           RemotesSnapshot;
           ServiceDeliver (SnapshotMsg (snap_time RefClone.peerSnapshot));
           DatasetApplySnapshot RefClone.peerSnapshot
             (join RefClone.cloneTime (snap_time RefClone.peerSnapshot))]
            ++ received ++ [RemotesConnect]
        ∧ omap isReceive received = [RefClone.insertOf 3 "wilma"]
        ∧ forallb isReceiving received = true).
Proof.
  split.
  - exact (initialise_revup_or_snapshot RefClone.restarted RefClone.capablePeer
             RefClone.cloneTime eq_refl eq_refl).
  - exact (initialise_revup_or_snapshot RefClone.restarted RefClone.incapablePeer
             RefClone.cloneTime eq_refl eq_refl).
Defined.

End DatasetCloneProps.

Module SuSetProps.
Import Js SuSet.

Lemma tidsOf_withdraw (g : gmap Triple (gset Tid)) (reified : Triple * Tid)
    (triple : Triple) (tid : Tid) :
  tid ∈ tidsOf (withdraw g reified) triple
  ↔ tid ∈ tidsOf g triple ∧ (triple, tid) ≠ reified.
Proof.
  destruct reified as [t0 tid0]. unfold withdraw, tidsOf. simpl.
  destruct (decide (triple = t0)) as [->|Hne].
  - destruct (decide (default ∅ (g !! t0) ∖ {[tid0]} = ∅)) as [Hempty|Hsome].
    + rewrite lookup_delete_eq. simpl. split; [set_solver|].
      intros [Hin Hneq]. assert (tid ≠ tid0) by congruence. set_solver.
    + rewrite lookup_insert_eq. simpl. rewrite elem_of_difference.
      rewrite not_elem_of_singleton. split; intros [Hin Hneq]; split; try done;
        congruence.
  - destruct (decide (default ∅ (g !! t0) ∖ {[tid0]} = ∅)).
    + rewrite lookup_delete_ne by done. split; [|tauto].
      intros Hin. split; [done | congruence].
    + rewrite lookup_insert_ne by done. split; [|tauto].
      intros Hin. split; [done | congruence].
Qed.

Lemma tidsOf_assertTid (g : gmap Triple (gset Tid)) (reified : Triple * Tid)
    (triple : Triple) (tid : Tid) :
  tid ∈ tidsOf (assertTid g reified) triple
  ↔ tid ∈ tidsOf g triple ∨ (triple, tid) = reified.
Proof.
  destruct reified as [t0 tid0]. unfold assertTid, tidsOf. simpl.
  destruct (decide (triple = t0)) as [->|Hne].
  - rewrite lookup_insert_eq. simpl. rewrite elem_of_union, elem_of_singleton.
    split; intros [Hin|Heq]; auto; [right; congruence | right; congruence].
  - rewrite lookup_insert_ne by done. split; [tauto|].
    intros [Hin|Heq]; [done | congruence].
Qed.

Lemma tidsOf_withdrawn (deletes : list (Triple * Tid))
    (g : gmap Triple (gset Tid)) (triple : Triple) (tid : Tid) :
  tid ∈ tidsOf (fold_left withdraw deletes g) triple
  ↔ tid ∈ tidsOf g triple ∧ (triple, tid) ∉ deletes.
Proof.
  revert g. induction deletes as [|r deletes IH]; intros g; simpl.
  - split; [|tauto]. intros Hin. split; [done | apply not_elem_of_nil].
  - rewrite IH, tidsOf_withdraw, not_elem_of_cons. tauto.
Qed.

Lemma tidsOf_asserted (inserts : list (Triple * Tid))
    (g : gmap Triple (gset Tid)) (triple : Triple) (tid : Tid) :
  tid ∈ tidsOf (fold_left assertTid inserts g) triple
  ↔ tid ∈ tidsOf g triple ∨ (triple, tid) ∈ inserts.
Proof.
  revert g. induction inserts as [|r inserts IH]; intros g; simpl.
  - split; [tauto|]. intros [Hin|Hin]; [done | by apply elem_of_nil in Hin].
  - rewrite IH, tidsOf_assertTid, elem_of_cons. tauto.
Qed.

(** The TIDs of a triple after a patch: those inserted, and those that were
    there and are not deleted. *)
Lemma tidsOf_patched (g : gmap Triple (gset Tid))
    (deletes inserts : list (Triple * Tid)) (triple : Triple) (tid : Tid) :
  tid ∈ tidsOf (patched g deletes inserts) triple
  ↔ (triple, tid) ∈ inserts ∨ (tid ∈ tidsOf g triple ∧ (triple, tid) ∉ deletes).
Proof. unfold patched. rewrite tidsOf_asserted, tidsOf_withdrawn. tauto. Qed.

Lemma present_iff (g : gmap Triple (gset Tid)) (triple : Triple) :
  present g triple = true ↔ ∃ tid, tid ∈ tidsOf g triple.
Proof.
  unfold present. rewrite bool_decide_eq_true. split.
  - intros Hne. apply set_choose_L in Hne. exact Hne.
  - intros [tid Hin]. set_solver.
Qed.

Lemma cut_inserts (gwc : gmap string Z) (op : Operation) (reified : Triple * Tid) :
  reified ∈ op_inserts (cut gwc op)
  ↔ reified ∈ op_inserts op ∧ reflected gwc reified.2 = false.
Proof. unfold cut. simpl. rewrite list_elem_of_filter. tauto. Qed.

Lemma isEmpty_spec (op : Operation) :
  isEmpty op = true ↔ op_deletes op = [] ∧ op_inserts op = [].
Proof.
  unfold isEmpty. destruct (op_deletes op), (op_inserts op); split; try done;
    by intros [? ?].
Qed.

(** The graph after applying an operation that is not a duplicate. *)
Lemma apply_graph (d : Dataset) (op : Operation) (triple : Triple) (tid : Tid) :
  isDuplicate (gwc d) op = false →
  tid ∈ tidsOf (graph (apply d op).2) triple
  ↔ ((triple, tid) ∈ op_inserts op ∧ reflected (gwc d) tid = false)
    ∨ (tid ∈ tidsOf (graph d) triple ∧ (triple, tid) ∉ op_deletes op).
Proof.
  intros Hdup. unfold apply.
  destruct (isEmpty op) eqn:Hnone; simpl.
  { apply isEmpty_spec in Hnone as [-> ->]. split.
    - intros Hin. right. split; [done | apply not_elem_of_nil].
    - intros [[Hin _]|[Hin _]]; [by apply elem_of_nil in Hin | done]. }
  rewrite Hdup.
  destruct (isEmpty (cut (gwc d) op)) eqn:Hempty; simpl.
  - apply isEmpty_spec in Hempty as [Hdel Hins]. simpl in Hdel. rewrite Hdel.
    split.
    + intros Hin. right. split; [done | apply not_elem_of_nil].
    + intros [[Hin Hrefl]|[Hin _]]; [|done].
      assert (Hcut : (triple, tid) ∈ op_inserts (cut (gwc d) op))
        by (apply cut_inserts; done).
      rewrite Hins in Hcut. by apply elem_of_nil in Hcut.
  - rewrite tidsOf_patched. simpl. rewrite list_elem_of_filter. simpl. tauto.
Qed.

Lemma ticksOf_update (t other : Time) (process : string) :
  ticksOf (seen (update t other)) process
  = Z.max (ticksOf (seen t) process) (ticksOf (seen other) process)
  ∨ (seen t !! process = None ∧ ticksOf (seen (update t other)) process
                                 = ticksOf (seen other) process)
  ∨ (seen other !! process = None ∧ ticksOf (seen (update t other)) process
                                     = ticksOf (seen t) process).
Proof.
  unfold ticksOf, update. simpl. rewrite lookup_union_with.
  destruct (seen t !! process), (seen other !! process); simpl; auto.
Qed.

(** Joining and ticking never loses what the other clock has seen. *)
Lemma joined_includes (t other : Time) (process : string) (n : Z) :
  seen other !! process = Some n →
  ∃ m, seen (ticked (update t other)) !! process = Some m ∧ (n ≤ m)%Z.
Proof.
  intros Hother. unfold ticked. simpl.
  assert (Hjoin : ∃ k, union_with (λ n m, Some (Z.max n m)) (seen t) (seen other)
                       !! process = Some k ∧ (n ≤ k)%Z).
  { rewrite lookup_union_with, Hother.
    destruct (seen t !! process) as [k|]; simpl; eexists; split; try done; lia. }
  destruct Hjoin as (k & Hk & Hle).
  destruct (decide (owner t = process)) as [<-|Hne].
  - rewrite lookup_insert_eq. eexists. split; [done|].
    unfold ticks, ticksOf. simpl. rewrite Hk. simpl. lia.
  - rewrite lookup_insert_ne by done. eauto.
Qed.

(** C1. Applying a fusion that the local dataset has seen in part: an
    incoming insert whose TID the GWC reflects is withdrawn, so that it adds
    nothing to what the graph holds; a triple that is absent, its TID having
    been deleted, stays absent when all the fusion's inserts of it are
    reflected; an insert whose TID the GWC does not reflect is applied. *)
Theorem apply_cuts_stale_inserts (d : Dataset) (op : Operation) :
  isDuplicate (gwc d) op = false →
  let after := graph (apply d op).2 in
  (∀ triple tid,
      (triple, tid) ∈ op_inserts op → reflected (gwc d) tid = true →
      (tid ∈ tidsOf after triple
       ↔ tid ∈ tidsOf (graph d) triple ∧ (triple, tid) ∉ op_deletes op))
  ∧ (∀ triple,
        present (graph d) triple = false →
        (∀ tid, (triple, tid) ∈ op_inserts op → reflected (gwc d) tid = true) →
        present after triple = false)
  ∧ (∀ triple tid,
        (triple, tid) ∈ op_inserts op → reflected (gwc d) tid = false →
        tid ∈ tidsOf after triple ∧ present after triple = true).
Proof.
  intros Hdup after. subst after. split; [|split].
  - intros triple tid Hin Hrefl. rewrite apply_graph by done.
    split; [|tauto]. intros [[_ Hno]|Hkept]; [congruence | done].
  - intros triple Habsent Hall. apply not_true_is_false. intros Hpresent.
    apply present_iff in Hpresent as [tid Htid].
    rewrite apply_graph in Htid by done.
    destruct Htid as [[Hin Hno]|[Hwas _]].
    + specialize (Hall tid Hin). congruence.
    + apply not_true_iff_false in Habsent. apply Habsent, present_iff. eauto.
  - intros triple tid Hin Hno.
    assert (Htid : tid ∈ tidsOf (graph (apply d op).2) triple)
      by (apply apply_graph; auto).
    split; [done|]. apply present_iff. eauto.
Qed.

Lemma apply_cuts_stale_inserts_witness :
  present (graph SuSetSample.afterThird) SuSetSample.wilma = false
  ∧ present (graph (apply SuSetSample.afterThird SuSetSample.fusion).2)
      SuSetSample.wilma = false
  ∧ present (graph (apply SuSetSample.afterThird SuSetSample.fusion).2)
      SuSetSample.barney = true.
Proof.
  assert (Hdup : isDuplicate (gwc SuSetSample.afterThird) SuSetSample.fusion = false)
    by (vm_compute; reflexivity).
  assert (Hgone : present (graph SuSetSample.afterThird) SuSetSample.wilma = false)
    by (vm_compute; reflexivity).
  destruct (apply_cuts_stale_inserts SuSetSample.afterThird SuSetSample.fusion Hdup)
    as (_ & Habsent & Hnew).
  split; [exact Hgone|]. split.
  - apply Habsent; [exact Hgone|].
    intros tid Hin. apply elem_of_cons in Hin as [Heq|Hin].
    + injection Heq as ->. vm_compute. reflexivity.
    + apply list_elem_of_singleton in Hin. discriminate.
  - apply (Hnew SuSetSample.barney {| tid_process := "remote"; tid_tick := 2 |}).
    + apply elem_of_cons. right. apply list_elem_of_singleton. reflexivity.
    + vm_compute. reflexivity.
Defined.

(** C2. A local transaction whose patch resolves to no deletes and no
    inserts, and a remote operation without deletes and inserts, commit no
    journal entry and emit no update, and result in no message; the graph is
    as before.  After the remote one the local clock is the join with the
    operation's time, ticked, which has seen all that the operation's time
    has. *)
Theorem noop_commits_nothing (encodedSize : Operation → nat) (d : Dataset)
    (patch : Patch) (op : Operation) :
  resolved (graph d) (patch_delete patch) = [] → patch_insert patch = [] →
  op_deletes op = [] → op_inserts op = [] →
  transact encodedSize d patch = (Ok None, d)
  ∧ (apply d op).1 = None
  ∧ journal (apply d op).2 = journal d
  ∧ emitted (apply d op).2 = emitted d
  ∧ published (apply d op).2 = published d
  ∧ graph (apply d op).2 = graph d
  ∧ time (apply d op).2 = ticked (update (time d) (op_time op))
  ∧ ∀ process n,
      seen (op_time op) !! process = Some n →
      ∃ m, seen (time (apply d op).2) !! process = Some m ∧ (n ≤ m)%Z.
Proof.
  intros Hdel Hins Hopdel Hopins.
  assert (Hnone : isEmpty op = true) by (apply isEmpty_spec; done).
  split.
  - unfold transact, encoded, written, isEmpty. simpl. by rewrite Hdel, Hins.
  - unfold apply. rewrite Hnone. simpl. repeat split; try done.
    intros process n Hseen. by apply joined_includes.
Qed.

Lemma noop_commits_nothing_witness :
  transact SuSetSample.packedSize SuSetSample.withFred SuSetSample.nothing
  = (Ok None, SuSetSample.withFred)
  ∧ (apply SuSetSample.withFred SuSetSample.noop).1 = None
  ∧ journal (apply SuSetSample.withFred SuSetSample.noop).2
    = journal SuSetSample.withFred
  ∧ emitted (apply SuSetSample.withFred SuSetSample.noop).2
    = emitted SuSetSample.withFred.
Proof.
  destruct (noop_commits_nothing SuSetSample.packedSize SuSetSample.withFred
              SuSetSample.nothing SuSetSample.noop)
    as (Hlocal & Hmsg & Hjournal & Hemitted & _).
  - vm_compute. reflexivity.
  - reflexivity.
  - reflexivity.
  - reflexivity.
  - repeat split; assumption.
Defined.

(** C3. On a dataset with a [maxOperationSize], a local transaction whose
    encoded operation is larger than the limit aborts with
    [OperationSizeExceeded], and the dataset is as it was: no journal entry,
    no published message, the same graph.  Within the limit the operation is
    committed and published. *)
Theorem transact_enforces_size (encodedSize : Operation → nat) (d : Dataset)
    (patch : Patch) (op : Operation) (limit : nat) :
  maxOperationSize d = Some limit →
  encoded d patch = Some op →
  (limit < encodedSize op →
   ∃ msg,
     transact encodedSize d patch = (Throw (MeldError "OperationSizeExceeded" msg), d))
  ∧ (encodedSize op ≤ limit →
     (transact encodedSize d patch).1 = Ok (Some op)
     ∧ journal (transact encodedSize d patch).2
       = journal d ++ [{| entry_prev := ticksOf (gwc d) (owner (op_time op));
                          entry_operation := op |}]
     ∧ published (transact encodedSize d patch).2 = published d ++ [op]).
Proof.
  intros Hlimit Hop. unfold transact. rewrite Hop, Hlimit. simpl. split.
  - intros Hlarge. apply Nat.ltb_lt in Hlarge. rewrite Hlarge. eauto.
  - intros Hsmall. apply Nat.ltb_ge in Hsmall. rewrite Hsmall. done.
Qed.

Lemma transact_enforces_size_witness :
  ∃ msg,
    transact SuSetSample.packedSize (SuSetSample.started (Some 1))
      SuSetSample.insertFred
    = (Throw (MeldError "OperationSizeExceeded" msg), SuSetSample.started (Some 1)).
Proof.
  destruct (transact_enforces_size SuSetSample.packedSize
              (SuSetSample.started (Some 1)) SuSetSample.insertFred
              (written (SuSetSample.started (Some 1))
                 (ticked (time (SuSetSample.started (Some 1))))
                 SuSetSample.insertFred) 1 eq_refl eq_refl)
    as [Hlarge _].
  apply Hlarge. vm_compute. lia.
Defined.

(** Scenario 5 of the specification, the stale cut: after the remote's
    insert of Wilma and a third clone's delete of it, the remote's fusion of
    Wilma and Barney leaves Wilma absent and makes Barney present; four
    entries are in the journal and four updates were emitted. *)
Example stale_cut_scenario :
  map (present (graph SuSetSample.afterOne))
    [SuSetSample.fred; SuSetSample.wilma; SuSetSample.barney] = [true; true; false]
  ∧ map (present (graph SuSetSample.afterThird))
      [SuSetSample.fred; SuSetSample.wilma; SuSetSample.barney] = [true; false; false]
  ∧ map (present (graph SuSetSample.afterFusion))
      [SuSetSample.fred; SuSetSample.wilma; SuSetSample.barney] = [true; false; true]
  ∧ length (journal SuSetSample.afterFusion) = 4
  ∧ length (emitted SuSetSample.afterFusion) = 4.
Proof. repeat split; vm_compute; reflexivity. Qed.

End SuSetProps.

Module MeldEncodingExamples.
Import Js MeldEncoding.

(** The decoder also reads JSON text, alone or compressed, and rejects an
    encoding it does not know with a "Bad update" error. *)
Example jsonFromBuffer_json_text :
  jsonFromBuffer (String.list_byte_of_string "[2, 1, true]") [JSON]
  = Ok (VJson (JArray [JNumber 2; JNumber 1; JBool true]))
  ∧ jsonFromBuffer (gzipSync (String.list_byte_of_string "[2, 1, true]")) [JSON; GZIP]
    = Ok (VJson (JArray [JNumber 2; JNumber 1; JBool true])).
Proof. split; vm_compute; reflexivity. Qed.

Example jsonFromBuffer_unrecognised (encoded : Buffer) :
  jsonFromBuffer encoded [MSGPACK; Unrecognised "brotli"]
  = Throw (MeldError "Bad update" "Unrecognised encoding brotli").
Proof. reflexivity. Qed.

(** The large reference value is compressed; the small one is not. *)
Example bufferFromJson_reference :
  (bufferFromJson RefCodec.fredJson).2 = [MSGPACK]
  ∧ length (MsgPack_encode RefCodec.largeJson) = 4003
  ∧ (bufferFromJson RefCodec.largeJson).2 = [MSGPACK; GZIP].
Proof. repeat split; vm_compute; reflexivity. Qed.

End MeldEncodingExamples.

Module MLdProps.
Import MLd.

(** X22. [matchRdflseqPosId] reads back exactly what [rdflseqPosId] writes:
    it answers the position identifier [id] for a predicate if and only if
    the predicate is [rdflseqPosId id], and [undefined] for every other
    predicate. *)
Theorem matchRdflseqPosId_iff (predicate id : string) :
  matchRdflseqPosId predicate = Some id ↔ predicate = rdflseqPosId id.
Proof.
  unfold matchRdflseqPosId, rdflseqPosId. split.
  - destruct (String.prefix rdflseqPosIdPre predicate) eqn:Hpre; [|done].
    intros [= <-]. symmetry. by apply ReificationProps.prefix_slice.
  - intros ->. rewrite JournalProps.prefix_append. f_equal.
    apply (JournalProps.append_inj_l rdflseqPosIdPre).
    apply ReificationProps.prefix_slice, JournalProps.prefix_append.
Qed.

End MLdProps.

Module UtilProps.
Import Util.

Lemma toInt32_range (x : Z) : (- 2 ^ 31 ≤ toInt32 x < 2 ^ 31)%Z.
Proof.
  unfold toInt32. pose proof (Z.mod_pos_bound x (2 ^ 32) ltac:(lia)).
  destruct (Z.ltb_spec (x mod 2 ^ 32) (2 ^ 31)); lia.
Qed.

Lemma toInt32_congr (a b k : Z) : (a = b + k * 2 ^ 32)%Z → toInt32 a = toInt32 b.
Proof. intros ->. unfold toInt32. by rewrite Z_mod_plus_full. Qed.

Lemma toInt32_wraps (x : Z) : ∃ k, (toInt32 x = x + k * 2 ^ 32)%Z.
Proof.
  unfold toInt32. pose proof (Z.div_mod x (2 ^ 32) ltac:(lia)) as Hdm.
  destruct (Z.ltb_spec (x mod 2 ^ 32) (2 ^ 31)).
  - exists (- (x / 2 ^ 32))%Z. lia.
  - exists (- (x / 2 ^ 32) - 1)%Z. lia.
Qed.

Lemma hashStep_wraps (H : Z) (char : Z) :
  hashStep (toInt32 H) char = toInt32 (31 * H + charCodeAt0 char).
Proof.
  unfold hashStep. rewrite Z.land_diag, Z.shiftl_mul_pow2 by lia.
  destruct (toInt32_wraps H) as [k Hk].
  destruct (toInt32_wraps (toInt32 H)) as [k1 Hk1].
  destruct (toInt32_wraps (toInt32 (toInt32 H) * 2 ^ 5)) as [k2 Hk2].
  apply (toInt32_congr _ _ (32 * k1 + k2 + 31 * k)). lia.
Qed.

Lemma hashCode_wraps (spec : list Z) (H : Z) :
  fold_left hashStep spec (toInt32 H)
  = toInt32 (fold_left (λ h char, 31 * h + charCodeAt0 char)%Z spec H).
Proof.
  revert H; induction spec as [|char spec IH]; intros H; simpl; [done|].
  by rewrite hashStep_wraps, IH.
Qed.

(** X24. The hash that [shortId] folds over a string with the shift, the
    subtraction and the [hash & hash] of each step is the polynomial hash
    with multiplier 31 over the first UTF-16 code units of the string's code
    points, wrapped to a signed 32-bit integer once at the end. *)
Theorem shortId_hash_polynomial (spec : list Z) :
  fold_left hashStep spec 0%Z
  = toInt32 (fold_left (λ h char, 31 * h + charCodeAt0 char)%Z spec 0%Z).
Proof. exact (hashCode_wraps spec 0). Qed.

Lemma digitChar_hex (d : N) : (d < 16)%N → isHexDigit (TickKey.digitChar d) = true.
Proof.
  intros Hd. unfold isHexDigit.
  rewrite TickKeyProps.digitChar_code by (unfold TickKey.TICK_KEY_RADIX; lia).
  destruct (N.ltb_spec d 10);
    repeat match goal with
           | |- context [(?a <=? ?b)%N] => destruct (N.leb_spec a b); try lia
           end; reflexivity.
Qed.

Lemma allChars_app (P : ascii → bool) (s t : string) :
  allChars P (s +:+ t) = allChars P s && allChars P t.
Proof. induction s as [|c s IH]; simpl; [done|]. by rewrite IH, andb_assoc. Qed.

Lemma toStringRadix_hex (fuel : nat) : ∀ (n : N) (acc : string) (k : nat),
  (n < 16 ^ N.of_nat (S k))%N →
  ∃ c digits,
    toStringRadix 16 (S fuel) n acc = String c digits +:+ acc
    ∧ isHexDigit c = true
    ∧ allChars isHexDigit digits = true
    ∧ String.length digits ≤ k.
Proof.
  induction fuel as [|fuel IH]; intros n acc k Hn.
  - exists (TickKey.digitChar (n mod 16)), EmptyString. simpl.
    repeat split; [by destruct (n / 16 =? 0)%N| |lia].
    apply digitChar_hex, N.mod_lt. lia.
  - change (toStringRadix 16 (S (S fuel)) n acc)
      with (if (n / 16 =? 0)%N then String (TickKey.digitChar (n mod 16)) acc
            else toStringRadix 16 (S fuel) (n / 16)
                   (String (TickKey.digitChar (n mod 16)) acc)).
    destruct (N.eqb_spec (n / 16) 0) as [Hq|Hq].
    + exists (TickKey.digitChar (n mod 16)), EmptyString. simpl.
      repeat split; [|lia]. apply digitChar_hex, N.mod_lt. lia.
    + destruct k as [|k].
      { exfalso. apply Hq, N.div_small. simpl in Hn. lia. }
      assert (Hn' : (n / 16 < 16 ^ N.of_nat (S k))%N).
      { apply N.Div0.div_lt_upper_bound.
        rewrite <- N.pow_succ_r', <- Nat2N.inj_succ. exact Hn. }
      destruct (IH (n / 16)%N (String (TickKey.digitChar (n mod 16)) acc) k Hn')
        as (c & digits & -> & Hc & Hdigits & Hlen).
      exists c, (digits +:+ String (TickKey.digitChar (n mod 16)) EmptyString).
      repeat split; [| exact Hc | |].
      * simpl. f_equal. by rewrite TickKeyProps.append_assoc.
      * rewrite allChars_app, Hdigits. simpl.
        rewrite digitChar_hex; [done|]. apply N.mod_lt. lia.
      * rewrite TickKeyProps.append_length. simpl. lia.
Qed.

Lemma hashCode_range (spec : list Z) :
  (- 2 ^ 31 ≤ fold_left hashStep spec 0 < 2 ^ 31)%Z.
Proof.
  change 0%Z with (toInt32 0) at 1 2. rewrite hashCode_wraps.
  apply toInt32_range.
Qed.

(** X23. Whatever the string, [shortId] returns at most eight characters, of
    which the first is a letter from [a] to [j] and the others are
    hexadecimal digits: the identifier never starts with a digit, also for
    the empty string and for a hash of [-2^31]. *)
Theorem shortId_starts_with_letter (spec : list Z) :
  ∃ c rest,
    shortId spec = String c rest
    ∧ isLetterAtoJ c = true
    ∧ allChars isHexDigit rest = true
    ∧ String.length rest ≤ 7.
Proof.
  unfold shortId, toString16.
  pose proof (hashCode_range spec) as Hrange.
  set (n := Z.to_N (Z.abs (fold_left hashStep spec 0%Z))).
  assert (Hn : (n < 16 ^ N.of_nat 8)%N) by (subst n; simpl; lia).
  destruct (toStringRadix_hex (N.to_nat (N.log2 n)) n EmptyString 7 Hn)
    as (c & digits & -> & Hc & Hdigits & Hlen).
  assert (Hnil : ∀ s, s +:+ EmptyString = s).
  { intros s. induction s as [|a s IH]; simpl; congruence. }
  simpl. rewrite Hnil.
  unfold isHexDigit in Hc. unfold isLetterAtoJ.
  destruct (N.leb_spec (N_of_ascii c) 57) as [Hle|Hgt].
  - eexists _, digits. split; [reflexivity|].
    repeat split; [|exact Hdigits|exact Hlen].
    rewrite N_ascii_embedding by lia.
    repeat match goal with
           | H : context [(?a <=? ?b)%N] |- _ => destruct (N.leb_spec a b); try lia
           | |- context [(?a <=? ?b)%N] => destruct (N.leb_spec a b); try lia
           end; try reflexivity; discriminate.
  - exists c, digits. split; [reflexivity|].
    repeat split; [|exact Hdigits|exact Hlen].
    repeat match goal with
           | H : context [(?a <=? ?b)%N] |- _ => destruct (N.leb_spec a b); try lia
           | |- context [(?a <=? ?b)%N] => destruct (N.leb_spec a b); try lia
           end; try reflexivity; discriminate.
Qed.

Lemma omap_id_Some {T} (l : list T) : omap id (Some <$> l) = l.
Proof. induction l as [|a l IH]; simpl; [done|]. by f_equal. Qed.

(** X25. [array] keeps exactly the values that are present, and it is
    idempotent: normalising the array it returned gives the same array
    again, since no missing element is left in it. *)
Theorem array_idempotent {T} (value : Arg T) :
  array (Several (Some <$> array value)) = array value
  ∧ ∀ x, x ∈ array value ↔ Some x ∈ concatInto value.
Proof.
  split; [apply omap_id_Some|]. intros x.
  destruct value as [|v|vs]; simpl.
  - rewrite list_elem_of_singleton. split; [by intros ?%elem_of_nil | discriminate].
  - rewrite !list_elem_of_singleton. split; congruence.
  - rewrite list_elem_of_omap. split.
    + intros (o & Hin & Ho). simpl in Ho. by subst o.
    + intros Hin. by exists (Some x).
Qed.

End UtilProps.

Module QuadsProps.
Import Js Reification Quads.

Lemma caretFree_app (s t : string) :
  caretFree (s +:+ t) = caretFree s && caretFree t.
Proof. apply UtilProps.allChars_app. Qed.

(** The first field of a key ends at the first separator. *)
Lemma split_first (a a' r r' : string) :
  caretFree a = true → caretFree a' = true →
  a +:+ "^" +:+ r = a' +:+ "^" +:+ r' → a = a' ∧ r = r'.
Proof.
  revert a'; induction a as [|c a IH]; intros [|c' a'] Ha Ha' Heq; simpl in *.
  - by injection Heq as ->.
  - injection Heq as <- _. discriminate.
  - injection Heq as -> _. discriminate.
  - injection Heq as -> Heq.
    apply andb_prop in Ha as [_ Ha], Ha' as [_ Ha'].
    destruct (IH a' Ha Ha' Heq) as [-> ->]. done.
Qed.

(** The last field of a key starts after the last separator. *)
Lemma split_last (r r' l l' : string) :
  caretFree l = true → caretFree l' = true →
  r +:+ "^" +:+ l = r' +:+ "^" +:+ l' → r = r' ∧ l = l'.
Proof.
  intros Hl Hl'. revert r'; induction r as [|c r IH]; intros [|c' r'] Heq;
    simpl in *.
  - by injection Heq as ->.
  - injection Heq as <- Heq. exfalso. rewrite Heq in Hl.
    rewrite caretFree_app in Hl. simpl in Hl.
    apply andb_prop in Hl as [_ Hl]. discriminate.
  - injection Heq as -> Heq. exfalso. rewrite <- Heq in Hl'.
    rewrite caretFree_app in Hl'. simpl in Hl'.
    apply andb_prop in Hl' as [_ Hl']. discriminate.
  - injection Heq as -> Heq. destruct (IH r' Heq) as [-> ->]. done.
Qed.

Lemma tripleKey_parts (t : Triple) :
  ∃ rest,
    joinCaret (tripleKey t)
    = termValue (subject t) +:+ "^" +:+ termValue (predicate t) +:+ "^" +:+ rest
    ∧ rest = match object t with
             | Literal value language datatype =>
                 "Literal" +:+ "^" +:+ (value +:+ "^" +:+ datatype) +:+ "^" +:+ language
             | o => termType o +:+ "^" +:+ termValue o
             end.
Proof.
  unfold tripleKey, joinCaret. destruct (object t); simpl; eexists; split;
    try reflexivity.
  by rewrite !TickKeyProps.append_assoc.
Qed.

(** Keys of keyable triples determine the values of subject and predicate
    and the object. *)
Lemma tripleKey_determines (t1 t2 : Triple) :
  keyable t1 → keyable t2 →
  joinCaret (tripleKey t1) = joinCaret (tripleKey t2) →
  termValue (subject t1) = termValue (subject t2)
  ∧ termValue (predicate t1) = termValue (predicate t2)
  ∧ object t1 = object t2.
Proof.
  intros (Hs1 & Hp1 & Ho1) (Hs2 & Hp2 & Ho2) Heq.
  destruct (tripleKey_parts t1) as (rest1 & E1 & R1).
  destruct (tripleKey_parts t2) as (rest2 & E2 & R2).
  rewrite E1, E2 in Heq.
  apply split_first in Heq as [Hs Heq]; [|done|done].
  apply split_first in Heq as [Hp Heq]; [|done|done].
  split; [done|]. split; [done|]. rewrite R1, R2 in Heq. clear E1 E2 R1 R2.
  destruct (object t1) as [v1|v1|v1 l1 d1|v1], (object t2) as [v2|v2|v2 l2 d2|v2];
    simpl in Heq; try discriminate; try (by injection Heq as ->).
  destruct Ho1 as [Hl1 Hd1], Ho2 as [Hl2 Hd2]. injection Heq as Heq.
  apply split_last in Heq as [Heq ->]; [|done|done].
  apply split_last in Heq as [-> ->]; [|done|done].
  done.
Qed.

Lemma fresh_key (t : Triple) :
  (tripleIndexKey {| triple := t; _tik := None |}).1 = joinCaret (tripleKey t).
Proof. reflexivity. Qed.

(** X19. The index key tells keyable triples apart: when no value of
    subject or predicate, and no datatype or language of a literal object,
    holds the separator [^], two triples that have not been keyed before get
    the same [tripleIndexKey] only if their subjects and predicates have the
    same values and their objects are the same term. *)
Theorem tripleIndexKey_injective (t1 t2 : Triple) :
  keyable t1 → keyable t2 →
  (tripleIndexKey {| triple := t1; _tik := None |}).1
  = (tripleIndexKey {| triple := t2; _tik := None |}).1 →
  termValue (subject t1) = termValue (subject t2)
  ∧ termValue (predicate t1) = termValue (predicate t2)
  ∧ object t1 = object t2.
Proof. intros H1 H2 Heq. by apply tripleKey_determines. Qed.

Lemma tripleIndexKey_injective_witness :
  termValue (NamedNode "http://test.m-ld.org/fred")
  = termValue (NamedNode "http://test.m-ld.org/fred")
  ∧ termValue (NamedNode "http://test.m-ld.org/#name")
    = termValue (NamedNode "http://test.m-ld.org/#name")
  ∧ literal "2^10" = literal "2^10".
Proof.
  apply (tripleIndexKey_injective
           (quad (NamedNode "http://test.m-ld.org/fred")
                 (NamedNode "http://test.m-ld.org/#name") (literal "2^10"))
           (quad (NamedNode "http://test.m-ld.org/fred")
                 (NamedNode "http://test.m-ld.org/#name") (literal "2^10")));
    [repeat split; reflexivity | repeat split; reflexivity | reflexivity].
Defined.

(** X20. The index key does not tell all triples apart.  It joins the
    fields with [^] and does not escape them, so moving a [^] between the
    subject and the predicate gives two different triples with one key; and
    it leaves out the term type of the subject, so a triple about the blank
    node [b] and the triple about the IRI [b] have one key too. *)
Theorem tripleIndexKey_collides (a b c : string) (o : Term) :
  let key t := (tripleIndexKey {| triple := t; _tik := None |}).1 in
  let t1 := quad (NamedNode (a +:+ "^" +:+ b)) (NamedNode c) o in
  let t2 := quad (NamedNode a) (NamedNode (b +:+ "^" +:+ c)) o in
  t1 ≠ t2 ∧ key t1 = key t2
  ∧ key (quad (BlankNode a) (NamedNode c) o) = key (quad (NamedNode a) (NamedNode c) o).
Proof.
  intros key t1 t2. subst key t1 t2. cbv beta. rewrite !fresh_key.
  split; [|split].
  - intros [= Heq]. apply (f_equal String.length) in Heq.
    rewrite TickKeyProps.append_length in Heq. simpl in Heq. lia.
  - destruct (tripleKey_parts (quad (NamedNode (a +:+ "^" +:+ b)) (NamedNode c) o))
      as (r1 & -> & ->).
    destruct (tripleKey_parts (quad (NamedNode a) (NamedNode (b +:+ "^" +:+ c)) o))
      as (r2 & -> & ->).
    simpl. by rewrite !TickKeyProps.append_assoc.
  - unfold tripleKey. by destruct o.
Qed.

(** X21. The key of a quad tells keyable quads apart as well: with no [^]
    in the value of the graph, two quads that have not been keyed before get
    the same [quadIndexKey] only if their graphs have the same value and
    their triples agree as for [tripleIndexKey]. *)
Theorem quadIndexKey_injective (g1 g2 : Graph) (t1 t2 : Triple) :
  caretFree (graphValue g1) = true → caretFree (graphValue g2) = true →
  keyable t1 → keyable t2 →
  (quadIndexKey {| asTriple := {| triple := t1; _tik := None |};
                   graph := g1; _qik := None |}).1
  = (quadIndexKey {| asTriple := {| triple := t2; _tik := None |};
                     graph := g2; _qik := None |}).1 →
  graphValue g1 = graphValue g2
  ∧ termValue (subject t1) = termValue (subject t2)
  ∧ termValue (predicate t1) = termValue (predicate t2)
  ∧ object t1 = object t2.
Proof.
  intros Hg1 Hg2 H1 H2 Heq. simpl in Heq.
  apply split_first in Heq as [Hg Heq]; [|done|done].
  split; [done|]. by apply tripleKey_determines.
Qed.

Lemma quadIndexKey_injective_witness :
  graphValue DefaultGraph = graphValue DefaultGraph
  ∧ termValue (NamedNode "http://test.m-ld.org/fred")
    = termValue (NamedNode "http://test.m-ld.org/fred")
  ∧ termValue (NamedNode "http://test.m-ld.org/#name")
    = termValue (NamedNode "http://test.m-ld.org/#name")
  ∧ literal "Fred" = literal "Fred".
Proof.
  apply (quadIndexKey_injective DefaultGraph DefaultGraph
           (quad (NamedNode "http://test.m-ld.org/fred")
                 (NamedNode "http://test.m-ld.org/#name") (literal "Fred"))
           (quad (NamedNode "http://test.m-ld.org/fred")
                 (NamedNode "http://test.m-ld.org/#name") (literal "Fred")));
    [reflexivity | reflexivity | repeat split; reflexivity
    | repeat split; reflexivity | reflexivity].
Defined.

End QuadsProps.

Module JournalKeyProps.
Import TickKey TickKeyProps Journal JournalWrites.

Lemma compare_refl (s : string) : String.compare s s = Eq.
Proof.
  induction s as [|c s IH]; simpl; [done|]. by rewrite ascii_compare_refl.
Qed.

Lemma str_lt_irrefl (s : string) : ¬ str_lt s s.
Proof. unfold str_lt. by rewrite compare_refl. Qed.

Lemma str_lt_asym (s t : string) : str_lt s t → ¬ str_lt t s.
Proof.
  unfold str_lt. intros Hst Hts. rewrite String.compare_antisym, Hts in Hst.
  discriminate.
Qed.

Lemma tickKey_fixed (n : N) :
  (n < 36 ^ 8)%N → tickKey n = "_qs:tick:" +:+ fixedDigits 8 n.
Proof. intros Hn. unfold tickKey. by rewrite (paddedTick_fixed n Hn). Qed.

Lemma tickKey_lt (a b : N) :
  (a < b)%N → (b < 36 ^ 8)%N → str_lt (tickKey a) (tickKey b).
Proof.
  intros Hab Hb. rewrite !tickKey_fixed by lia.
  unfold str_lt. rewrite compare_app_same. by apply fixedDigits_lt.
Qed.

Lemma tickKey_lt_inv (a b : N) :
  (a < 36 ^ 8)%N → (b < 36 ^ 8)%N → str_lt (tickKey a) (tickKey b) → (a < b)%N.
Proof.
  intros Ha Hb Hlt. destruct (N.lt_trichotomy a b) as [?|[->|Hgt]]; [done| |].
  - by apply str_lt_irrefl in Hlt.
  - exfalso. apply (str_lt_asym _ _ Hlt). by apply tickKey_lt.
Qed.

Lemma tickKey_inj (a b : N) :
  (a < 36 ^ 8)%N → (b < 36 ^ 8)%N → tickKey a = tickKey b → a = b.
Proof.
  intros Ha Hb Heq. destruct (N.lt_trichotomy a b) as [Hlt|[?|Hlt]]; [|done|];
    apply tickKey_lt in Hlt; try done; rewrite Heq in Hlt;
    by apply str_lt_irrefl in Hlt.
Qed.

Lemma fixedDigits_head (k : nat) (n : N) :
  ∃ d rest, (d < 36)%N ∧ fixedDigits (S k) n = String (digitChar d) rest.
Proof.
  revert n; induction k as [|k IH]; intros n.
  - exists (n mod TICK_KEY_RADIX)%N, EmptyString. split; [|done].
    apply N.mod_lt. discriminate.
  - destruct (IH (n / TICK_KEY_RADIX)%N) as (d & rest & Hd & Heq).
    exists d, (rest +:+ String (digitChar (n mod TICK_KEY_RADIX)) EmptyString).
    split; [done|]. change (fixedDigits (S (S k)) n)
      with (fixedDigits (S k) (n / TICK_KEY_RADIX)
            +:+ String (digitChar (n mod TICK_KEY_RADIX)) EmptyString).
    by rewrite Heq.
Qed.

Lemma tickKey_inTickRange (n : N) : (n < 36 ^ 8)%N → inTickRange (tickKey n).
Proof.
  intros Hn. rewrite tickKey_fixed by done.
  destruct (fixedDigits_head 7 n) as (d & rest & Hd & ->).
  pose proof (digitChar_code d Hd) as Hcode.
  unfold inTickRange, str_lt, TICK_KEY_MIN, TICK_KEY_MAX.
  change "_qs:tick:!" with ("_qs:tick:" +:+ "!").
  change "_qs:tick:~" with ("_qs:tick:" +:+ "~").
  rewrite !compare_app_same. simpl. unfold Ascii.compare. rewrite Hcode.
  destruct (N.ltb_spec d 10); split.
  all: match goal with
       | |- match ?c with _ => _ end = _ =>
           let E := fresh in
           assert (E : c = Lt) by (apply N.compare_lt_iff; simpl; lia);
           by rewrite E
       end.
Qed.

Lemma inTickRange_apart (key : string) :
  inTickRange key →
  key ≠ JOURNAL_KEY ∧ ∀ tid, key ≠ tidEntryKey tid ∧ key ≠ tidOpKey tid.
Proof.
  intros [Hmin Hmax]. split; [|intros tid; split]; intros ->.
  - vm_compute in Hmin. discriminate.
  - unfold str_lt, tidEntryKey in Hmax. simpl in Hmax. discriminate.
  - unfold str_lt, tidOpKey in Hmin. simpl in Hmin. discriminate.
Qed.

Lemma tickKey_not_tid (tick : N) (tid : string) :
  tickKey tick ≠ tidEntryKey tid ∧ tickKey tick ≠ tidOpKey tid.
Proof. unfold tickKey, tidEntryKey, tidOpKey. split; intros [=]. Qed.

(** X1. The keys of the journal do not meet.  Every tick below [36^8] has
    a key of its own, strictly between the two bounds [TICK_KEY_MIN] and
    [TICK_KEY_MAX] that [entryAfter] reads between, while the key of the
    journal state and the keys of entries and operations by TID lie outside
    these bounds and differ from each other: a read of the entries by tick
    never returns another kind of record. *)
Theorem journal_keys_apart :
  (∀ tick, (tick < 36 ^ 8)%N → inTickRange (tickKey tick))
  ∧ (∀ a b, (a < 36 ^ 8)%N → (b < 36 ^ 8)%N → tickKey a = tickKey b → a = b)
  ∧ (∀ key, inTickRange key →
            key ≠ JOURNAL_KEY
            ∧ ∀ tid, key ≠ tidEntryKey tid ∧ key ≠ tidOpKey tid)
  ∧ (∀ t u, tidEntryKey t ≠ tidOpKey u
            ∧ tidEntryKey t ≠ JOURNAL_KEY ∧ tidOpKey t ≠ JOURNAL_KEY)
  ∧ (∀ t u, (tidEntryKey t = tidEntryKey u → t = u)
            ∧ (tidOpKey t = tidOpKey u → t = u)).
Proof.
  split; [exact tickKey_inTickRange|]. split; [exact tickKey_inj|].
  split; [exact inTickRange_apart|]. split.
  - intros t u. by repeat split.
  - intros t u. split; [|apply JournalProps.tidOpKey_inj].
    apply (JournalProps.append_inj_l "_qs:tid:").
Qed.

End JournalKeyProps.

Module JournalWritesProps.
Import Js Journal JournalWrites JournalKeyProps.

Lemma commitBatch_app (s : gmap string Buffer) (a b : Kvps) :
  commitBatch s (a ++ b) = commitBatch (commitBatch s a) b.
Proof. apply fold_left_app. Qed.

Lemma commitBatch_other (batch : Kvps) : ∀ (s : gmap string Buffer) (k : string),
  k ∉ map writeKey batch → commitBatch s batch !! k = s !! k.
Proof.
  induction batch as [|w batch IH]; intros s k Hk; [done|].
  apply not_elem_of_cons in Hk as [Hne Hk].
  change (commitBatch s (w :: batch))
    with (commitBatch (match w with
                       | Put key v => <[key := v]> s
                       | Del key => delete key s
                       end) batch).
  rewrite IH by done. destruct w as [key v|key]; simpl in Hne.
  - by rewrite lookup_insert_ne.
  - by rewrite lookup_delete_ne.
Qed.

Lemma commitBatch_is_Some (batch : Kvps) : ∀ (s : gmap string Buffer) (k : string),
  is_Some (commitBatch s batch !! k) →
  is_Some (s !! k) ∨ k ∈ map writeKey batch.
Proof.
  intros s k Hk. destruct (decide (k ∈ map writeKey batch)); [by right|].
  left. by rewrite commitBatch_other in Hk.
Qed.

Lemma commitBatch_dels (keys : list string) : ∀ (s : gmap string Buffer) (k : string),
  commitBatch s (map Del keys) !! k
  = if bool_decide (k ∈ keys) then None else s !! k.
Proof.
  induction keys as [|key keys IH]; intros s k; [done|].
  change (commitBatch s (map Del (key :: keys)))
    with (commitBatch (delete key s) (map Del keys)).
  rewrite IH. destruct (decide (k ∈ keys)) as [Hin|Hout].
  - rewrite !bool_decide_eq_true_2; [done| |done]. rewrite elem_of_cons. by right.
  - rewrite (bool_decide_eq_false_2 _ Hout).
    destruct (decide (k = key)) as [->|Hne].
    + rewrite lookup_delete_eq, bool_decide_eq_true_2; [done|]. rewrite elem_of_cons. by left.
    + rewrite lookup_delete_ne by done. rewrite bool_decide_eq_false_2; [done|].
      by intros [?|?]%elem_of_cons.
Qed.

Lemma removals_dels (remove : list EntryIndex) :
  removals remove = map Del (map writeKey (removals remove)).
Proof.
  induction remove as [|index remove IH]; [done|].
  change (removals (index :: remove))
    with ([Del (index_key index); Del (tidEntryKey (index_tid index));
           Del (tidOpKey (index_tid index))] ++ removals remove).
  rewrite !map_app, <- IH. done.
Qed.

Lemma removals_keys (index : EntryIndex) (remove : list EntryIndex) (key : string) :
  index ∈ remove →
  key ∈ [index_key index; tidEntryKey (index_tid index); tidOpKey (index_tid index)] →
  key ∈ map writeKey (removals remove).
Proof.
  intros Hin Hkey. induction remove as [|other remove IH];
    [by apply elem_of_nil in Hin|].
  change (removals (other :: remove))
    with ([Del (index_key other); Del (tidEntryKey (index_tid other));
           Del (tidOpKey (index_tid other))] ++ removals remove).
  rewrite map_app, elem_of_app.
  apply elem_of_cons in Hin as [<-|Hin]; [by left | right; by apply IH].
Qed.

Lemma commitBatch_removals (remove : list EntryIndex) (s : gmap string Buffer)
    (k : string) :
  commitBatch s (removals remove) !! k
  = if bool_decide (k ∈ map writeKey (removals remove)) then None else s !! k.
Proof. rewrite removals_dels at 1. apply commitBatch_dels. Qed.

Section Facts.
Context `{Packing}.
Variable operationOf : JournalOperation → EncodedOperation.
Variable operation_commit : JournalOperation → Kvps.

(** X3. When its batch is committed, [commitEntry] makes the entry
    readable both ways: under its tick key, and by the TID of its operation
    through [entryPrev], which gives back the previous tick and TID of the
    entry.  No record of the store under another key changes, and the entry
    is passed to the subscribers of the tail exactly when [isTail] is set. *)
Theorem commitEntry_indexes (j : Journal) (entry : JournalEntry) (isTail : bool)
    (tick : N) :
  unpackEntry (packEntry (JournalEntry_json entry)) = JournalEntry_json entry →
  entry_key entry = TickKey.tickKey tick →
  Forall (λ w, writeKey w = tidOpKey (tid (entry_operation entry)))
         (operation_commit (entry_operation entry)) →
  let after := committed j (commitEntry operation_commit entry isTail).1 in
  entryPrev after (tid (entry_operation entry)) = Some (entry_prev entry)
  ∧ store after !! entry_key entry = Some (packEntry (JournalEntry_json entry))
  ∧ (∀ key, key ≠ entry_key entry →
            key ≠ tidEntryKey (tid (entry_operation entry)) →
            key ≠ tidOpKey (tid (entry_operation entry)) →
            store after !! key = store j !! key)
  ∧ (commitEntry operation_commit entry isTail).2 = (if isTail then [entry] else []).
Proof.
  intros Hpack Hkey Hcommit after. subst after.
  unfold committed, commitEntry, entryPrev. cbn [fst snd store].
  set (encoded := packEntry (JournalEntry_json entry)).
  set (t := tid (entry_operation entry)) in *.
  assert (Hwritten : ∀ key, key ≠ tidOpKey t →
                            key ∉ map writeKey (operation_commit (entry_operation entry))).
  { intros key Hne Hin. apply list_elem_of_fmap in Hin as (w & -> & Hin).
    rewrite Forall_forall in Hcommit. by apply Hne, Hcommit. }
  rewrite !commitBatch_app.
  repeat split.
  - rewrite commitBatch_other
      by (apply Hwritten; apply not_eq_sym, JournalProps.tidOpKey_not_entryKey).
    simpl. rewrite lookup_insert_eq. subst encoded. by rewrite Hpack.
  - rewrite commitBatch_other
      by (apply Hwritten; rewrite Hkey; apply tickKey_not_tid).
    simpl. destruct (decide (tidEntryKey t = entry_key entry)) as [->|Hne].
    + by rewrite lookup_insert_eq.
    + by rewrite lookup_insert_ne, lookup_insert_eq.
  - intros key Hk1 Hk2 Hk3. rewrite commitBatch_other by by apply Hwritten.
    simpl. by rewrite !lookup_insert_ne.
Qed.

(** X4. [spliceEntries] deletes the three records of every removed entry
    (by tick key, by TID, and the operation) and writes the inserted entry
    after the deletions.  Every key that the insertion does not write is
    absent afterwards if it was removed and unchanged otherwise; without an
    insertion the removed entries and operations can no longer be found; an
    inserted entry is found by its TID even when the same TID was among the
    removed ones.  The state cache is kept and the subscribers of the tail
    are not told. *)
Theorem spliceEntries_store (j : Journal) (remove : list EntryIndex)
    (insert : option JournalEntry) :
  let inserted := match insert with
                  | Some entry => (commitEntry operation_commit entry false).1
                  | None => []
                  end in
  ∃ after,
    spliceEntries operation_commit j remove insert = Ok (after, [])
    ∧ _state after = _state j
    ∧ (∀ key, key ∉ map writeKey inserted →
              store after !! key
              = if bool_decide (key ∈ map writeKey (removals remove))
                then None else store j !! key)
    ∧ (insert = None →
       ∀ index, index ∈ remove →
         store after !! index_key index = None
         ∧ entryPrev after (index_tid index) = None
         ∧ operation after (index_tid index) = None
         ∧ operation_require after (index_tid index)
           = Throw (Error ("Journal corrupted: operation " +:+ index_tid index
                           +:+ " is missing")))
    ∧ (∀ entry, insert = Some entry →
         unpackEntry (packEntry (JournalEntry_json entry)) = JournalEntry_json entry →
         Forall (λ w, writeKey w = tidOpKey (tid (entry_operation entry)))
                (operation_commit (entry_operation entry)) →
         entryPrev after (tid (entry_operation entry)) = Some (entry_prev entry)).
Proof.
  intros inserted.
  exists {| store := commitBatch (store j) (removals remove ++ inserted);
            _state := _state j |}.
  assert (Hother : ∀ key, key ∉ map writeKey inserted →
            commitBatch (store j) (removals remove ++ inserted) !! key
            = if bool_decide (key ∈ map writeKey (removals remove))
              then None else store j !! key).
  { intros key Hkey. by rewrite commitBatch_app, commitBatch_other, commitBatch_removals. }
  split; [|split; [done|split; [exact Hother|split]]].
  - unfold spliceEntries. subst inserted. by destruct insert.
  - intros -> index Hin. subst inserted.
    assert (Hkeys : ∀ key,
              key ∈ [index_key index; tidEntryKey (index_tid index);
                     tidOpKey (index_tid index)] →
              commitBatch (store j) (removals remove ++ []) !! key = None).
    { intros key Hkey. rewrite Hother by apply not_elem_of_nil.
      rewrite bool_decide_eq_true_2; [done|]. by apply (removals_keys index). }
    assert (Hop : operation
                    {| store := commitBatch (store j) (removals remove ++ []);
                       _state := _state j |} (index_tid index) = None).
    { unfold operation. cbn [store]. rewrite Hkeys; [done|].
      rewrite !elem_of_cons. auto. }
    repeat split.
    + cbn [store]. apply Hkeys. rewrite !elem_of_cons. auto.
    + unfold entryPrev. cbn [store]. rewrite Hkeys; [done|].
      rewrite !elem_of_cons. auto.
    + exact Hop.
    + unfold operation_require. by rewrite Hop.
  - intros entry -> Hpack Hcommit. subst inserted.
    unfold entryPrev, commitEntry. cbn [store fst].
    rewrite !commitBatch_app, commitBatch_other.
    + simpl. rewrite lookup_insert_eq. by rewrite Hpack.
    + intros Hin. apply list_elem_of_fmap in Hin as (w & Hw & Hin).
      rewrite Forall_forall in Hcommit. rewrite (Hcommit w Hin) in Hw.
      symmetry in Hw. by apply JournalProps.tidOpKey_not_entryKey in Hw.
Qed.

(** X5. An operation committed with [commitOperation] is found again by
    its TID, by [operation] and decoded by [meldOperation]; the operations
    under other TIDs, the entries and the journal state stay as they
    were. *)
Theorem commitOperation_found (j : Journal) (op : JournalOperation) :
  unpackOperation (packOperation (operationOf op)) = operationOf op →
  let after := committed j (commitOperation operationOf op) in
  operation after (tid op) = Some {| tid := tid op; json := operationOf op |}
  ∧ meldOperation after (tid op) = Ok (MeldOperation_fromEncoded (operationOf op))
  ∧ (∀ other, other ≠ tid op → operation after other = operation j other)
  ∧ (∀ other, entryPrev after other = entryPrev j other)
  ∧ initialised after = initialised j.
Proof.
  intros Hpack after. subst after.
  assert (Hop : operation (committed j (commitOperation operationOf op)) (tid op)
                = Some {| tid := tid op; json := operationOf op |}).
  { unfold operation, committed, commitOperation. simpl.
    by rewrite lookup_insert_eq, Hpack. }
  split; [exact Hop|]. split; [|split; [|split]].
  - unfold meldOperation, operation_require. by rewrite Hop.
  - intros other Hne. unfold operation, committed, commitOperation. simpl.
    rewrite lookup_insert_ne; [done|].
    intros E. by apply JournalProps.tidOpKey_inj in E.
  - intros other. unfold entryPrev, committed, commitOperation. simpl.
    rewrite lookup_insert_ne; [done|]. apply JournalProps.tidOpKey_not_entryKey.
  - unfold initialised, committed, commitOperation. simpl.
    by rewrite lookup_insert_ne.
Qed.

(** X6. The journal state is served from the cache once it is known.
    After [saveState] has run and its batch is committed the journal is
    initialised and [state] answers the saved state whatever the store
    holds; a journal object without a cache decodes the saved record.  A
    journal with neither cache nor record is not initialised, and it is the
    only one for which [state] throws, with [Missing journal]. *)
Theorem state_saved_or_missing (j : Journal) (s : JournalState) :
  (let after := committed (saveState j s).2 (saveState j s).1 in
   initialised after = true
   ∧ (∀ store', state {| store := store'; _state := _state after |}
                = Ok (s, {| store := store'; _state := _state after |}))
   ∧ (unpackState (packState s) = s →
      fst <$> state {| store := store after; _state := None |} = Ok s))
  ∧ ((∃ e, state j = Throw e) ↔ _state j = None ∧ initialised j = false)
  ∧ (_state j = None → initialised j = false →
     state j = Throw (Error "Missing journal")).
Proof.
  split; [|split].
  - cbv zeta. unfold committed, saveState. cbn [fst snd store _state].
    split; [|split].
    + unfold initialised. simpl. rewrite lookup_insert_eq.
      by apply bool_decide_eq_true_2.
    + done.
    + intros Hpack. unfold state. simpl. by rewrite lookup_insert_eq, Hpack.
  - unfold state, initialised. destruct (_state j); [split; [by intros [? ?]|by intros [? _]]|].
    destruct (store j !! JOURNAL_KEY) eqn:E.
    + rewrite bool_decide_eq_true_2 by done. split; [by intros [? ?]|by intros [_ ?]].
    + rewrite bool_decide_eq_false_2 by (by intros [? ?]). split; [done|eauto].
  - unfold state, initialised. intros -> Hinit.
    destruct (store j !! JOURNAL_KEY) eqn:E; [|done].
    by rewrite bool_decide_eq_true_2 in Hinit.
Qed.

End Facts.

Lemma commitEntry_indexes_witness :
  let entry := RefJournal.wilmaEntry in
  let after := committed RefEngine.sampleJournal
                 (commitEntry RefJournal.operation_commit entry true).1 in
  entryPrev after (tid (entry_operation entry)) = Some (entry_prev entry)
  ∧ store after !! entry_key entry = Some (packEntry (JournalEntry_json entry))
  ∧ (∀ key, key ≠ entry_key entry →
            key ≠ tidEntryKey (tid (entry_operation entry)) →
            key ≠ tidOpKey (tid (entry_operation entry)) →
            store after !! key = store RefEngine.sampleJournal !! key)
  ∧ (commitEntry RefJournal.operation_commit entry true).2 = [entry].
Proof.
  apply (commitEntry_indexes RefJournal.operation_commit RefEngine.sampleJournal
           RefJournal.wilmaEntry true 2).
  - vm_compute. reflexivity.
  - reflexivity.
  - repeat constructor.
Defined.

Lemma commitOperation_found_witness :
  let op := RefEngine.lastOperation in
  let after := committed RefJournal.brokenJournal
                 (commitOperation RefJournal.operationOf op) in
  operation after (tid op) = Some {| tid := tid op; json := RefJournal.operationOf op |}
  ∧ meldOperation after (tid op)
    = Ok (MeldOperation_fromEncoded (RefJournal.operationOf op))
  ∧ (∀ other, other ≠ tid op → operation after other
                               = operation RefJournal.brokenJournal other)
  ∧ (∀ other, entryPrev after other = entryPrev RefJournal.brokenJournal other)
  ∧ initialised after = initialised RefJournal.brokenJournal.
Proof.
  apply (commitOperation_found RefJournal.operationOf RefJournal.brokenJournal
           RefEngine.lastOperation).
  vm_compute. reflexivity.
Defined.

End JournalWritesProps.

Module JournalReadProps.
Import Js TickKey Journal JournalWrites JournalKeyProps.

Lemma ascii_compare_lt (a b : ascii) :
  Ascii.compare a b = Lt ↔ (N_of_ascii a < N_of_ascii b)%N.
Proof. unfold Ascii.compare. apply N.compare_lt_iff. Qed.

Lemma str_lt_trans (s t u : string) : str_lt s t → str_lt t u → str_lt s u.
Proof.
  unfold str_lt. revert t u; induction s as [|a s IH]; intros [|b t] [|c u];
    simpl; try done.
  destruct (Ascii.compare a b) eqn:Hab; [| |done].
  - apply Ascii.compare_eq_iff in Hab as ->.
    destruct (Ascii.compare b c); [apply IH|done|done].
  - intros _. destruct (Ascii.compare b c) eqn:Hbc; [| |done].
    + apply Ascii.compare_eq_iff in Hbc as <-. by rewrite Hab.
    + intros _. apply (proj1 (ascii_compare_lt _ _)) in Hab.
      apply (proj1 (ascii_compare_lt _ _)) in Hbc.
      assert (Hac : Ascii.compare a c = Lt)
        by (apply (proj2 (ascii_compare_lt _ _)); lia).
      by rewrite Hac.
Qed.

Lemma str_ltb_lt (s t : string) : RefJournal.str_ltb s t = true ↔ str_lt s t.
Proof.
  unfold RefJournal.str_ltb, str_lt. destruct (String.compare s t); split; done.
Qed.

(** The scan of the reference store returns the least record in range. *)
Lemma readFirst_firstBetween (store : gmap string Buffer) (gt lt : string) :
  firstBetween store gt lt (RefJournal.readFirst store gt lt).
Proof.
  unfold RefJournal.readFirst.
  assert (Hscan : ∀ l : list (string * Buffer),
            match foldr (RefJournal.pick gt lt) None l with
            | Some (key, value) =>
                (key, value) ∈ l ∧ str_lt gt key ∧ str_lt key lt
                ∧ ∀ kv, kv ∈ l → str_lt gt kv.1 → str_lt kv.1 lt → ¬ str_lt kv.1 key
            | None => ∀ kv, kv ∈ l → ¬ (str_lt gt kv.1 ∧ str_lt kv.1 lt)
            end).
  { induction l as [|kv l IH]; simpl; [by intros ? ?%elem_of_nil|].
    unfold RefJournal.pick at 1.
    destruct (RefJournal.str_ltb gt kv.1 && RefJournal.str_ltb kv.1 lt) eqn:Hin.
    - apply andb_prop in Hin as [Hgt%str_ltb_lt Hlt%str_ltb_lt].
      destruct (foldr (RefJournal.pick gt lt) None l) as [[bk bv]|].
      + destruct IH as (Hb & Hbgt & Hblt & Hmin). simpl.
        destruct (RefJournal.str_ltb kv.1 bk) eqn:Hless.
        * apply str_ltb_lt in Hless. destruct kv as [k v]. simpl in *.
          repeat split; [apply list_elem_of_here|done|done|].
          intros other [->|Hother]%elem_of_cons Hogt Holt Hok.
          -- by apply str_lt_irrefl in Hok.
          -- apply (Hmin other Hother Hogt Holt). by apply (str_lt_trans _ k).
        * repeat split; [by apply list_elem_of_further|done|done|].
          intros other [->|Hother]%elem_of_cons Hogt Holt Hok.
          -- apply str_ltb_lt in Hok. congruence.
          -- by apply (Hmin other Hother Hogt Holt).
      + destruct kv as [k v]. simpl in *.
        repeat split; [apply list_elem_of_here|done|done|].
        intros other [->|Hother]%elem_of_cons Hogt Holt Hok.
        * by apply str_lt_irrefl in Hok.
        * by apply (IH other Hother).
    - destruct (foldr (RefJournal.pick gt lt) None l) as [[bk bv]|].
      + destruct IH as (Hb & Hbgt & Hblt & Hmin).
        repeat split; [by apply list_elem_of_further|done|done|].
        intros other [->|Hother]%elem_of_cons Hogt Holt Hok.
        * apply str_ltb_lt in Hogt. apply str_ltb_lt in Holt.
          rewrite Hogt, Holt in Hin. discriminate.
        * by apply (Hmin other Hother Hogt Holt).
      + intros other [->|Hother]%elem_of_cons [Hogt Holt].
        * apply str_ltb_lt in Hogt. apply str_ltb_lt in Holt.
          rewrite Hogt, Holt in Hin. discriminate.
        * by apply (IH other Hother). }
  specialize (Hscan (map_to_list store)).
  destruct (foldr (RefJournal.pick gt lt) None (map_to_list store)) as [[key value]|];
    simpl.
  - destruct Hscan as (Hin & Hgt & Hlt & Hmin).
    repeat split; [by apply elem_of_map_to_list|done|done|].
    intros other [v Hv] Hogt Holt.
    by apply (Hmin (other, v)); [apply elem_of_map_to_list|..].
  - intros other [v Hv]. by apply (Hscan (other, v)), elem_of_map_to_list.
Qed.

Section Facts.
Context `{Engine}.
Variable read : gmap string Buffer → string → string → option (string * Buffer).

(** X2. [entryAfter] steps to the next entry by tick.  In a store whose
    tick range holds only records keyed by [tickKey], read in the order of
    the keys, the call for a tick below [36^8] answers the entry with the
    least stored tick above it, expanded from the record under its tick key
    and the operation that the record names; it answers [undefined] when no
    tick above has an entry, and throws [Journal corrupted] when the
    operation of the next entry is not stored.  The journal is left as it
    was. *)
Theorem entryAfter_next (j : Journal) (tick : N) :
  tickIndexed (store j) → (tick < 36 ^ 8)%N →
  firstBetween (store j) (tickKey tick) TICK_KEY_MAX
               (read (store j) (tickKey tick) TICK_KEY_MAX) →
  let following (next : N) (value : Buffer) : Prop :=
    (tick < next < 36 ^ 8)%N
    ∧ store j !! tickKey next = Some value
    ∧ ∀ t, (tick < t < next)%N → store j !! tickKey t = None in
  match entryAfter read j (Some (Tick tick)) with
  | Ok (Some entry, after) =>
      store after = store j ∧ _state after = _state j
      ∧ ∃ next value,
          following next value
          ∧ entry_key entry = tickKey next
          ∧ JournalEntry_json entry = unpackEntry value
          ∧ operation j (unpackEntry value).2 = Some (entry_operation entry)
  | Ok (None, after) =>
      store after = store j ∧ _state after = _state j
      ∧ ∀ t, (tick < t < 36 ^ 8)%N → store j !! tickKey t = None
  | Throw e =>
      ∃ next value,
        following next value
        ∧ operation j (unpackEntry value).2 = None
        ∧ e = Error ("Journal corrupted: operation " +:+ (unpackEntry value).2
                     +:+ " is missing")
  end.
Proof.
  intros Hindexed Htick Hread following.
  unfold entryAfter, withLockedHistory. cbn [mbind result_bind].
  destruct (read (store j) (tickKey tick) TICK_KEY_MAX) as [[foundKey value]|].
  - destruct Hread as (Hstore & Hgt & Hlt & Hmin).
    assert (Hrange : inTickRange foundKey).
    { split; [|done]. apply (str_lt_trans _ (tickKey tick)); [|done].
      by apply tickKey_inTickRange. }
    destruct (Hindexed foundKey ltac:(eauto) Hrange) as (next & Hnext & ->).
    assert (Hfollowing : following next value).
    { split; [|split; [done|]].
      - split; [|done]. by apply tickKey_lt_inv.
      - intros t [Ht1 Ht2]. destruct (store j !! tickKey t) eqn:Ht; [|done].
        exfalso. apply (Hmin (tickKey t)); [eauto| | |].
        + apply tickKey_lt; lia.
        + apply tickKey_inTickRange. lia.
        + apply tickKey_lt; lia. }
    unfold JournalEntry_fromJson, operation_require.
    destruct (unpackEntry value) as [prev tid] eqn:Hentry.
    destruct (operation j tid) as [op|] eqn:Hop; simpl.
    + assert (Htid : Journal.tid op = tid).
      { unfold operation in Hop. destruct (store j !! tidOpKey tid); [|done].
        by injection Hop as <-. }
      repeat split. exists next, value. rewrite Hentry.
      unfold JournalEntry_json. simpl. by rewrite Htid.
    + exists next, value. by rewrite Hentry.
  - simpl. repeat split. intros t [Ht1 Ht2].
    destruct (store j !! tickKey t) eqn:Ht; [|done].
    exfalso. apply (Hread (tickKey t)); [eauto|]. split.
    + apply tickKey_lt; lia.
    + apply tickKey_inTickRange. lia.
Qed.

End Facts.

Lemma sampleJournal_tickIndexed : tickIndexed (store RefEngine.sampleJournal).
Proof.
  intros key Hkey Hrange.
  apply JournalWritesProps.commitBatch_is_Some in Hkey as [[? Hkey]|Hkey];
    [by rewrite lookup_empty in Hkey|].
  vm_compute in Hkey.
  repeat (apply elem_of_cons in Hkey as [->|Hkey]);
    try (by apply elem_of_nil in Hkey);
    try (exfalso; destruct Hrange as [Hmin Hmax]; vm_compute in Hmin, Hmax;
         discriminate);
    first [ exists 1%N; split; [reflexivity|vm_compute; reflexivity]
          | exists 2%N; split; [reflexivity|vm_compute; reflexivity]
          | exists 3%N; split; [reflexivity|vm_compute; reflexivity] ].
Qed.

Lemma entryAfter_next_witness :
  let j := RefEngine.sampleJournal in
  let following (next : N) (value : Buffer) : Prop :=
    (1 < next < 36 ^ 8)%N
    ∧ store j !! tickKey next = Some value
    ∧ ∀ t, (1 < t < next)%N → store j !! tickKey t = None in
  match entryAfter RefJournal.readFirst j (Some (Tick 1)) with
  | Ok (Some entry, after) =>
      store after = store j ∧ _state after = _state j
      ∧ ∃ next value,
          following next value
          ∧ entry_key entry = tickKey next
          ∧ JournalEntry_json entry = unpackEntry value
          ∧ operation j (unpackEntry value).2 = Some (entry_operation entry)
  | Ok (None, after) =>
      store after = store j ∧ _state after = _state j
      ∧ ∀ t, (1 < t < 36 ^ 8)%N → store j !! tickKey t = None
  | Throw e =>
      ∃ next value,
        following next value
        ∧ operation j (unpackEntry value).2 = None
        ∧ e = Error ("Journal corrupted: operation " +:+ (unpackEntry value).2
                     +:+ " is missing")
  end.
Proof.
  apply (entryAfter_next RefJournal.readFirst RefEngine.sampleJournal 1).
  - exact sampleJournal_tickIndexed.
  - reflexivity.
  - apply readFirst_firstBetween.
Defined.

End JournalReadProps.

Module JournalReduceProps.
Import Js Journal.

Section Facts.
Context `{Engine}.

(** X7. [causalReduce] does not walk back when there is nothing to walk
    to: for an operation that has no entry indexed by its TID, and for one
    whose range starts at [minFrom] or below, it returns after one look at
    the journal with the reduction of that operation alone, whatever the
    journal holds. *)
Theorem causalReduce_alone (j : Journal) (op : JournalOperation)
    (operator : CausalOperator) (minFrom : Z) (fuel : nat) :
  entryPrev j (tid op) = None ∨ (from (asMeldOperation op) ≤ minFrom)%Z →
  causalReduce (S fuel) j op operator minFrom
  = Some (Ok (toMeldOperation
                (commit operator (createOperator operator (asMeldOperation op))))).
Proof.
  intros Halone. unfold causalReduce. simpl.
  destruct (entryPrev j (tid op)) as [[prevTick prevTid]|]; [|done].
  destruct Halone as [?|Hfrom]; [done|].
  assert (Hstop : contiguousPrev minFrom (asMeldOperation op) prevTick = false).
  { unfold contiguousPrev.
    destruct (Z.leb_spec minFrom prevTick); [|done].
    destruct (Z.eqb_spec prevTick (from (asMeldOperation op) - 1)); [lia|done]. }
  by rewrite Hstop.
Qed.

(** X8. A journal whose entry points to a contiguous predecessor that is
    not stored makes [causalReduce] throw [Journal corrupted], naming the
    TID of the missing operation; nothing is reduced. *)
Theorem causalReduce_corrupted (j : Journal) (op : JournalOperation)
    (operator : CausalOperator) (minFrom : Z) (fuel : nat)
    (prevTick : Z) (prevTid : string) :
  entryPrev j (tid op) = Some (prevTick, prevTid) →
  contiguousPrev minFrom (asMeldOperation op) prevTick = true →
  store j !! tidOpKey prevTid = None →
  causalReduce (S fuel) j op operator minFrom
  = Some (Throw (Error ("Journal corrupted: operation " +:+ prevTid
                        +:+ " is missing"))).
Proof.
  intros Hprev Hstep Hmissing. unfold causalReduce. simpl.
  rewrite Hprev, Hstep. unfold meldOperation, operation_require, operation.
  by rewrite Hmissing.
Qed.

End Facts.

Lemma causalReduce_alone_witness :
  causalReduce 1 RefEngine.sampleJournal RefEngine.lastOperation RefEngine.fusion 3
  = Some (Ok (toMeldOperation
                (commit RefEngine.fusion
                   (createOperator RefEngine.fusion
                      (asMeldOperation RefEngine.lastOperation))))).
Proof.
  apply (causalReduce_alone RefEngine.sampleJournal RefEngine.lastOperation
           RefEngine.fusion 3 0).
  right. vm_compute. discriminate.
Defined.

Lemma causalReduce_corrupted_witness :
  causalReduce 1 RefJournal.brokenJournal
    (JournalWrites.entry_operation RefJournal.wilmaEntry) RefEngine.fusion 1
  = Some (Throw (Error ("Journal corrupted: operation "
                        +:+ TreeClockModel.hash (RefEngine.clockAt 1)
                        +:+ " is missing"))).
Proof.
  apply (causalReduce_corrupted RefJournal.brokenJournal
           (JournalWrites.entry_operation RefJournal.wilmaEntry)
           RefEngine.fusion 1 0 1 (TreeClockModel.hash (RefEngine.clockAt 1))).
  - vm_compute. reflexivity.
  - vm_compute. reflexivity.
  - vm_compute. reflexivity.
Defined.

End JournalReduceProps.

Module MeldDecodingProps.
Import Js MeldEncoding MeldEncodingProps.

(** X9. The decoding loop takes the encodings from the last to the
    first.  An encoding that is not recognised ends it with a [Bad update]
    error that names the encoding, whatever comes before it in the vector,
    but only when the encodings after it have been undone: if one of those
    fails, its error is the one thrown.  With an empty vector the buffer
    itself is returned, not decoded. *)
Theorem jsonFromBuffer_unrecognised_encoding `{Codec} (encoded : Buffer)
    (before after : list BufferEncoding) (name : string) :
  jsonFromBuffer encoded (before ++ Unrecognised name :: after)
  = match jsonFromBuffer encoded after with
    | Ok _ => Throw (MeldError "Bad update" ("Unrecognised encoding " +:+ name))
    | Throw e => Throw e
    end
  ∧ jsonFromBuffer encoded [] = Ok (VBuffer encoded).
Proof.
  split; [|reflexivity]. unfold jsonFromBuffer.
  rewrite rev_app_distr. simpl. rewrite <- app_assoc, decodeFromLast_app.
  by destruct (decodeFromLast (rev after) (VBuffer encoded)).
Qed.

(** X10. The decoder reads encodings that the encoder of this engine never
    writes: a buffer marked [JSON] is parsed as the text of its bytes, and
    one marked [JSON, GZIP] is decompressed first and then parsed, so the
    compressed text of a value decodes like the text itself whenever gzip
    undoes its own output. *)
Theorem jsonFromBuffer_reads_json_text `{Codec} (text : string) :
  let bytes := String.list_byte_of_string text in
  jsonFromBuffer bytes [JSON] = VJson <$> JSON_parse text
  ∧ (gunzipSync (VBuffer (gzipSync bytes)) = Ok bytes →
     jsonFromBuffer (gzipSync bytes) [JSON; GZIP] = VJson <$> JSON_parse text).
Proof.
  intros bytes. subst bytes. unfold jsonFromBuffer. simpl. split.
  - rewrite String.string_of_list_byte_of_string.
    by destruct (JSON_parse text).
  - intros ->. simpl. rewrite String.string_of_list_byte_of_string.
    by destruct (JSON_parse text).
Qed.

End MeldDecodingProps.

Module IdentifyProps.
Import Js JsObject JsObjectProps Reification ReificationProps Identify.

(** X11. [reifyTriplesTids] stops at the first triple whose identifier is
    not a blank node: it throws a [TypeError] that names that identifier,
    whatever follows in the array, and returns no quads at all. *)
Theorem reifyTriplesTids_first_offender (before after : RefTriplesTids)
    (entry : RefTriple * list UUID) :
  Forall (λ e, isBlank e.1 = true) before →
  isBlank entry.1 = false →
  reifyTriplesTids (before ++ entry :: after)
  = Throw (TypeError ("Triple " +:+ ref_id entry.1 +:+ " is not a blank node")).
Proof.
  intros Hbefore Hentry. unfold reifyTriplesTids.
  induction Hbefore as [|e before He _ IH]; simpl.
  - destruct entry as [triple tids]. unfold isBlank in Hentry. simpl in *.
    by rewrite Hentry.
  - rewrite reify_blank by done. simpl.
    destruct (mapResult reifyTripleTids (before ++ entry :: after)); [done|].
    simpl in *. congruence.
Qed.

Lemma reifyTriplesTids_first_offender_witness :
  reifyTriplesTids ([(fredName "_:b1", ["t1"])]
                    ++ (fredName "http://test.m-ld.org/fred", @nil UUID)
                    :: [(fredName "wilma", ["t2"])])
  = Throw (TypeError ("Triple "
                      +:+ ref_id (fredName "http://test.m-ld.org/fred", @nil UUID).1
                      +:+ " is not a blank node")).
Proof.
  apply (reifyTriplesTids_first_offender [(fredName "_:b1", ["t1"])]
           [(fredName "wilma", ["t2"])]
           (fredName "http://test.m-ld.org/fred", @nil UUID)).
  - repeat constructor.
  - reflexivity.
Defined.

Lemma identified_blank (freshLabel : nat → string) (triplesTids : list (Triple * list UUID)) :
  ∀ made, Forall (λ e : RefTriple * list UUID, isBlank e.1 = true)
                 (identifyTriplesTids freshLabel made triplesTids).1.
Proof.
  induction triplesTids as [|[triple tids] rest IH]; intros made; simpl; [done|].
  specialize (IH (S made)).
  destruct (identifyTriplesTids freshLabel (S made) rest) as [others made''].
  simpl in *. constructor; [|done].
  apply (JournalProps.prefix_append "_:").
Qed.

Lemma flatten_blocks_length (x : RefTriplesTids) :
  length (flatten (map block x)) = reifiedSize x.
Proof.
  unfold flatten, reifiedSize. induction x as [|entry x IH]; simpl; [done|].
  rewrite length_app, IH. unfold block. simpl. by rewrite length_map.
Qed.

(** X12. Triples identified by [identifyTriplesTids] can always be
    reified.  Whatever labels the data factory makes up, every identifier
    is a blank node, so [reifyTriplesTids] does not throw on the result; the
    triples and their TIDs are kept in order, one fresh label is used per
    triple, and the reification has three quads per triple and one more per
    TID. *)
Theorem identified_triples_reify (freshLabel : nat → string) (made : nat)
    (triplesTids : list (Triple * list UUID)) :
  let '(identified, made') := identifyTriplesTids freshLabel made triplesTids in
  map (λ e : RefTriple * list UUID, (asTriple e.1, e.2)) identified = triplesTids
  ∧ map (λ e : RefTriple * list UUID, label e.1) identified
    = map freshLabel (seq made (length triplesTids))
  ∧ made' = made + length triplesTids
  ∧ ∃ reified,
      reifyTriplesTids identified = Ok reified
      ∧ length reified = reifiedSize identified.
Proof.
  pose proof (identified_blank freshLabel triplesTids made) as Hblank.
  assert (Hshape : ∀ made,
            map (λ e : RefTriple * list UUID, (asTriple e.1, e.2))
                (identifyTriplesTids freshLabel made triplesTids).1 = triplesTids
            ∧ map (λ e : RefTriple * list UUID, label e.1)
                  (identifyTriplesTids freshLabel made triplesTids).1
              = map freshLabel (seq made (length triplesTids))
            ∧ (identifyTriplesTids freshLabel made triplesTids).2
              = made + length triplesTids).
  { clear. induction triplesTids as [|[triple tids] rest IH]; intros made; simpl.
    - repeat split. lia.
    - destruct (IH (S made)) as (Hmap & Hlabels & Hmade).
      destruct (identifyTriplesTids freshLabel (S made) rest) as [others made''].
      simpl in *. rewrite Hmap, Hlabels, Hmade.
      split; [by destruct triple|]. split; [|lia]. f_equal.
      apply (JournalProps.append_inj_l "_:").
      apply (prefix_slice "_:"), (JournalProps.prefix_append "_:"). }
  destruct (Hshape made) as (Hmap & Hlabels & Hmade).
  destruct (identifyTriplesTids freshLabel made triplesTids) as [identified made'].
  simpl in *. repeat split; try done.
  exists (flatten (map block identified)).
  split; [by apply reify_all_blank | apply flatten_blocks_length].
Qed.

End IdentifyProps.

Module UnreifyProps.
Import Js JsObject JsObjectProps Reification.

Lemma unreifyStep_inherited (rids : JsObject.t (PartialRefTriple * list UUID))
    (reification : Triple) :
  own rids (termValue (subject reification)) = None →
  termValue (subject reification) ∈ prototypeKeys →
  unreifyStep rids reification = Throw (TypeError "rids[rid] is not iterable").
Proof.
  intros Hown Hin. unfold unreifyStep, get. rewrite Hown.
  by rewrite bool_decide_eq_true_2.
Qed.

Lemma unreifyStep_sets (rids : JsObject.t (PartialRefTriple * list UUID))
    (reification : Triple) :
  termValue (subject reification) ∉ prototypeKeys →
  ∃ updated,
    unreifyStep rids reification
    = Ok (JsObject.set rids (termValue (subject reification)) updated).
Proof.
  intros Hout. unfold unreifyStep, get.
  destruct (own rids (termValue (subject reification))) as [[triple tids]|].
  - simpl. eexists. reflexivity.
  - rewrite bool_decide_eq_false_2 by done. simpl. eexists. reflexivity.
Qed.

Lemma unreify_fold (reifications : list Triple) :
  ∀ rids : JsObject.t (PartialRefTriple * list UUID),
    (∀ key, key ∈ prototypeKeys → own rids key = None) →
    (Forall (λ r, termValue (subject r) ∉ prototypeKeys) reifications →
     ∃ o, foldResult unreifyStep reifications rids = Ok o)
    ∧ (Exists (λ r, termValue (subject r) ∈ prototypeKeys) reifications →
       foldResult unreifyStep reifications rids
       = Throw (TypeError "rids[rid] is not iterable")).
Proof.
  induction reifications as [|r rest IH]; intros rids Hfree.
  - split; [by eexists | by intros ?%Exists_nil].
  - rewrite ReificationProps.foldResult_cons.
    destruct (decide (termValue (subject r) ∈ prototypeKeys)) as [Hin|Hout].
    + rewrite unreifyStep_inherited by auto. split; [|done].
      intros Hall. by apply Forall_cons in Hall as [? _].
    + destruct (unreifyStep_sets rids r Hout) as [updated ->]. simpl.
      assert (Hfree' : ∀ key, key ∈ prototypeKeys →
                own (JsObject.set rids (termValue (subject r)) updated) key = None).
      { intros key Hkey. rewrite own_set_ne; [by apply Hfree|]. congruence. }
      destruct (IH _ Hfree') as [Hok Hthrow]. split.
      * intros Hall. apply Forall_cons in Hall as [_ Hall]. by apply Hok.
      * intros [?|Hex]%Exists_cons; [done|]. by apply Hthrow.
Qed.

Lemma inherited_or_not (reifications : list Triple) :
  Forall (λ r, termValue (subject r) ∉ prototypeKeys) reifications
  ∨ Exists (λ r, termValue (subject r) ∈ prototypeKeys) reifications.
Proof.
  induction reifications as [|r rest [IH|IH]].
  - left. constructor.
  - destruct (decide (termValue (subject r) ∈ prototypeKeys)).
    + right. by apply Exists_cons_hd.
    + left. by constructor.
  - right. by apply Exists_cons_tl.
Qed.

(** X13. [unreifyTriplesTids] fails exactly on the blank node labels that
    an object inherits.  It returns when no subject of the reification
    quads is labelled like a member of [Object.prototype] ([constructor],
    [toString], [__proto__] and the like), whatever the predicates and
    objects are; and it throws a [TypeError] as soon as one is. *)
Theorem unreify_throws_iff_inherited (reifications : list Triple) :
  (Forall (λ r, termValue (subject r) ∉ prototypeKeys) reifications
   ↔ ∃ result, unreifyTriplesTids reifications = Ok result)
  ∧ (Exists (λ r, termValue (subject r) ∈ prototypeKeys) reifications
     ↔ unreifyTriplesTids reifications
       = Throw (TypeError "rids[rid] is not iterable")).
Proof.
  unfold unreifyTriplesTids.
  destruct (unreify_fold reifications []) as [Hok Hthrow]; [done|].
  split; split.
  - intros Hall. destruct (Hok Hall) as [o ->]. by eexists.
  - intros [result Hresult].
    destruct (inherited_or_not reifications) as [?|Hex]; [done|].
    rewrite (Hthrow Hex) in Hresult. discriminate.
  - intros Hex. by rewrite (Hthrow Hex).
  - intros Hresult.
    destruct (inherited_or_not reifications) as [Hall|?]; [|done].
    destruct (Hok Hall) as [o Ho]. rewrite Ho in Hresult. discriminate.
Qed.

End UnreifyProps.

Module CloneStartProps.
Import Js DatasetClone DatasetCloneProps.

Section Facts.
Context `{Collaborators}.

(** X15. A clone whose clock has never been forked has nothing to catch
    up with: [initialise] publishes the operations that were not sent yet,
    in their order, subscribes to the updates of the remotes and connects.
    It asks for no rev-up and no snapshot, and leaves the clock and the
    ordering buffer as they are; a clock obtained from the remotes is saved
    first. *)
Theorem initialise_never_forked (dataset : Dataset) (remotes : Remotes) :
  let time := default (newClock remotes) (loadClock dataset) in
  isId time = true →
  events (initialise dataset remotes)
  = match loadClock dataset with
    | Some _ => []
    | None => [RemotesNewClock; DatasetSaveClock time true]
    end
    ++ map UpdateSourceNext (unsentLocalOperations dataset)
    ++ [UpdatesSubscribed; RemotesConnect]
  ∧ messageService (initialise dataset remotes) = time
  ∧ orderingBuffer (initialise dataset remotes) = [].
Proof.
  intros time Hid. subst time. unfold initialise.
  destruct (loadClock dataset) as [time|]; simpl in Hid;
    unfold initialised; rewrite seq_run, forEach_emit; simpl events;
    rewrite Hid, !seq_run; simpl; by rewrite <- !app_assoc.
Qed.

(** X16. A clone that finds no clock in its store is a new clone: it
    takes a clock from the remotes and saves it as new.  When that clock
    has been forked it requests a snapshot without asking for a rev-up, and
    hands the snapshot message to the message service for delivery; the
    messages it passes to the message service as received are the updates
    that came with the snapshot, in their order; and it connects. *)
Theorem initialise_new_clone (dataset : Dataset) (remotes : Remotes) :
  loadClock dataset = None → isId (newClock remotes) = false →
  let time := newClock remotes in
  let snap := snapshot remotes in
  let log := events (initialise dataset remotes) in
  (∃ rest,
     log = [RemotesNewClock; DatasetSaveClock time true]
           ++ map UpdateSourceNext (unsentLocalOperations dataset)
           ++ [UpdatesSubscribed; RemotesSnapshot;
               ServiceDeliver (SnapshotMsg (snap_time snap))]
           ++ rest)
  ∧ omap isReceive log = items (snap_updates snap)
  ∧ RemotesConnect ∈ log
  ∧ forallb (λ e, match e with RemotesRevupFrom _ => false | _ => true end) log
    = true.
Proof.
  intros Hclock Hforked time snap log. subst log time snap.
  unfold initialise. rewrite Hclock. unfold initialised.
  rewrite seq_run, forEach_emit. simpl events. rewrite Hforked.
  rewrite !seq_run.
  unfold requestSnapshot, service_deliver, deliverNow. rewrite !seq_run.
  simpl orderingBuffer. simpl drain.
  match goal with
  | |- context [subscribeRevups ?stream ?c] =>
      destruct (subscribeRevups_events stream c) as (received & Hev & Hrecv & Hall)
  end.
  rewrite emit_events, Hev. simpl. rewrite <- !app_assoc. simpl.
  assert (Hflushed : ∀ entries : list Entry,
            omap isReceive (map UpdateSourceNext entries) = []).
  { induction entries as [|entry entries IH]; simpl; [done|exact IH]. }
  split; [by eexists|]. split; [|split].
  - rewrite omap_app, Hflushed. simpl. rewrite omap_app, Hrecv. simpl.
    by rewrite app_nil_r.
  - do 2 apply list_elem_of_further. apply elem_of_app. right.
    do 4 apply list_elem_of_further. apply elem_of_app. right.
    apply list_elem_of_here.
  - rewrite forallb_app. simpl. rewrite forallb_app. simpl.
    rewrite andb_true_r. apply andb_true_intro. split.
    + apply forallb_forall. intros e Hin.
      apply in_map_iff in Hin as (entry & <- & _). done.
    + apply forallb_forall. intros e Hin.
      rewrite forallb_forall in Hall. specialize (Hall e Hin). by destruct e.
Qed.

End Facts.

Lemma initialise_never_forked_witness :
  events (initialise RefCloneStarts.genesisDataset RefClone.capablePeer)
  = [] ++ map UpdateSourceNext [JObject [("@id", JString "fred")]]
       ++ [UpdatesSubscribed; RemotesConnect]
  ∧ messageService (initialise RefCloneStarts.genesisDataset RefClone.capablePeer)
    = TreeClockModel.GENESIS
  ∧ orderingBuffer (initialise RefCloneStarts.genesisDataset RefClone.capablePeer)
    = [].
Proof.
  exact (initialise_never_forked RefCloneStarts.genesisDataset RefClone.capablePeer
           eq_refl).
Defined.

Lemma initialise_new_clone_witness :
  let log := events (initialise RefCloneStarts.freshDataset RefClone.incapablePeer) in
  (∃ rest,
     log = [RemotesNewClock; DatasetSaveClock RefClone.cloneTime true]
           ++ map UpdateSourceNext []
           ++ [UpdatesSubscribed; RemotesSnapshot;
               ServiceDeliver (SnapshotMsg (snap_time RefClone.peerSnapshot))]
           ++ rest)
  ∧ omap isReceive log = [RefClone.insertOf 3 "wilma"]
  ∧ RemotesConnect ∈ log
  ∧ forallb (λ e, match e with RemotesRevupFrom _ => false | _ => true end) log
    = true.
Proof.
  exact (initialise_new_clone RefCloneStarts.freshDataset RefClone.incapablePeer
           eq_refl eq_refl).
Defined.

End CloneStartProps.

Module OperationMessagesProps.
Import Js MeldEncoding OperationMessages.

Section Facts.
Context `{Codec}.
Variable Time : Type.
Variable TreeClock_fromJson : option Json → Time.

(** X17. An operation message survives its encoding as far as it is
    encoded: when message-pack gives back the object that [encode] packed,
    [decode] returns a message with the same previous tick and the same
    data.  The time is not part of the encoding; the decoded message takes
    it from the third element of the data, whatever time the encoded message
    was constructed with. *)
Theorem decode_encode (msg : OperationMessage Time) :
  MsgPack_decode (VBuffer (encode Time msg)) = Ok (payload Time msg) →
  decode Time TreeClock_fromJson (encode Time msg)
  = Ok {| prev := prev Time msg; data := data Time msg;
          time := TreeClock_fromJson (data Time msg !! 2) |}.
Proof. intros Hpack. unfold decode. by rewrite Hpack. Qed.

(** X18. [decode] accepts a buffer exactly when it unpacks to an object
    whose [prev] is a number and whose [data] is an array; the message then
    holds that number and that array, and the time read from the array.
    Every other value that is not [null] is refused with [Bad update]. *)
Theorem decode_accepts (enc : Buffer) (json : Json) :
  MsgPack_decode (VBuffer enc) = Ok json →
  (∀ msg, decode Time TreeClock_fromJson enc = Ok msg
          ↔ getProp json "prev" = Ok (Some (JNumber (prev Time msg)))
            ∧ getProp json "data" = Ok (Some (JArray (data Time msg)))
            ∧ time Time msg = TreeClock_fromJson (data Time msg !! 2))
  ∧ (json ≠ JNull →
     (∀ msg, decode Time TreeClock_fromJson enc ≠ Ok msg) →
     decode Time TreeClock_fromJson enc = Throw (MeldError "Bad update" EmptyString)).
Proof.
  intros Hjson. unfold decode. rewrite Hjson. simpl. split.
  - intros msg. destruct (getProp json "prev") as [[p|]|e] eqn:Hprev; simpl;
      [destruct p as [| |n| | |]| |]; try (split; [done|by intros [[=] _]]).
    destruct (getProp json "data") as [[d|]|e] eqn:Hdata; simpl;
      [destruct d as [| | | |items|]| |];
      try (split; [done|by intros (_ & [=] & _)]).
    unfold newOperationMessage. simpl. split.
    + by intros [= <-].
    + intros ([= ->] & [= ->] & Htime). destruct msg. simpl in *. by subst.
  - intros Hnull Hrefused.
    destruct (getProp json "prev") as [[p|]|e] eqn:Hprev; simpl;
      [destruct p as [| |n| | |]| |]; try done.
    + destruct (getProp json "data") as [[d|]|e] eqn:Hdata; simpl;
        [destruct d as [| | | |items|]| |]; try done.
      * by destruct (Hrefused (newOperationMessage Time TreeClock_fromJson n items None)).
      * by destruct json.
    + by destruct json.
Qed.

End Facts.

Lemma decode_encode_witness :
  decode TreeClockModel.TreeClock RefMessages.clockOf
    (encode TreeClockModel.TreeClock RefMessages.fredMessage)
  = Ok {| prev := prev _ RefMessages.fredMessage;
          data := data _ RefMessages.fredMessage;
          time := RefMessages.clockOf (data _ RefMessages.fredMessage !! 2) |}.
Proof.
  apply (decode_encode TreeClockModel.TreeClock RefMessages.clockOf
           RefMessages.fredMessage).
  vm_compute. reflexivity.
Defined.

Lemma decode_accepts_witness :
  (∀ msg, decode TreeClockModel.TreeClock RefMessages.clockOf
            (RefCodec.pack (JArray [JNumber 0; JArray []])) = Ok msg
          ↔ getProp (JArray [JNumber 0; JArray []]) "prev"
            = Ok (Some (JNumber (prev _ msg)))
            ∧ getProp (JArray [JNumber 0; JArray []]) "data"
              = Ok (Some (JArray (data _ msg)))
            ∧ time _ msg = RefMessages.clockOf (data _ msg !! 2))
  ∧ (JArray [JNumber 0; JArray []] ≠ JNull →
     (∀ msg, decode TreeClockModel.TreeClock RefMessages.clockOf
               (RefCodec.pack (JArray [JNumber 0; JArray []])) ≠ Ok msg) →
     decode TreeClockModel.TreeClock RefMessages.clockOf
       (RefCodec.pack (JArray [JNumber 0; JArray []]))
     = Throw (MeldError "Bad update" EmptyString)).
Proof.
  apply (decode_accepts TreeClockModel.TreeClock RefMessages.clockOf
           (RefCodec.pack (JArray [JNumber 0; JArray []]))
           (JArray [JNumber 0; JArray []])).
  vm_compute. reflexivity.
Defined.

End OperationMessagesProps.

Module SubjectPropertySetProps.
Import SubjectPropertySet.

Section Facts.
Variable Value : Type.
Variable compareValues : Value → Value → bool.

Lemma filter_length_eq {A} (f : A → bool) (l : list A) :
  length (List.filter f l) = length l → List.filter f l = l.
Proof.
  induction l as [|a l IH]; simpl; [done|].
  destruct (f a); simpl.
  - intros [= Hlen]. by rewrite IH.
  - intros Hlen. pose proof (List.filter_length_le f l). lia.
Qed.

Lemma filter_nil_forall {A} (f : A → bool) (l : list A) :
  (∀ x, In x l → f x = false) → List.filter f l = [].
Proof.
  induction l as [|a l IH]; simpl; [done|]. intros Hall.
  rewrite (Hall a) by by left. apply IH. intros x Hx. apply Hall. by right.
Qed.

(** The short cuts of [minus] do not change what it computes. *)
Lemma minus_filter (values minusValues : list Value) :
  minus Value compareValues values minusValues
  = List.filter (λ value, negb (matches Value compareValues value minusValues)) values.
Proof.
  unfold minus, matches.
  set (filtered := List.filter _ values).
  destruct ((length values =? 0)%nat || (length minusValues =? 0)%nat) eqn:Hshort.
  - subst filtered. symmetry. apply List.forallb_filter_id.
    apply orb_prop in Hshort as [Hv|Hm].
    + by destruct values.
    + destruct minusValues; [|discriminate]. simpl. clear. by induction values.
  - destruct (Nat.eqb_spec (length filtered) (length values)); [|done].
    symmetry. by apply filter_length_eq.
Qed.

Lemma union_app (values unionValues : list Value) :
  union Value compareValues values unionValues
  = values ++ minus Value compareValues unionValues values.
Proof.
  unfold union. destruct (minus Value compareValues unionValues values); simpl;
    [by rewrite app_nil_r | done].
Qed.

(** X26. What [_update] makes of the values of a property.  A value of
    the result is either an old value that is not the same as any deleted
    one, or an inserted value that is not the same as any old value kept;
    and conversely every such old value stays, in its place, and every
    inserted value is in the result or the same as a value kept.  Inserted
    values are not compared with each other, so a value inserted twice is
    added twice. *)
Theorem updated_values (oldValues deletes inserts : list Value) :
  let kept := List.filter (λ v, negb (matches Value compareValues v deletes)) oldValues in
  updated Value compareValues oldValues deletes inserts
  = kept ++ List.filter (λ v, negb (matches Value compareValues v kept)) inserts
  ∧ (∀ v, In v inserts →
          In v (updated Value compareValues oldValues deletes inserts)
          ∨ matches Value compareValues v kept = true)
  ∧ (∀ v, updated Value compareValues oldValues deletes [v; v]
          = if matches Value compareValues v kept then kept else kept ++ [v; v]).
Proof.
  intros kept. unfold updated. rewrite union_app, !minus_filter. fold kept.
  split; [done|]. split.
  - intros v Hin. destruct (matches Value compareValues v kept) eqn:Hm; [by right|].
    left. apply in_or_app. right. apply filter_In. by rewrite Hm.
  - intros v. rewrite union_app, !minus_filter. fold kept. simpl.
    destruct (matches Value compareValues v kept); simpl; [by rewrite app_nil_r|done].
Qed.

(** X27. When every value is the same as itself, inserting values that
    were inserted before changes nothing: [union] is idempotent, and a value
    that is already there is not added again. *)
Theorem union_idempotent (values unionValues : list Value) :
  (∀ v, In v unionValues → compareValues v v = true) →
  union Value compareValues (union Value compareValues values unionValues) unionValues
  = union Value compareValues values unionValues
  ∧ ∀ v, matches Value compareValues v values = true →
         union Value compareValues values [v] = values.
Proof.
  intros Hrefl. split.
  - rewrite (union_app (union _ _ _ _)), !union_app, !minus_filter.
    set (new := List.filter _ unionValues).
    assert (Hnone : List.filter
                      (λ v, negb (matches Value compareValues v (values ++ new)))
                      unionValues = []).
    { apply filter_nil_forall. intros v Hin. apply negb_false_iff.
      unfold matches. rewrite existsb_app.
      destruct (existsb (compareValues v) values) eqn:Hold; [done|]. simpl.
      apply existsb_exists. exists v. split; [|by apply Hrefl].
      subst new. apply filter_In. split; [done|].
      unfold matches. by rewrite Hold. }
    by rewrite Hnone, app_nil_r.
  - intros v Hv. rewrite union_app, minus_filter. simpl. by rewrite Hv, app_nil_r.
Qed.

End Facts.

Lemma union_idempotent_witness :
  union Z Z.eqb (union Z Z.eqb [1; 2] [2; 3; 3])%Z [2; 3; 3]%Z
  = union Z Z.eqb [1; 2]%Z [2; 3; 3]%Z
  ∧ ∀ v, matches Z Z.eqb v [1; 2]%Z = true → union Z Z.eqb [1; 2]%Z [v] = [1; 2]%Z.
Proof.
  apply (union_idempotent Z Z.eqb [1; 2]%Z [2; 3; 3]%Z).
  intros v _. apply Z.eqb_refl.
Defined.

End SubjectPropertySetProps.

Module JournalLifecycleProps.
Import Js Journal JournalWrites JournalWritesProps.

Section Facts.
Context `{Packing}.
Variable operation_commit : JournalOperation → Kvps.

Lemma state_cached (j j' : Journal) (s : JournalState) :
  state j = Ok (s, j') → _state j' = Some s ∧ store j' = store j.
Proof.
  unfold state. destruct (_state j) as [cached|] eqn:Hcache.
  - intros [= <- <-]. done.
  - destruct (store j !! JOURNAL_KEY); [|done]. by intros [= <- <-].
Qed.

(** X28. Disposing of an operation twice is the same as disposing of it
    once: a second call of [disposeOperationIfUnreferenced] for the same TID
    gives the same answer as the first and leaves the store as the first
    call left it.  The answer [true] therefore says that the operation is
    unreferenced, not that a record was deleted by this call. *)
Theorem dispose_again (j j1 : Journal) (tid : string) (disposed : bool) :
  disposeOperationIfUnreferenced j tid = Ok (disposed, j1) →
  ∃ j2, disposeOperationIfUnreferenced j1 tid = Ok (disposed, j2)
        ∧ store j2 = store j1.
Proof.
  unfold disposeOperationIfUnreferenced, withLockedHistory.
  destruct (decide (is_Some (store j !! tidEntryKey tid))) as [Hentry|Hentry].
  - rewrite (bool_decide_eq_true_2 _ Hentry). simpl. intros [= <- <-]. simpl.
    rewrite (bool_decide_eq_true_2 _ Hentry). simpl. by eexists.
  - rewrite (bool_decide_eq_false_2 _ Hentry).
    destruct (state j) as [[s j']|e] eqn:Hstate; [|done]. simpl.
    destruct (state_cached _ _ _ Hstate) as [Hcache Hstore].
    destruct (existsb (String.eqb tid) (tids (gwc s))) eqn:Hgwc; simpl;
      intros [= <- <-]; cbn [store].
    + rewrite Hstore, (bool_decide_eq_false_2 _ Hentry).
      unfold state at 1. cbn [_state]. rewrite Hcache. simpl. rewrite Hgwc.
      simpl. by eexists.
    + rewrite lookup_delete_ne by apply JournalProps.tidOpKey_not_entryKey.
      rewrite Hstore, (bool_decide_eq_false_2 _ Hentry).
      unfold state at 1. cbn [_state]. rewrite Hcache. simpl. rewrite Hgwc.
      simpl. eexists. split; [done|]. simpl.
      apply map_eq. intros key. destruct (decide (key = tidOpKey tid)) as [->|].
      * by rewrite !lookup_delete_eq.
      * by rewrite !lookup_delete_ne.
Qed.

(** X29. Splicing out an entry undoes its commit.  When the store holds
    nothing under the tick key of an entry, under its TID or under the TID
    of its operation, committing the entry and then removing its index with
    [spliceEntries] gives back the store as it was, and the state cache with
    it. *)
Theorem spliceEntries_undoes_commitEntry (j : Journal) (entry : JournalEntry)
    (isTail : bool) :
  Forall (λ w, writeKey w = tidOpKey (tid (entry_operation entry)))
         (operation_commit (entry_operation entry)) →
  store j !! entry_key entry = None →
  store j !! tidEntryKey (tid (entry_operation entry)) = None →
  store j !! tidOpKey (tid (entry_operation entry)) = None →
  ∃ after,
    spliceEntries operation_commit
      (committed j (commitEntry operation_commit entry isTail).1)
      [JournalEntry_index entry] None
    = Ok (after, [])
    ∧ store after = store j ∧ _state after = _state j.
Proof.
  intros Hcommit Hkey Hentry Hop. eexists. split; [reflexivity|].
  split; [|reflexivity]. cbn [store committed kvps]. rewrite app_nil_r.
  apply map_eq. intros key. rewrite commitBatch_removals.
  change (map writeKey (removals [JournalEntry_index entry]))
    with [entry_key entry; tidEntryKey (tid (entry_operation entry));
          tidOpKey (tid (entry_operation entry))].
  destruct (decide (key ∈ [entry_key entry;
                           tidEntryKey (tid (entry_operation entry));
                           tidOpKey (tid (entry_operation entry))])) as [Hin|Hout].
  - rewrite bool_decide_eq_true_2 by done.
    rewrite !elem_of_cons in Hin.
    destruct Hin as [->|[->|[->|Hin]]]; [done|done|done|by apply elem_of_nil in Hin].
  - rewrite bool_decide_eq_false_2 by done.
    rewrite !not_elem_of_cons in Hout. destruct Hout as (? & ? & ? & _).
    apply commitBatch_other. unfold commitEntry. cbn [fst]. rewrite map_app.
    simpl. rewrite !not_elem_of_cons. repeat split; try done.
    intros Hin. apply list_elem_of_fmap in Hin as (w & -> & Hin).
    rewrite Forall_forall in Hcommit. by rewrite (Hcommit w Hin) in *.
Qed.

End Facts.

Lemma dispose_again_witness :
  ∃ j2, disposeOperationIfUnreferenced RefJournal.disposedJournal "stale"
        = Ok (true, j2)
        ∧ store j2 = store RefJournal.disposedJournal.
Proof.
  apply (dispose_again RefJournal.cachedJournal RefJournal.disposedJournal
           "stale" true).
  unfold disposeOperationIfUnreferenced, withLockedHistory.
  destruct (store RefJournal.cachedJournal !! tidEntryKey "stale") eqn:E;
    [vm_compute in E; discriminate|].
  rewrite bool_decide_eq_false_2 by (by intros [? ?]). reflexivity.
Defined.

Lemma spliceEntries_undoes_commitEntry_witness :
  ∃ after,
    spliceEntries RefJournal.operation_commit
      (committed RefJournal.emptyJournal
         (commitEntry RefJournal.operation_commit RefJournal.wilmaEntry true).1)
      [JournalEntry_index RefJournal.wilmaEntry] None
    = Ok (after, [])
    ∧ store after = store RefJournal.emptyJournal
    ∧ _state after = _state RefJournal.emptyJournal.
Proof.
  apply (spliceEntries_undoes_commitEntry RefJournal.operation_commit
           RefJournal.emptyJournal RefJournal.wilmaEntry true).
  - repeat constructor.
  - apply lookup_empty.
  - apply lookup_empty.
  - apply lookup_empty.
Defined.

End JournalLifecycleProps.

Module PositionProps.
Import Js Reification Quads.

(** X30. [inPosition] returns its argument unchanged or throws.  It
    returns for every term in the object position, and for a term in the
    subject or predicate position unless the term is a literal or, for the
    predicate, a blank node; variables and IRIs pass everywhere.  A missing
    term and a refused one make it throw an [Error] that names the
    position. *)
Theorem inPosition_accepts (termToString : Term → string) (pos : TriplePos)
    (value : option Term) :
  match inPosition termToString pos value with
  | Ok term =>
      value = Some term
      ∧ (pos = ObjectPos ∨ isLiteral term = false)
      ∧ (pos = PredicatePos → isBlankNode term = false)
  | Throw e =>
      (value = None
       ∨ ∃ term, value = Some term
                 ∧ (pos ≠ ObjectPos ∧ isLiteral term = true
                    ∨ pos = PredicatePos ∧ isBlankNode term = true))
      ∧ ∃ what, e = Error (what +:+ " cannot be used in " +:+ posName pos
                           +:+ " position")
  end
  ∧ (∀ term, inPosition termToString ObjectPos (Some term) = Ok term)
  ∧ (∀ iri name,
       inPosition termToString pos (Some (NamedNode iri)) = Ok (NamedNode iri)
       ∧ inPosition termToString pos (Some (VariableTerm name))
         = Ok (VariableTerm name)).
Proof.
  split; [|split].
  - destruct value as [term|]; simpl.
    + destruct pos, term; simpl; repeat split; eauto; try discriminate;
        try (right; eexists; split; [reflexivity|]; auto; fail).
      all: right; eexists; split; [reflexivity|]; left; by split.
    + split; [by left|]. by exists "undefined".
  - by intros [].
  - intros iri name. by destruct pos.
Qed.

End PositionProps.
